(** * camFusion_Student.cpp: lidar/camera fusion and time-to-collision

    A shallow embedding of the operations of [camFusion_Student.cpp]
    ([clusterLidarWithROI], [show3DObjects], [clusterKptMatchesWithROI],
    [median], [computeTTCCamera], [computeTTCLidar], [matchBoundingBoxes]):
    the properties of them that the design document states, followed by
    further properties of the code.

    Conventions of the embedding.
    - A C++ [float] or [double] that the code keeps finite is an exact
      rational ([Q]), and two rationals are the same number when they are
      [==].  Rounding is modelled where it decides an integer result at the
      shrink factor the project uses: in the shrunk regions of
      [clusterLidarWithROI] (lines 40-43), whose [float] and [double]
      operations round to nearest; elsewhere it is not.  Where a division can
      leave the finite range (the two TTC formulas) the value is a [double]:
      finite, infinite or not-a-number.  Zero carries no sign.
    - A C++ [int] is an integer ([Z]); overflow of [int] arithmetic is not
      modelled.  The conversion of a floating value to [int] drops the
      fraction, and is undefined when the result is not an [int].
    - A [std::vector] is a list; a call that throws, or whose behaviour the
      language does not define, is a [result] other than [Ok].
    - What a variable holds before it is first written is a parameter of the
      model (the [stack] of [matchBoundingBoxes]). *)

From Stdlib Require Import ZArith QArith Qabs Qround Qpower Lia Lqa.
From stdpp Require Import base option list gmap.

(** ** Outcomes of a call *)

Inductive exn : Type :=
| out_of_range   (* thrown by std::vector::at *)
| cv_Exception.  (* thrown by OpenCV, here by a product of mismatched matrices *)

Inductive result (A : Type) : Type :=
| Ok (a : A)
| Throw (e : exn)
| Undefined.     (* undefined behaviour: an unchecked access out of range, a
                    floating value converted to int that is not an int *)

Arguments Ok {A} a.
Arguments Throw {A} e.
Arguments Undefined {A}.

#[global] Instance result_ret : MRet result := fun A a => Ok a.
#[global] Instance result_bind : MBind result := fun A B f r =>
  match r with
  | Ok a => f a
  | Throw e => Throw e
  | Undefined => Undefined
  end.

(** [v.at(i)] with an [int] index: a negative index converts to a huge
    [size_t] and is out of range like any other. *)
Definition vec_at {A : Type} (v : list A) (i : Z) : result A :=
  if (i <? 0)%Z then Throw out_of_range
  else match v !! Z.to_nat i with
       | Some a => Ok a
       | None => Throw out_of_range
       end.

(** [v[i]]: no check. *)
Definition vec_index {A : Type} (v : list A) (i : Z) : result A :=
  if (i <? 0)%Z then Undefined
  else match v !! Z.to_nat i with
       | Some a => Ok a
       | None => Undefined
       end.

(** ** Numbers *)

(** [std::numeric_limits<double>::epsilon()] *)
Definition epsilon : Q := 1 # (2 ^ 52).

Definition Qltb (a b : Q) : bool := negb (Qle_bool b a).

(** A floating value with its fractional part discarded (truncation toward
    zero). *)
Definition d2i (q : Q) : Z :=
  if Qle_bool 0 q then Qfloor q else Qceiling q.

(** The range of [int]. *)
Definition INT_MIN : Z := - 2 ^ 31.
Definition INT_MAX : Z := 2 ^ 31 - 1.

Definition in_int (z : Z) : bool := (INT_MIN <=? z)%Z && (z <=? INT_MAX)%Z.

(** Conversion of a floating value to [int]: the truncated value when it is
    an [int]; otherwise (as for an infinity or a not-a-number, which here is
    a quotient by zero) the behaviour is undefined. *)
Definition to_int (q : Q) : result Z :=
  if in_int (d2i q) then Ok (d2i q) else Undefined.

(** [cvRound], which is what [saturate_cast<int>] does to a [float]: the
    nearest integer, a tie going to the even one. *)
Definition cvRound (q : Q) : Z :=
  let f := Qfloor q in
  let d := (q - inject_Z f)%Q in
  if Qltb d (1 # 2) then f
  else if Qltb (1 # 2) d then (f + 1)%Z
  else if Z.even f then f else (f + 1)%Z.

(** The binary logarithm of a positive rational, rounded down. *)
Definition Qlog2 (q : Q) : Z :=
  let l := (Z.log2 (Qnum q) - Z.log2 (Z.pos (Qden q)))%Z in
  if Qle_bool (2 ^ l) q then l else (l - 1)%Z.

(** Rounding to the nearest binary floating-point number of [prec] significant
    bits whose last place is not below [2 ^ emin], a tie going to the even
    significand.  The exponent is not bounded above: a value beyond the
    largest [float] stays a (huge) number instead of becoming an infinity,
    and converts to no [int] either way. *)
Definition round_nearest (prec emin : Z) (q : Q) : Q :=
  if Qeq_bool q 0 then 0%Q
  else
    let e := Z.max (Qlog2 (Qabs q) - (prec - 1)) emin in
    (inject_Z (cvRound (q / 2 ^ e)) * 2 ^ e)%Q.

(** The result of an operation on [float]s, and on [double]s. *)
Definition to_float : Q -> Q := round_nearest 24 (-149).
Definition to_double : Q -> Q := round_nearest 53 (-1074).

(** A [double] that may have left the finite range. *)
Inductive double : Type :=
| Fin (q : Q)
| Inf (negative : bool)
| NaN.

Definition fneg (a : double) : double :=
  match a with
  | Fin q => Fin (- q)
  | Inf s => Inf (negb s)
  | NaN => NaN
  end.

Definition fmul (a b : double) : double :=
  match a, b with
  | NaN, _ | _, NaN => NaN
  | Fin x, Fin y => Fin (x * y)
  | Fin x, Inf s | Inf s, Fin x =>
      if Qeq_bool x 0 then NaN else Inf (xorb s (Qltb x 0))
  | Inf s, Inf t => Inf (xorb s t)
  end.

Definition fdiv (a b : double) : double :=
  match a, b with
  | NaN, _ | _, NaN => NaN
  | Fin x, Fin y =>
      if Qeq_bool y 0
      then (if Qeq_bool x 0 then NaN else Inf (Qltb x 0))
      else Fin (x / y)
  | Fin _, Inf _ => Fin 0
  | Inf s, Fin y => Inf (xorb s (Qltb y 0))
  | Inf _, Inf _ => NaN
  end.

(** Two doubles that denote the same value. *)
Definition double_eq (a b : double) : Prop :=
  match a, b with
  | Fin x, Fin y => x == y
  | Inf s, Inf t => s = t
  | NaN, NaN => True
  | _, _ => False
  end.

Definition isnan (a : double) : bool :=
  match a with NaN => true | _ => false end.

(** ** Data model (dataStructures.h and the OpenCV types it uses)

    Of each structure, the fields the operations read or write. *)

(** [cv::Point], integer pixel coordinates. *)
Record Point : Type := mkPoint { px : Z; py : Z }.

(** [cv::Point2f] *)
Record Point2f : Type := mkPoint2f { fx : Q; fy : Q }.

(** [cv::Rect], integer pixel coordinates. *)
Record Rect : Type := mkRect { rx : Z; ry : Z; rwidth : Z; rheight : Z }.

(** [Rect::contains]: the left and top edges are inside, the right and bottom
    edges are not. *)
Definition contains (r : Rect) (p : Point) : bool :=
  (rx r <=? px p)%Z && (px p <? rx r + rwidth r)%Z &&
  (ry r <=? py p)%Z && (py p <? ry r + rheight r)%Z.

(** The conversion [Point2f] to [Point] that passing a [Point2f] to
    [Rect::contains] goes through in the OpenCV 4.1 the project builds
    against: each coordinate by [saturate_cast]. *)
Definition Point2f_to_Point (p : Point2f) : Point :=
  mkPoint (cvRound (fx p)) (cvRound (fy p)).

Record LidarPoint : Type :=
  mkLidarPoint { lidar_x : Q; lidar_y : Q; lidar_z : Q; lidar_r : Q }.

Record KeyPoint : Type := mkKeyPoint { pt : Point2f }.

Record DMatch : Type :=
  mkDMatch { queryIdx : Z; trainIdx : Z; distance : Q }.

Record BoundingBox : Type := mkBoundingBox {
  boxID : Z;
  roi : Rect;
  lidarPoints : list LidarPoint;
  kptMatches : list DMatch
}.

Record DataFrame : Type := mkDataFrame {
  keypoints : list KeyPoint;
  boundingBoxes : list BoundingBox
}.

(** [cv::Mat] of doubles: the elements row after row in one buffer. *)
Record Mat : Type := mkMat { rows : nat; cols : nat; data : list Q }.

(** [m.at<double>(i, j)]: the element [j] places after the start of row [i].
    OpenCV checks [i] and [j] against the matrix size in debug builds only;
    the access itself is this address computation. *)
Definition Mat_at (m : Mat) (i j : nat) : result Q :=
  match data m !! (i * cols m + j)%nat with
  | Some v => Ok v
  | None => Undefined
  end.

Definition entry (m : Mat) (i j : nat) : Q :=
  nth (i * cols m + j) (data m) 0%Q.

Definition dot (a b : Mat) (i j : nat) : Q :=
  foldr (fun k acc => (entry a i k * entry b k j + acc)%Q) 0%Q (seq 0 (cols a)).

(** [a * b]; OpenCV refuses operands whose inner sizes differ. *)
Definition Mat_mul (a b : Mat) : result Mat :=
  if (cols a =? rows b)%nat
  then Ok (mkMat (rows a) (cols b)
             (flat_map (fun i => map (fun j => dot a b i j) (seq 0 (cols b)))
                (seq 0 (rows a))))
  else Throw cv_Exception.

(** ** clusterLidarWithROI *)

Section ClusterLidar.
(** [shrinkFactor] is a [float]. *)
Variable shrinkFactor : Q.
Variables P_rect_xx R_rect_xx RT : Mat.

(** Lines 24-33: the pixel a lidar point projects to.  The two quotients are
    stored in the [int] fields of a [cv::Point]. *)
Definition project (p : LidarPoint) : result Point :=
  let X := mkMat 4 1 [lidar_x p; lidar_y p; lidar_z p; 1%Q] in
  PR ← Mat_mul P_rect_xx R_rect_xx;
  PRT ← Mat_mul PR RT;
  Y ← Mat_mul PRT X;
  y00 ← Mat_at Y 0 0;
  y02 ← Mat_at Y 0 2;
  y10 ← Mat_at Y 1 0;
  if Qeq_bool y02 0 then Undefined
  else
    x ← to_int (y00 / y02);
    y ← to_int (y10 / y02);
    Ok (mkPoint x y).

(** Lines 39-43.  In [roi.x + shrinkFactor * roi.width / 2.0] the product is
    a [float] (the [int] width converts to [float]), the quotient and the sum
    are [double]s; in [roi.width * (1 - shrinkFactor)] the difference and the
    product are [float]s.  Each result is stored in an [int] field. *)
Definition smallerBox (r : Rect) : result Rect :=
  x ← to_int (to_double (inject_Z (rx r)
         + to_double (to_float (shrinkFactor * to_float (inject_Z (rwidth r))) / 2)));
  y ← to_int (to_double (inject_Z (ry r)
         + to_double (to_float (shrinkFactor * to_float (inject_Z (rheight r))) / 2)));
  w ← to_int (to_float (to_float (inject_Z (rwidth r)) * to_float (1 - shrinkFactor)));
  h ← to_int (to_float (to_float (inject_Z (rheight r)) * to_float (1 - shrinkFactor)));
  Ok (mkRect x y w h).

(** Lines 35-51: the positions (iterators) of the boxes whose shrunk
    region contains the pixel, from position [i] on. *)
Fixpoint enclosingBoxes (i : nat) (boxes : list BoundingBox) (p : Point)
  : result (list nat) :=
  match boxes with
  | [] => Ok []
  | b :: rest =>
      box ← smallerBox (roi b);
      found ← enclosingBoxes (S i) rest p;
      Ok (if contains box p then i :: found else found)
  end.

Definition push_lidarPoint (p : LidarPoint) (b : BoundingBox) : BoundingBox :=
  mkBoundingBox (boxID b) (roi b) (lidarPoints b ++ [p]) (kptMatches b).

(** Lines 35-58 *)
Definition attach (boxes : list BoundingBox) (pix : Point) (p : LidarPoint)
  : result (list BoundingBox) :=
  found ← enclosingBoxes 0 boxes pix;
  Ok (match found with
      | [k] => alter (push_lidarPoint p) k boxes
      | _ => boxes
      end).

Fixpoint clusterLidarWithROI (boundingBoxes : list BoundingBox)
    (points : list LidarPoint) : result (list BoundingBox) :=
  match points with
  | [] => Ok boundingBoxes
  | p :: rest =>
      pix ← project p;
      boxes ← attach boundingBoxes pix p;
      clusterLidarWithROI boxes rest
  end.
End ClusterLidar.

(** ** clusterKptMatchesWithROI *)

(** Lines 135-140: the matches whose current keypoint is inside the region. *)
Fixpoint kptMatchesROI (r : Rect) (kptsCurr : list KeyPoint)
    (matches : list DMatch) : result (list DMatch) :=
  match matches with
  | [] => Ok []
  | m :: rest =>
      kp ← vec_at kptsCurr (trainIdx m);
      found ← kptMatchesROI r kptsCurr rest;
      Ok (if contains r (Point2f_to_Point (pt kp)) then m :: found else found)
  end.

(** [std::accumulate] *)
Definition accumulate (l : list Q) (init : Q) : Q :=
  foldl (fun acc v => (acc + v)%Q) init l.

Definition size_Q {A : Type} (l : list A) : Q := inject_Z (Z.of_nat (length l)).

(** Lines 143-150 *)
Definition avgDist (ms : list DMatch) : Q :=
  (accumulate (map distance ms) 0 / size_Q ms)%Q.

(** Lines 156-161: what the second loop pushes. *)
Definition below_threshold (ms : list DMatch) : list DMatch :=
  let threshold := (avgDist ms * (8 # 10))%Q in
  List.filter (fun m => Qltb (distance m) threshold) ms.

Definition push_kptMatches (ms : list DMatch) (b : BoundingBox) : BoundingBox :=
  mkBoundingBox (boxID b) (roi b) (lidarPoints b) (kptMatches b ++ ms).

(** The box is written only after the last [at]: a call that throws has not
    touched it. *)
Definition clusterKptMatchesWithROI (boundingBox : BoundingBox)
    (kptsPrev kptsCurr : list KeyPoint) (matches : list DMatch)
    : result BoundingBox :=
  found ← kptMatchesROI (roi boundingBox) kptsCurr matches;
  if (0 <? length found)%nat
  then Ok (push_kptMatches (below_threshold found) boundingBox)
  else Ok boundingBox.

(** ** median and computeTTCCamera *)

Section Camera.
(** [std::nth_element] over a whole vector, and the square root of the C
    library. *)
Variable nth_element : nat -> list Q -> list Q.
Variable sqrt : Q -> Q.

(** The value returned and the vector as the call leaves it. *)
Definition median (distRatios : list Q) : Q * list Q :=
  let size := length distRatios in
  let n := (size / 2)%nat in
  if (size =? 0)%nat then (0%Q, distRatios)
  else
    let v1 := nth_element n distRatios in
    let retVal := nth n v1 0%Q in
    if (size mod 2 =? 0)%nat
    then
      let v2 := nth_element (n - 1) v1 in
      (((retVal + nth (n - 1) v2 0%Q) / 2)%Q, v2)
    else (retVal, v1).

(** [cv::norm] of the difference of two points. *)
Definition norm_diff (a b : Point2f) : Q :=
  let dx := (fx a - fx b)%Q in
  let dy := (fy a - fy b)%Q in
  sqrt (dx * dx + dy * dy).

Definition minDist : Q := 100.

(** Lines 205-224, [it2] running over [inner]. *)
Fixpoint inner_loop (kptsPrev kptsCurr : list KeyPoint)
    (kpOuterCurr kpOuterPrev : KeyPoint) (inner : list DMatch)
    (distRatios : list Q) : result (list Q) :=
  match inner with
  | [] => Ok distRatios
  | it2 :: rest =>
      kpInnerCurr ← vec_at kptsCurr (trainIdx it2);
      kpInnerPrev ← vec_at kptsPrev (queryIdx it2);
      let distCurr := norm_diff (pt kpOuterCurr) (pt kpInnerCurr) in
      let distPrev := norm_diff (pt kpOuterPrev) (pt kpInnerPrev) in
      inner_loop kptsPrev kptsCurr kpOuterCurr kpOuterPrev rest
        (if Qltb epsilon distPrev && Qle_bool minDist distCurr
         then distRatios ++ [(distCurr / distPrev)%Q]
         else distRatios)
  end.

(** Lines 198-225, [it1] running over [outer]; [all] is the whole vector. *)
Fixpoint outer_loop (kptsPrev kptsCurr : list KeyPoint) (all outer : list DMatch)
    (distRatios : list Q) : result (list Q) :=
  match outer with
  | [] => Ok distRatios
  | it1 :: rest =>
      kpOuterCurr ← vec_at kptsCurr (trainIdx it1);
      kpOuterPrev ← vec_at kptsPrev (queryIdx it1);
      ratios ← inner_loop kptsPrev kptsCurr kpOuterCurr kpOuterPrev
                 (drop 1 all) distRatios;
      outer_loop kptsPrev kptsCurr all rest ratios
  end.

(** The ratios the two loops record: [it1] from [begin()] up to
    [end() - 1], [it2] from [begin() + 1] up to [end()]. *)
Definition distRatios (kptsPrev kptsCurr : list KeyPoint)
    (matches : list DMatch) : result (list Q) :=
  outer_loop kptsPrev kptsCurr matches (removelast matches) [].

(** The value the call leaves in [TTC]. *)
Definition computeTTCCamera (kptsPrev kptsCurr : list KeyPoint)
    (matches : list DMatch) (frameRate : Q) : result double :=
  if (length matches =? 0)%nat then Ok NaN
  else
    ratios ← distRatios kptsPrev kptsCurr matches;
    if (length ratios =? 0)%nat then Ok NaN
    else
      let dT := fdiv (Fin 1) (Fin frameRate) in
      let medianDistRatios := fst (median ratios) in
      Ok (fdiv (fneg dT) (Fin (1 - medianDistRatios))).
End Camera.

(** ** computeTTCLidar *)

Definition laneWidth : Q := 4.

(** Lines 252-262: the [x] of the points within the ego lane. *)
Definition lane_x (points : list LidarPoint) : list Q :=
  map lidar_x
    (List.filter (fun p => Qle_bool (Qabs (lidar_y p)) (laneWidth / 2)) points).

Definition mean (l : list Q) : Q := (accumulate l 0 / size_Q l)%Q.

(** The value the call leaves in [TTC]. *)
Definition computeTTCLidar (lidarPointsPrev lidarPointsCurr : list LidarPoint)
    (frameRate : Q) : double :=
  let dT := fdiv (Fin 1) (Fin frameRate) in
  let prev_x := lane_x lidarPointsPrev in
  let curr_x := lane_x lidarPointsCurr in
  if (0 <? length prev_x)%nat && (0 <? length curr_x)%nat
  then
    let avgXPrev := mean prev_x in
    let avgXCurr := mean curr_x in
    fdiv (fmul (Fin avgXCurr) dT) (Fin (avgXPrev - avgXCurr))
  else NaN.

(** ** matchBoundingBoxes *)

(** [cv::Point(kp.pt.x, kp.pt.y)]: the two [float]s convert to [int]. *)
Definition int_Point (kp : KeyPoint) : result Point :=
  x ← to_int (fx (pt kp));
  y ← to_int (fy (pt kp));
  Ok (mkPoint x y).

(** Lines 300-307 and 309-316: [for (i = from; i < from + steps; i++)], pushing
    each [i] whose box contains the point.  The boxes are read with
    [operator[]]. *)
Fixpoint scan_boxes (boxes : list BoundingBox) (p : Point) (from steps : nat)
  : result (list nat) :=
  match steps with
  | O => Ok []
  | S steps' =>
      b ← vec_index boxes (Z.of_nat from);
      found ← scan_boxes boxes p (S from) steps';
      Ok (if contains (roi b) p then from :: found else found)
  end.

(** [point_count[a][b] += 1] *)
Definition increment (a b : nat) (counts : list (list Z)) : list (list Z) :=
  alter (alter Z.succ b) a counts.

(** Lines 318-324 *)
Definition add_votes (queryId trainId : list nat) (counts : list (list Z))
  : list (list Z) :=
  foldl (fun c a_id_prev =>
           foldl (fun c' a_id_curr => increment a_id_prev a_id_curr c') c trainId)
    counts queryId.

(** Lines 290-324, the body of the loop over the matches.  [queryPtFound] and
    [trainPtFound] are set exactly when something is pushed to [queryId] and
    [trainId]. *)
Definition count_match (prevFrame currFrame : DataFrame) (prev_bb_cnt : nat)
    (counts : list (list Z)) (m : DMatch) : result (list (list Z)) :=
  query ← vec_index (keypoints prevFrame) (queryIdx m);
  queryPt ← int_Point query;
  train ← vec_index (keypoints currFrame) (trainIdx m);
  trainPt ← int_Point train;
  queryId ← scan_boxes (boundingBoxes prevFrame) queryPt 0 prev_bb_cnt;
  trainId ← scan_boxes (boundingBoxes currFrame) trainPt 0 prev_bb_cnt;
  let queryPtFound := bool_decide (queryId ≠ []) in
  let trainPtFound := bool_decide (trainId ≠ []) in
  Ok (if queryPtFound && trainPtFound
      then add_votes queryId trainId counts
      else counts).

Fixpoint count_matches (prevFrame currFrame : DataFrame) (prev_bb_cnt : nat)
    (counts : list (list Z)) (matches : list DMatch) : result (list (list Z)) :=
  match matches with
  | [] => Ok counts
  | m :: rest =>
      counts' ← count_match prevFrame currFrame prev_bb_cnt counts m;
      count_matches prevFrame currFrame prev_bb_cnt counts' rest
  end.

(** Line 284, [int point_count[prev_bb_cnt][curr_bb_cnt] = {0}]: an array of
    variable length (an extension of g++) with an initialiser.  g++ stores
    the one value given, in [point_count[0][0]], and fills the rows after the
    first with zeros; the rest of the first row is not written and holds
    what the stack held, [stack j] in column [j].  With no box in one of the
    frames the array has no element, and the store of the initialiser is a
    write past its end. *)
Definition point_count_init (stack : nat -> Z) (prev_bb_cnt curr_bb_cnt : nat)
  : result (list (list Z)) :=
  match prev_bb_cnt, curr_bb_cnt with
  | S p, S c =>
      Ok ((0%Z :: map stack (seq 1 c)) :: replicate p (replicate (S c) 0%Z))
  | _, _ => Undefined
  end.

(** Lines 282-325: the matrix of votes after the loop over the matches. *)
Definition point_count (stack : nat -> Z) (matches : list DMatch)
    (prevFrame currFrame : DataFrame) : result (list (list Z)) :=
  let prev_bb_cnt := length (boundingBoxes prevFrame) in
  let curr_bb_cnt := length (boundingBoxes currFrame) in
  counts ← point_count_init stack prev_bb_cnt curr_bb_cnt;
  count_matches prevFrame currFrame prev_bb_cnt counts matches.

(** Lines 331-340: the scan of one row, from column [j] on. *)
Fixpoint id_max_from (row : list Z) (j : nat) (max_count : Z) (id_max : nat)
  : nat :=
  match row with
  | [] => id_max
  | c :: rest =>
      if (max_count <? c)%Z
      then id_max_from rest (S j) c j
      else id_max_from rest (S j) max_count id_max
  end.

(** Lines 329-342 *)
Fixpoint pick_best (counts : list (list Z)) (i : nat) (bbBestMatches : gmap Z Z)
  : gmap Z Z :=
  match counts with
  | [] => bbBestMatches
  | row :: rest =>
      pick_best rest (S i)
        (<[Z.of_nat i := Z.of_nat (id_max_from row 0 0%Z 0)]> bbBestMatches)
  end.

(** The map as the call leaves it. *)
Definition matchBoundingBoxes (stack : nat -> Z) (matches : list DMatch)
    (bbBestMatches : gmap Z Z) (prevFrame currFrame : DataFrame)
  : result (gmap Z Z) :=
  counts ← point_count stack matches prevFrame currFrame;
  Ok (pick_best counts 0 bbBestMatches).

(** ** show3DObjects

    What the call draws when it gets through.  Not modelled: the colours
    (drawn from a random generator seeded by the box id), the rendering of
    the two labels as text, and the image and window calls of OpenCV, which
    can fail for reasons outside the arithmetic (an image without pixels, no
    display); [Ok] says that the geometry is defined.  The [float] copies of
    the coordinates are the coordinates themselves. *)

(** [cv::Size] *)
Record Size : Type := mkSize { width : Z; height : Z }.

(** The variables of lines 76-77 and the centres of the circles drawn so
    far. *)
Record TopView : Type := mkTopView {
  top : Z; left : Z; bottom : Z; right : Z;
  xwmin : Q; ywmin : Q; ywmax : Q;
  centres : list Point
}.

Definition TopView_init : TopView :=
  mkTopView (10 ^ 8) (10 ^ 8) 0 0
    (inject_Z (10 ^ 8)) (inject_Z (10 ^ 8)) (- inject_Z (10 ^ 8)) [].

(** Lines 80-98, one lidar point.  A world size of zero makes the quotient
    non-finite and its conversion to [int] undefined. *)
Definition plot_point (worldSize imageSize : Size) (st : TopView) (p : LidarPoint)
  : result TopView :=
  let xw := lidar_x p in
  let yw := lidar_y p in
  if (height worldSize =? 0)%Z || (width worldSize =? 0)%Z then Undefined
  else
    y ← to_int (- xw * inject_Z (height imageSize) / inject_Z (height worldSize)
                + inject_Z (height imageSize));
    x ← to_int (- yw * inject_Z (width imageSize) / inject_Z (width worldSize)
                + inject_Z (Z.quot (width imageSize) 2));
    Ok (mkTopView
          (if (top st <? y)%Z then top st else y)
          (if (left st <? x)%Z then left st else x)
          (if (y <? bottom st)%Z then bottom st else y)
          (if (x <? right st)%Z then right st else x)
          (if Qltb (xwmin st) xw then xwmin st else xw)
          (if Qltb (ywmin st) yw then ywmin st else yw)
          (if Qltb yw (ywmax st) then ywmax st else yw)
          (centres st ++ [mkPoint x y])).

(** Lines 78-99 *)
Fixpoint plot_points (worldSize imageSize : Size) (st : TopView)
    (points : list LidarPoint) : result TopView :=
  match points with
  | [] => Ok st
  | p :: rest =>
      st' ← plot_point worldSize imageSize st p;
      plot_points worldSize imageSize st' rest
  end.

(** What is drawn for one box: the circles, the rectangle from
    [(left, top)] to [(right, bottom)], and the two labels, which show the
    box id, the number of points, [xwmin] and [ywmax - ywmin] and are
    anchored at [(left - 250, bottom + 50)] and [(left - 250, bottom + 125)]. *)
Record BoxDrawing : Type := mkBoxDrawing {
  view : TopView;
  label_id : Z;
  label_pts : Z;
  label_xmin : Q;
  label_yw : Q
}.

Definition draw_box (worldSize imageSize : Size) (b : BoundingBox)
  : result BoxDrawing :=
  st ← plot_points worldSize imageSize TopView_init (lidarPoints b);
  Ok (mkBoxDrawing st (boxID b) (Z.of_nat (length (lidarPoints b)))
        (xwmin st) (ywmax st - ywmin st)%Q).

Fixpoint draw_boxes (worldSize imageSize : Size) (boxes : list BoundingBox)
  : result (list BoxDrawing) :=
  match boxes with
  | [] => Ok []
  | b :: rest =>
      d ← draw_box worldSize imageSize b;
      ds ← draw_boxes worldSize imageSize rest;
      Ok (d :: ds)
  end.

Definition lineSpacing : Q := 2.

(** Line 114; the loop of line 115 compares its [size_t] counter with this
    [int], which converts to [size_t]. *)
Definition nMarkers (worldSize : Size) : Z :=
  Qfloor (inject_Z (height worldSize) / lineSpacing).

Definition marker_count (worldSize : Size) : nat :=
  Z.to_nat (nMarkers worldSize mod 2 ^ 64).

(** Line 117: the height of marker [i]. *)
Definition marker_y (worldSize imageSize : Size) (i : nat) : result Z :=
  to_int (- (inject_Z (Z.of_nat i) * lineSpacing) * inject_Z (height imageSize)
          / inject_Z (height worldSize) + inject_Z (height imageSize)).

(** Lines 115-119, from marker [i] on. *)
Fixpoint draw_markers (worldSize imageSize : Size) (i count : nat)
  : result (list Z) :=
  match count with
  | O => Ok []
  | S count' =>
      y ← marker_y worldSize imageSize i;
      ys ← draw_markers worldSize imageSize (S i) count';
      Ok (y :: ys)
  end.

(** The drawings of the boxes and the heights of the horizontal marker lines,
    each from [(0, y)] to [(imageSize.width, y)]. *)
Definition show3DObjects (boundingBoxes : list BoundingBox)
    (worldSize imageSize : Size) : result (list BoxDrawing * list Z) :=
  ds ← draw_boxes worldSize imageSize boundingBoxes;
  markers ← draw_markers worldSize imageSize 0 (marker_count worldSize);
  Ok (ds, markers).

(** ** Reference definitions for the statements *)

(** What [std::nth_element (first, first + k, last)] guarantees of the
    vector it leaves: the same elements, nothing before position [k] above the
    element at [k], nothing after it below. *)
Definition nth_element_contract (nth_element : nat -> list Q -> list Q) : Prop :=
  forall (k : nat) (l : list Q), (k < length l)%nat ->
    nth_element k l ≡ₚ l /\
    forall i : nat, (i < length l)%nat ->
      ((i <= k)%nat -> (nth i (nth_element k l) 0 <= nth k (nth_element k l) 0)%Q) /\
      ((k <= i)%nat -> (nth k (nth_element k l) 0 <= nth i (nth_element k l) 0)%Q).

(** A full ascending sort, by insertion. *)
Fixpoint insert_asc (x : Q) (l : list Q) : list Q :=
  match l with
  | [] => [x]
  | y :: l' => if Qle_bool x y then x :: l else y :: insert_asc x l'
  end.

Definition sort_asc (l : list Q) : list Q := foldr insert_asc [] l.

Definition ascending (s : list Q) : Prop :=
  forall i j : nat, (i <= j)%nat -> (j < length s)%nat ->
    (nth i s 0 <= nth j s 0)%Q.

(** Adjacent elements in order. *)
Inductive chain : list Q -> Prop :=
| chain_nil : chain []
| chain_one x : chain [x]
| chain_cons x y l : (x <= y)%Q -> chain (y :: l) -> chain (x :: y :: l).

(** How many elements pass a test. *)
Definition count (f : Q -> bool) (l : list Q) : nat := length (List.filter f l).

(** A full sort is one way to meet the contract of [std::nth_element]. *)
Definition nth_element_by_sorting (k : nat) (l : list Q) : list Q := sort_asc l.

(** The median in the design document's words: the middle element of the
    sorted sequence, or the average of the two middle elements. *)
Definition sorted_middle (l : list Q) : Q :=
  let n := length l in
  let s := sort_asc l in
  if Nat.even n
  then ((nth (n / 2 - 1) s 0 + nth (n / 2) s 0) / 2)%Q
  else nth (n / 2) s 0%Q.

(** An index a vector can be read at. *)
Definition valid_index {A : Type} (v : list A) (i : Z) : Prop :=
  (0 <= i < Z.of_nat (length v))%Z.

Definition indices_valid (kptsPrev kptsCurr : list KeyPoint) (m : DMatch) : Prop :=
  valid_index kptsPrev (queryIdx m) /\ valid_index kptsCurr (trainIdx m).

(** Whether the current keypoint of a match is inside a region. *)
Definition inside_roi (r : Rect) (kptsCurr : list KeyPoint) (m : DMatch) : bool :=
  match kptsCurr !! Z.to_nat (trainIdx m) with
  | Some kp => contains r (Point2f_to_Point (pt kp))
  | None => false
  end.

(** The enumeration the design document describes for the camera estimate:
    every unordered pair of distinct matches once, [it2] starting right after
    [it1]. *)
Fixpoint unordered_pairs_ratios (sqrt : Q -> Q) (kptsPrev kptsCurr : list KeyPoint)
    (matches : list DMatch) (ratios : list Q) : result (list Q) :=
  match matches with
  | [] => Ok ratios
  | it1 :: rest =>
      kpOuterCurr ← vec_at kptsCurr (trainIdx it1);
      kpOuterPrev ← vec_at kptsPrev (queryIdx it1);
      ratios' ← inner_loop sqrt kptsPrev kptsCurr kpOuterCurr kpOuterPrev
                  rest ratios;
      unordered_pairs_ratios sqrt kptsPrev kptsCurr rest ratios'
  end.

(** The ratio, if any, that one pass of the inner loop body records for the
    pair ([it1], [it2]). *)
Definition pair_ratio (sqrt : Q -> Q) (kptsPrev kptsCurr : list KeyPoint)
    (it1 it2 : DMatch) : list Q :=
  match kptsCurr !! Z.to_nat (trainIdx it1), kptsPrev !! Z.to_nat (queryIdx it1),
        kptsCurr !! Z.to_nat (trainIdx it2), kptsPrev !! Z.to_nat (queryIdx it2) with
  | Some oc, Some op, Some ic, Some ip =>
      let distCurr := norm_diff sqrt (pt oc) (pt ic) in
      let distPrev := norm_diff sqrt (pt op) (pt ip) in
      if Qltb epsilon distPrev && Qle_bool minDist distCurr
      then [(distCurr / distPrev)%Q] else []
  | _, _, _, _ => []
  end.

(** [point_count[i][j]], when the matrix has that cell. *)
Definition cell (counts : list (list Z)) (i j : nat) : option Z :=
  match counts !! i with
  | Some row => row !! j
  | None => None
  end.

(** The vote the design document describes for the box matcher: the boxes of
    the current frame are scanned up to the current frame's own count. *)
Definition count_match_per_frame (prevFrame currFrame : DataFrame)
    (counts : list (list Z)) (m : DMatch) : result (list (list Z)) :=
  query ← vec_index (keypoints prevFrame) (queryIdx m);
  queryPt ← int_Point query;
  train ← vec_index (keypoints currFrame) (trainIdx m);
  trainPt ← int_Point train;
  queryId ← scan_boxes (boundingBoxes prevFrame) queryPt 0
              (length (boundingBoxes prevFrame));
  trainId ← scan_boxes (boundingBoxes currFrame) trainPt 0
              (length (boundingBoxes currFrame));
  Ok (if bool_decide (queryId ≠ []) && bool_decide (trainId ≠ [])
      then add_votes queryId trainId counts
      else counts).

Fixpoint count_matches_per_frame (prevFrame currFrame : DataFrame)
    (counts : list (list Z)) (matches : list DMatch) : result (list (list Z)) :=
  match matches with
  | [] => Ok counts
  | m :: rest =>
      counts' ← count_match_per_frame prevFrame currFrame counts m;
      count_matches_per_frame prevFrame currFrame counts' rest
  end.

(** The matcher with that vote. *)
Definition matchBoundingBoxes_per_frame (stack : nat -> Z) (matches : list DMatch)
    (bbBestMatches : gmap Z Z) (prevFrame currFrame : DataFrame)
  : result (gmap Z Z) :=
  counts0 ← point_count_init stack (length (boundingBoxes prevFrame))
              (length (boundingBoxes currFrame));
  counts ← count_matches_per_frame prevFrame currFrame counts0 matches;
  Ok (pick_best counts 0 bbBestMatches).

(** A matrix applied to a column vector, and the homogeneous image vector of a
    lidar point: the extrinsic transform first, then the rectification, then
    the projection. *)
Definition apply (m : Mat) (v : list Q) : list Q :=
  map (fun i => foldr (fun k acc => (entry m i k * nth k v 0 + acc)%Q) 0%Q
                  (seq 0 (cols m)))
    (seq 0 (rows m)).

Definition homogeneous (P R RT : Mat) (p : LidarPoint) : list Q :=
  apply P (apply R (apply RT [lidar_x p; lidar_y p; lidar_z p; 1%Q])).

(** The sizes the calibration matrices have. *)
Definition calibration_sizes (P R RT : Mat) : Prop :=
  rows P = 3%nat /\ cols P = 4%nat /\
  rows R = 4%nat /\ cols R = 4%nat /\
  rows RT = 4%nat /\ cols RT = 4%nat.

(** The integer [z] is the number [q] with its fraction dropped. *)
Definition integer_part (q : Q) (z : Z) : Prop :=
  (0 <= q -> inject_Z z <= q < inject_Z z + 1)%Q /\
  (q <= 0 -> inject_Z z - 1 < q <= inject_Z z)%Q.

Definition is_int (z : Z) : Prop := (INT_MIN <= z <= INT_MAX)%Z.

(** The numbers whose integer part is an [int]. *)
Definition fits_int (q : Q) : Prop :=
  (inject_Z INT_MIN - 1 < q < inject_Z INT_MAX + 1)%Q.

(** [pix] is the pixel of the lidar point [p]: the integer parts of [u / w]
    and [v / w], for [[u; v; w]] the homogeneous image vector of [p]. *)
Definition is_pixel (P R RT : Mat) (p : LidarPoint) (pix : Point) : Prop :=
  let u := nth 0 (homogeneous P R RT p) 0%Q in
  let v := nth 1 (homogeneous P R RT p) 0%Q in
  let w := nth 2 (homogeneous P R RT p) 0%Q in
  ~ (w == 0)%Q /\
  integer_part (u / w) (px pix) /\ integer_part (v / w) (py pix) /\
  is_int (px pix) /\ is_int (py pix).

(** The shrunk region in the design document's words: the region scaled by
    [1 - shrinkFactor] about its centre, so that an edge of length [w]
    becomes [w * (1 - shrinkFactor)] and starts [shrinkFactor * w / 2] after
    the edge it comes from.  The numbers as the machine has them: the
    product with the [float] factor is a [float], halved and added as
    [double]s; the new length is a [float] product. *)
Definition shrunk_start (shrinkFactor : Q) (x w : Z) : Q :=
  to_double (inject_Z x
             + to_double (to_float (shrinkFactor * to_float (inject_Z w)) / 2)).

Definition shrunk_length (shrinkFactor : Q) (w : Z) : Q :=
  to_float (to_float (inject_Z w) * to_float (1 - shrinkFactor)).

(** [r'] is the shrunk region of [r] in integer pixels. *)
Definition shrunk_region (shrinkFactor : Q) (r r' : Rect) : Prop :=
  integer_part (shrunk_start shrinkFactor (rx r) (rwidth r)) (rx r') /\
  integer_part (shrunk_start shrinkFactor (ry r) (rheight r)) (ry r') /\
  integer_part (shrunk_length shrinkFactor (rwidth r)) (rwidth r') /\
  integer_part (shrunk_length shrinkFactor (rheight r)) (rheight r') /\
  is_int (rx r') /\ is_int (ry r') /\ is_int (rwidth r') /\ is_int (rheight r').




(** The shrunk region as a function, where it is defined, and the positions
    of the boxes whose shrunk region contains a pixel. *)
Definition shrunk (shrinkFactor : Q) (r : Rect) : Rect :=
  mkRect (d2i (shrunk_start shrinkFactor (rx r) (rwidth r)))
         (d2i (shrunk_start shrinkFactor (ry r) (rheight r)))
         (d2i (shrunk_length shrinkFactor (rwidth r)))
         (d2i (shrunk_length shrinkFactor (rheight r))).

Definition region_converts (shrinkFactor : Q) (r : Rect) : bool :=
  in_int (rx (shrunk shrinkFactor r)) && in_int (ry (shrunk shrinkFactor r)) &&
  in_int (rwidth (shrunk shrinkFactor r)) && in_int (rheight (shrunk shrinkFactor r)).

Definition regions_convert (shrinkFactor : Q) (boxes : list BoundingBox) : bool :=
  forallb (fun b => region_converts shrinkFactor (roi b)) boxes.

Fixpoint enclosing (shrinkFactor : Q) (i : nat) (boxes : list BoundingBox)
    (p : Point) : list nat :=
  match boxes with
  | [] => []
  | b :: rest =>
      if contains (shrunk shrinkFactor (roi b)) p
      then i :: enclosing shrinkFactor (S i) rest p
      else enclosing shrinkFactor (S i) rest p
  end.

(** Whether processing point [p] appends it to the box at position [k]. *)
Definition attaches (shrinkFactor : Q) (P R RT : Mat) (boxes : list BoundingBox)
    (k : nat) (p : LidarPoint) : bool :=
  match project P R RT p with
  | Ok pix =>
      match enclosingBoxes shrinkFactor 0 boxes pix with
      | Ok found => bool_decide (found = [k])
      | _ => false
      end
  | _ => false
  end.

(** The votes of [matchBoundingBoxes], box by box. *)

(** Whether the previous (current) keypoint of a match is inside the box at
    a position of the previous (current) frame. *)
Definition keypoint_in_box (kpts : list KeyPoint) (boxes : list BoundingBox)
    (idx : Z) (i : nat) : bool :=
  match kpts !! Z.to_nat idx, boxes !! i with
  | Some kp, Some b =>
      match int_Point kp with
      | Ok p => contains (roi b) p
      | _ => false
      end
  | _, _ => false
  end.

Definition in_prev_box (prevFrame : DataFrame) (m : DMatch) (i : nat) : bool :=
  keypoint_in_box (keypoints prevFrame) (boundingBoxes prevFrame) (queryIdx m) i.

Definition in_curr_box (currFrame : DataFrame) (m : DMatch) (j : nat) : bool :=
  keypoint_in_box (keypoints currFrame) (boundingBoxes currFrame) (trainIdx m) j.

(** The number of matches that link two boxes. *)
Definition linking (prevFrame currFrame : DataFrame) (matches : list DMatch)
    (i j : nat) : Z :=
  Z.of_nat (length (List.filter
    (fun m => in_prev_box prevFrame m i && in_curr_box currFrame m j) matches)).

Definition box_contains (boxes : list BoundingBox) (p : Point) (i : nat) : bool :=
  match boxes !! i with
  | Some b => contains (roi b) p
  | None => false
  end.

Definition bump (b : bool) (v : Z) : Z := if b then Z.succ v else v.

(** Whether a match votes for the pair of boxes [(i, j)] when both scans stop
    after [n] boxes. *)
Definition votes_for (prevFrame currFrame : DataFrame) (n : nat) (m : DMatch)
    (i j : nat) : bool :=
  in_prev_box prevFrame m i && in_curr_box currFrame m j &&
  (i <? n)%nat && (j <? n)%nat.

Definition tally (prevFrame currFrame : DataFrame) (n : nat)
    (matches : list DMatch) (i j : nat) : Z :=
  Z.of_nat (length (List.filter
    (fun m => votes_for prevFrame currFrame n m i j) matches)).

Definition shape (rows_ cols_ : nat) (counts : list (list Z)) : Prop :=
  length counts = rows_ /\ Forall (fun row => length row = cols_) counts.

(** A keypoint that can be read at an index and converted to an integer
    point; a match of which both keypoints can. *)
Definition keypoint_converts (kpts : list KeyPoint) (idx : Z) : Prop :=
  valid_index kpts idx /\
  forall kp, kpts !! Z.to_nat idx = Some kp ->
    fits_int (fx (pt kp)) /\ fits_int (fy (pt kp)).

Definition keypoints_valid (prevFrame currFrame : DataFrame) (m : DMatch) : Prop :=
  keypoint_converts (keypoints prevFrame) (queryIdx m) /\
  keypoint_converts (keypoints currFrame) (trainIdx m).

(** What [point_count[i][j]] holds before the first vote. *)
Definition initial_cell (stack : nat -> Z) (i j : nat) : Z :=
  if (i =? 0)%nat && negb (j =? 0)%nat then stack j else 0%Z.

(** The lidar points of all boxes together. *)

(** The number of lidar points the boxes hold. *)
Definition total_lidarPoints (boxes : list BoundingBox) : nat :=
  foldr (fun b n => (length (lidarPoints b) + n)%nat) 0%nat boxes.

(** Whether processing a point appends it to some box. *)
Definition attached_somewhere (shrinkFactor : Q) (P R RT : Mat)
    (boxes : list BoundingBox) (p : LidarPoint) : bool :=
  match project P R RT p with
  | Ok pix =>
      match enclosingBoxes shrinkFactor 0 boxes pix with
      | Ok found => bool_decide (length found = 1%nat)
      | _ => false
      end
  | _ => false
  end.

(** The rectangle of a top view encloses a point. *)
Definition encloses (st : TopView) (c : Point) : Prop :=
  (left st <= px c <= right st)%Z /\ (top st <= py c <= bottom st)%Z.


(** Where a lidar point goes in the top view, before the conversion to
    [int]: the world's [x] runs up the image from its bottom edge, the
    world's [y] runs to the left from the middle column. *)
Definition topview_y (worldSize imageSize : Size) (p : LidarPoint) : Q :=
  (- lidar_x p * inject_Z (height imageSize) / inject_Z (height worldSize)
   + inject_Z (height imageSize))%Q.

Definition topview_x (worldSize imageSize : Size) (p : LidarPoint) : Q :=
  (- lidar_y p * inject_Z (width imageSize) / inject_Z (width worldSize)
   + inject_Z (Z.quot (width imageSize) 2))%Q.

(** A point that can be plotted: both quotients are finite and both
    coordinates have an integer part that is an [int]. *)
Definition plots (worldSize imageSize : Size) (p : LidarPoint) : Prop :=
  height worldSize <> 0%Z /\ width worldSize <> 0%Z /\
  fits_int (topview_y worldSize imageSize p) /\
  fits_int (topview_x worldSize imageSize p).
(** ** Inputs of the worked examples *)

(** A square root that is exact on the squares of rationals, which is all the
    examples take roots of. *)
Definition Qsqrt (q : Q) : Q := Z.sqrt (Qnum q) # Pos.sqrt (Qden q).

Definition keypoint (x y : Q) : KeyPoint := mkKeyPoint (mkPoint2f x y).

Definition empty_box (x y width height : Z) : BoundingBox :=
  mkBoundingBox 0 (mkRect x y width height) [] [].

(** Calibration: focal length 700, principal point (600, 180), no
    rectification, the camera looking along the lidar's [x] axis. *)
Definition P_example : Mat :=
  mkMat 3 4 [700; 0; 600; 0;
             0; 700; 180; 0;
             0; 0; 1; 0]%Q.

Definition R_example : Mat :=
  mkMat 4 4 [1; 0; 0; 0;
             0; 1; 0; 0;
             0; 0; 1; 0;
             0; 0; 0; 1]%Q.

Definition RT_example : Mat :=
  mkMat 4 4 [0; -1; 0; 0;
             0; 0; -1; 0;
             1; 0; 0; 0;
             0; 0; 0; 1]%Q.

(** The shrink factor the project passes, [0.1f]: the [float] nearest to
    one tenth. *)
Definition shrink_tenth : Q := 13421773 # 134217728.

(** Two overlapping boxes, whose shrunk regions at [0.1f] are
    [510 <= x < 690] and [407 <= x < 542] (both [110 <= y < 290]), and points
    whose pixels are [(600, 180)], in the first shrunk region only;
    [(530, 180)], in both; [(460, 180)], in the second only; [(250, 180)], in
    neither; [(695, 180)], in the first box but outside its shrunk region;
    [(689, 180)], in the last column of the first shrunk region. *)
Definition boxes_example : list BoundingBox :=
  [empty_box 500 100 200 200; empty_box 400 100 150 200].

Definition points_example : list LidarPoint :=
  [mkLidarPoint 10 0 0 0; mkLidarPoint 10 1 0 0; mkLidarPoint 10 2 0 0;
   mkLidarPoint 10 5 0 0; mkLidarPoint 700 (-95) 0 0; mkLidarPoint 700 (-89) 0 0].

(** The boxes after these points. *)
Definition boxes_clustered_example : list BoundingBox :=
  [mkBoundingBox 0 (mkRect 500 100 200 200)
     [mkLidarPoint 10 0 0 0; mkLidarPoint 700 (-89) 0 0] [];
   mkBoundingBox 0 (mkRect 400 100 150 200) [mkLidarPoint 10 2 0 0] []].



(** A point whose homogeneous scale is [2^-60] and whose first quotient is
    about [-8 * 10^20]. *)
Definition point_beyond_int : LidarPoint := mkLidarPoint (1 # 2 ^ 60) 1 0 0.


(** Keypoint association: a box that already holds a match; current
    keypoints of which the third is outside the box; two matches with the same
    negative distance. *)
Definition box_with_match : BoundingBox :=
  mkBoundingBox 0 (mkRect 0 0 100 100) [] [mkDMatch 7 7 3].

Definition kptsCurr_roi_example : list KeyPoint :=
  [keypoint 10 10; keypoint 20 20; keypoint 500 500].

Definition matches_roi_example : list DMatch :=
  [mkDMatch 0 0 1; mkDMatch 1 1 9; mkDMatch 2 2 1].

Definition matches_negative : list DMatch :=
  [mkDMatch 0 0 (-1); mkDMatch 1 1 (-1)].

(** Lidar: the in-lane points average 10 m, then 9 m. *)
Definition lidar_prev_example : list LidarPoint :=
  [mkLidarPoint 10 0 0 0; mkLidarPoint 11 (-2) 0 0; mkLidarPoint 9 2 1 0;
   mkLidarPoint 50 3 0 0].

Definition lidar_curr_example : list LidarPoint :=
  [mkLidarPoint 9 1 0 0; mkLidarPoint 40 (-5 # 2) 0 0].

(** Camera: four keypoints on a line in each frame, matched in order. *)
Definition kptsPrev_example : list KeyPoint :=
  [keypoint 0 0; keypoint 100 0; keypoint 200 0; keypoint 400 0].

Definition kptsCurr_example : list KeyPoint :=
  [keypoint 0 0; keypoint 110 0; keypoint 330 0; keypoint 480 0].

Definition matches_example : list DMatch :=
  [mkDMatch 0 0 1; mkDMatch 1 1 1; mkDMatch 2 2 1; mkDMatch 3 3 1].

(** Box matching: two boxes before, three now; the only match links the
    second previous box with the third current box. *)
Definition prevFrame_example : DataFrame :=
  mkDataFrame [keypoint 5 5; keypoint 25 5]
    [empty_box 0 0 10 10; empty_box 20 0 10 10].

Definition currFrame_example : DataFrame :=
  mkDataFrame [keypoint 5 5; keypoint 45 5]
    [empty_box 0 0 10 10; empty_box 20 0 10 10; empty_box 40 0 10 10].

Definition match_example : DMatch := mkDMatch 1 1 1.

(** A frame without boxes, and a stack that holds 5 everywhere. *)
Definition frame_without_boxes : DataFrame := mkDataFrame [keypoint 5 5] [].

Definition stack_of_fives : nat -> Z := fun _ => 5%Z.

(** Box matching with as many boxes in both frames: one match links the
    first boxes, two link the second boxes. *)
Definition prevFrame_two_boxes : DataFrame :=
  mkDataFrame [keypoint 5 5; keypoint 25 5; keypoint 26 6]
    [empty_box 0 0 10 10; empty_box 20 0 10 10].

Definition currFrame_two_boxes : DataFrame :=
  mkDataFrame [keypoint 7 7; keypoint 27 7; keypoint 28 8]
    [empty_box 0 0 10 10; empty_box 20 0 10 10].

Definition matches_two_boxes : list DMatch :=
  [mkDMatch 0 0 1; mkDMatch 1 1 1; mkDMatch 2 2 1].

(** A point in the plane of the camera, whose homogeneous scale is zero, and
    a projection matrix of three columns. *)
Definition point_in_camera_plane : LidarPoint := mkLidarPoint 0 1 1 0.

Definition P_three_columns : Mat :=
  mkMat 3 3 [700; 0; 600;
             0; 700; 180;
             0; 0; 1]%Q.

(** Three keypoints on a line whose distances double from one frame to the
    next. *)
Definition kptsPrev_doubling : list KeyPoint :=
  [keypoint 0 0; keypoint 100 0; keypoint 200 0].

Definition kptsCurr_doubling : list KeyPoint :=
  [keypoint 0 0; keypoint 200 0; keypoint 400 0].

Definition matches_doubling : list DMatch :=
  [mkDMatch 0 0 1; mkDMatch 1 1 1; mkDMatch 2 2 1].

(** Top view: a box of two lidar points, a world of 20 m by 20 m drawn on
    2000 by 2000 pixels. *)
Definition topview_boxes_example : list BoundingBox :=
  [mkBoundingBox 3 (mkRect 0 0 0 0)
     [mkLidarPoint 10 1 0 0; mkLidarPoint 12 (-1) 0 0] []].

Definition topview_drawing_example : BoxDrawing :=
  mkBoxDrawing
    (mkTopView 800 900 1000 1100 10 (-1) 1 [mkPoint 900 1000; mkPoint 1100 800])
    3 2 10 2.

Definition topview_markers_example : list Z :=
  [2000; 1800; 1600; 1400; 1200; 1000; 800; 600; 400; 200]%Z.

(** * Properties *)

(** ** Order statistics *)

Section OrderStatistics.
Local Open Scope Q_scope.

Lemma count_app f l1 l2 : count f (l1 ++ l2) = (count f l1 + count f l2)%nat.
Proof. unfold count. now rewrite List.filter_app, length_app. Qed.

Lemma count_perm f l1 l2 : l1 ≡ₚ l2 -> count f l1 = count f l2.
Proof.
  unfold count.
  induction 1 as [|x l1 l2 _ IH|x y l|l1 l2 l3 _ IH1 _ IH2]; simpl.
  - reflexivity.
  - destruct (f x); simpl; congruence.
  - destruct (f x), (f y); reflexivity.
  - congruence.
Qed.

Lemma count_none f l : Forall (fun y => f y = false) l -> count f l = 0%nat.
Proof.
  unfold count. induction 1 as [|y l Hy _ IH]; simpl; [reflexivity|].
  now rewrite Hy.
Qed.

Lemma count_all f l : Forall (fun y => f y = true) l -> count f l = length l.
Proof.
  unfold count. induction 1 as [|y l Hy _ IH]; simpl; [reflexivity|].
  rewrite Hy. simpl. now rewrite IH.
Qed.

Lemma count_le_length f l : (count f l <= length l)%nat.
Proof.
  unfold count. induction l as [|y l IH]; simpl; [lia|].
  destruct (f y); simpl; lia.
Qed.

Lemma Qltb_true a b : Qltb a b = true <-> a < b.
Proof.
  unfold Qltb. rewrite negb_true_iff, <- not_true_iff_false, Qle_bool_iff.
  split; [apply Qnot_le_lt | apply Qlt_not_le].
Qed.

Lemma Qltb_false a b : Qltb a b = false <-> b <= a.
Proof.
  unfold Qltb. rewrite negb_false_iff. apply Qle_bool_iff.
Qed.

Lemma count_split f (n : nat) l :
  count f l = (count f (take n l) + count f (drop n l))%nat.
Proof. now rewrite <- count_app, take_drop. Qed.

Lemma nth_take_lt (n i : nat) (l : list Q) :
  (i < n)%nat -> nth i (take n l) 0 = nth i l 0.
Proof.
  intros Hi. rewrite nth_firstn.
  now replace (i <? n)%nat with true by (symmetry; apply Nat.ltb_lt; lia).
Qed.

(** In any arrangement where nothing before position [k] exceeds the element
    there and nothing after it is smaller, that element is the one a sort
    puts at [k]. *)
Lemma pivot_is_order_statistic (l s : list Q) (k : nat) :
  l ≡ₚ s -> ascending s -> (k < length l)%nat ->
  (forall i, (i < length l)%nat ->
     ((i <= k)%nat -> nth i l 0 <= nth k l 0) /\
     ((k <= i)%nat -> nth k l 0 <= nth i l 0)) ->
  nth k l 0 == nth k s 0.
Proof.
  intros Hp Hs Hk Hpiv.
  assert (Hlen : length s = length l) by (symmetry; now apply Permutation_length).
  set (x := nth k l 0) in *.
  apply Qle_antisym; apply Qnot_lt_le; intros Hlt.
  - (* at most [k] elements of [l] are below [x], at least [k + 1] of [s] *)
    assert (Hl : (count (fun y => Qltb y x) l <= k)%nat).
    { rewrite (count_split _ k l), (count_none _ (drop k l)).
      - pose proof (count_le_length (fun y => Qltb y x) (take k l)) as Hc.
        rewrite length_take in Hc. lia.
      - apply (Forall_nth _ 0). intros i Hi. rewrite length_drop in Hi.
        rewrite nth_skipn. apply Qltb_false.
        apply (Hpiv (k + i)%nat); lia. }
    assert (Hs' : (S k <= count (fun y => Qltb y x) s)%nat).
    { rewrite (count_split _ (S k) s), (count_all _ (take (S k) s)).
      - rewrite length_take. lia.
      - apply (Forall_nth _ 0). intros i Hi. rewrite length_take in Hi.
        rewrite nth_take_lt by lia.
        apply Qltb_true. eapply Qle_lt_trans; [|exact Hlt].
        apply Hs; lia. }
    rewrite (count_perm _ _ _ Hp) in Hl. lia.
  - (* at most [length l - k - 1] elements of [l] are above [x], at least
       [length l - k] of [s] *)
    assert (Hl : (count (fun y => Qltb x y) l <= length l - S k)%nat).
    { rewrite (count_split _ (S k) l), (count_none _ (take (S k) l)).
      - pose proof (count_le_length (fun y => Qltb x y) (drop (S k) l)) as Hc.
        rewrite length_drop in Hc. lia.
      - apply (Forall_nth _ 0). intros i Hi. rewrite length_take in Hi.
        rewrite nth_take_lt by lia.
        apply Qltb_false. apply (Hpiv i); lia. }
    assert (Hs' : (length l - k <= count (fun y => Qltb x y) s)%nat).
    { rewrite (count_split _ k s), (count_all _ (drop k s)).
      - rewrite length_drop. lia.
      - apply (Forall_nth _ 0). intros i Hi. rewrite length_drop in Hi.
        rewrite nth_skipn. apply Qltb_true.
        eapply Qlt_le_trans; [exact Hlt|]. apply Hs; lia. }
    rewrite (count_perm _ _ _ Hp) in Hl. lia.
Qed.

Lemma insert_asc_perm x l : insert_asc x l ≡ₚ x :: l.
Proof.
  induction l as [|y l IH]; simpl; [reflexivity|].
  destruct (Qle_bool x y); [reflexivity|].
  rewrite IH. apply Permutation_swap.
Qed.

Lemma sort_asc_perm l : sort_asc l ≡ₚ l.
Proof.
  induction l as [|x l IH]; simpl; [reflexivity|].
  now rewrite insert_asc_perm, IH.
Qed.

Lemma insert_asc_chain x l : chain l -> chain (insert_asc x l).
Proof.
  induction 1 as [|y|y z l Hyz Hc IH]; simpl.
  - constructor.
  - destruct (Qle_bool x y) eqn:E.
    + constructor; [now apply Qle_bool_iff | constructor].
    + constructor; [|constructor].
      apply Qlt_le_weak, Qltb_true. unfold Qltb. now rewrite E.
  - destruct (Qle_bool x y) eqn:E.
    + constructor; [now apply Qle_bool_iff | now constructor].
    + simpl in IH. destruct (Qle_bool x z) eqn:E'.
      * constructor; [|exact IH].
        apply Qlt_le_weak, Qltb_true. unfold Qltb. now rewrite E.
      * now constructor.
Qed.

Lemma chain_head_le x l : chain (x :: l) -> Forall (fun y => x <= y) l.
Proof.
  revert x. induction l as [|y l IH]; intros x Hc; [constructor|].
  inversion Hc as [| |? ? ? Hxy Hc']; subst.
  constructor; [exact Hxy|].
  eapply Forall_impl; [apply IH, Hc'|].
  intros z Hz. simpl in Hz. now apply Qle_trans with y.
Qed.

Lemma chain_tail x l : chain (x :: l) -> chain l.
Proof. inversion 1; subst; [constructor | assumption]. Qed.

Lemma chain_ascending l : chain l -> ascending l.
Proof.
  induction l as [|x l IH]; intros Hc i j Hij Hj; simpl in Hj; [lia|].
  destruct j as [|j].
  - assert (i = 0%nat) by lia. subst. apply Qle_refl.
  - destruct i as [|i]; simpl.
    + pose proof (chain_head_le _ _ Hc) as Hall.
      rewrite (Forall_nth _ 0) in Hall. apply Hall. lia.
    + apply IH; [now apply chain_tail in Hc | lia | lia].
Qed.

Lemma sort_asc_ascending l : ascending (sort_asc l).
Proof.
  apply chain_ascending.
  induction l as [|x l IH]; simpl; [constructor | now apply insert_asc_chain].
Qed.
End OrderStatistics.

Section Median.
Local Open Scope Q_scope.
Variable nth_element : nat -> list Q -> list Q.
Hypothesis nth_element_ok : nth_element_contract nth_element.

Lemma nth_element_selects (k : nat) (l : list Q) :
  (k < length l)%nat ->
  nth k (nth_element k l) 0 == nth k (sort_asc l) 0.
Proof.
  intros Hk. destruct (nth_element_ok k l Hk) as [Hp Hpiv].
  assert (Hlen : length (nth_element k l) = length l)
    by now apply Permutation_length.
  apply pivot_is_order_statistic.
  - now rewrite Hp, sort_asc_perm.
  - apply sort_asc_ascending.
  - lia.
  - intros i Hi. apply Hpiv. lia.
Qed.

Lemma sort_asc_proper (l1 l2 : list Q) (k : nat) :
  l1 ≡ₚ l2 -> (k < length l1)%nat ->
  nth k (sort_asc l1) 0 == nth k (sort_asc l2) 0.
Proof.
  intros Hp Hk.
  assert (Hlen : length (sort_asc l1) = length l1)
    by apply Permutation_length, sort_asc_perm.
  apply pivot_is_order_statistic.
  - now rewrite !sort_asc_perm.
  - apply sort_asc_ascending.
  - lia.
  - intros i Hi. split; intros Hik; apply sort_asc_ascending; lia.
Qed.

(** C7: on a non-empty sequence of odd length [n], [median] returns the
    element at index [n / 2] of the sequence sorted ascending; on one of even
    length, the average of the elements at indices [n / 2 - 1] and [n / 2];
    on the empty sequence it returns exactly [0]. *)
Theorem median_sorted_middle (l : list Q) :
  let n := length l in
  let s := sort_asc l in
  (l <> [] -> Nat.odd n = true ->
     fst (median nth_element l) == nth (n / 2) s 0) /\
  (l <> [] -> Nat.even n = true ->
     fst (median nth_element l) == (nth (n / 2 - 1) s 0 + nth (n / 2) s 0) / 2) /\
  fst (median nth_element []) = 0.
Proof.
  intros n s.
  assert (Hpos : l <> [] -> (0 < n)%nat).
  { intros Hl. subst n. destruct l; [congruence | simpl; lia]. }
  assert (Hhalf : (0 < n)%nat -> (n / 2 < n)%nat)
    by (intros; apply Nat.div_lt; lia).
  split; [|split]; [| |reflexivity].
  - intros Hl Hodd. specialize (Hpos Hl). unfold median. fold n.
    replace (n =? 0)%nat with false by (symmetry; apply Nat.eqb_neq; lia).
    replace (n mod 2 =? 0)%nat with false.
    + cbn [fst]. apply nth_element_selects. fold n. auto.
    + symmetry. apply Nat.eqb_neq. intros Hm.
      apply Nat.Div0.mod_divides in Hm. destruct Hm as [c Hc].
      rewrite Hc, Nat.odd_mul in Hodd. discriminate.
  - intros Hl Heven. specialize (Hpos Hl). unfold median. fold n.
    replace (n =? 0)%nat with false by (symmetry; apply Nat.eqb_neq; lia).
    replace (n mod 2 =? 0)%nat with true.
    + cbn [fst].
      destruct (nth_element_ok (n / 2)%nat l (Hhalf Hpos)) as [Hp _].
      assert (Hlen : length (nth_element (n / 2)%nat l) = n)
        by now apply Permutation_length.
      pose proof (nth_element_selects (n / 2)%nat l (Hhalf Hpos)) as E1.
      pose proof (nth_element_selects (n / 2 - 1)%nat
                    (nth_element (n / 2)%nat l) ltac:(lia)) as E2.
      pose proof (sort_asc_proper (nth_element (n / 2)%nat l) l
                    (n / 2 - 1)%nat Hp ltac:(lia)) as E3.
      rewrite E1, E2, E3.
      fold s. field.
    + symmetry. apply Nat.eqb_eq.
      apply Nat.even_spec in Heven. destruct Heven as [c Hc].
      rewrite Hc, Nat.mul_comm. apply Nat.Div0.mod_mul.
Qed.
End Median.

Lemma nth_element_by_sorting_ok : nth_element_contract nth_element_by_sorting.
Proof.
  intros k l Hk. unfold nth_element_by_sorting. split; [apply sort_asc_perm|].
  assert (Hlen : length (sort_asc l) = length l)
    by apply Permutation_length, sort_asc_perm.
  intros i Hi. split; intros Hik; apply sort_asc_ascending; lia.
Qed.

Lemma median_sorted_middle_witness :
  (fst (median nth_element_by_sorting [5; 1; 3]) == 3)%Q /\
  (fst (median nth_element_by_sorting [4; 1; 3; 2]) == 5 # 2)%Q.
Proof.
  split.
  - destruct (median_sorted_middle nth_element_by_sorting
                nth_element_by_sorting_ok [5; 1; 3]%Q) as [H _].
    rewrite H; [reflexivity | discriminate | reflexivity].
  - destruct (median_sorted_middle nth_element_by_sorting
                nth_element_by_sorting_ok [4; 1; 3; 2]%Q) as (_ & H & _).
    rewrite H; [reflexivity | discriminate | reflexivity].
Defined.

(** ** Finite and non-finite doubles *)

Lemma Qeq_bool_false (a b : Q) : ~ (a == b)%Q -> Qeq_bool a b = false.
Proof.
  intros H. destruct (Qeq_bool a b) eqn:E; [|reflexivity].
  now apply Qeq_bool_iff in E.
Qed.

Lemma length_pos_nonempty {A : Type} (l : list A) :
  (0 <? length l)%nat = true <-> l <> [].
Proof.
  destruct l; simpl; split; intros H; congruence || discriminate || reflexivity.
Qed.

Lemma vec_at_valid {A : Type} (v : list A) (i : Z) :
  valid_index v i -> exists a, vec_at v i = Ok a.
Proof.
  intros [H0 H1]. unfold vec_at.
  replace (i <? 0)%Z with false by (symmetry; apply Z.ltb_ge; lia).
  destruct (lookup_lt_is_Some_2 v (Z.to_nat i) ltac:(lia)) as [a Ha].
  rewrite Ha. now exists a.
Qed.

(** ** computeTTCLidar *)

Section LidarTTC.
Local Open Scope Q_scope.

Lemma lane_half_width (p : LidarPoint) :
  Qle_bool (Qabs (lidar_y p)) (laneWidth / 2) = Qle_bool (Qabs (lidar_y p)) 2.
Proof. apply Qleb_comp; reflexivity. Qed.

(** C6, with the worked example as the formula gives it: each frame is
    filtered to the points with [|y| <= 2]; an empty filtered set gives
    not-a-number; otherwise the result is
    [mean_curr * dT / (mean_prev - mean_curr)] with [dT = 1 / frameRate];
    means of 10 and 9 at a frame rate of 10 give 0.9. *)
Theorem computeTTCLidar_mean_formula
    (prev curr : list LidarPoint) (frameRate : Q) :
  let xp := mean (lane_x prev) in
  let xc := mean (lane_x curr) in
  lane_x prev
  = map lidar_x (List.filter (fun p => Qle_bool (Qabs (lidar_y p)) 2) prev) /\
  (lane_x prev = [] \/ lane_x curr = [] ->
     computeTTCLidar prev curr frameRate = NaN) /\
  (lane_x prev <> [] -> lane_x curr <> [] ->
     computeTTCLidar prev curr frameRate
     = fdiv (fmul (Fin xc) (fdiv (Fin 1) (Fin frameRate))) (Fin (xp - xc))) /\
  (lane_x prev <> [] -> lane_x curr <> [] -> ~ frameRate == 0 -> ~ xp == xc ->
     double_eq (computeTTCLidar prev curr frameRate)
       (Fin (xc * (1 / frameRate) / (xp - xc)))) /\
  (lane_x prev <> [] -> lane_x curr <> [] -> xp == 10 -> xc == 9 ->
     double_eq (computeTTCLidar prev curr 10) (Fin (9 # 10))).
Proof.
  intros xp xc.
  assert (Hgen : lane_x prev <> [] -> lane_x curr <> [] -> forall fr,
     computeTTCLidar prev curr fr
     = fdiv (fmul (Fin xc) (fdiv (Fin 1) (Fin fr))) (Fin (xp - xc))).
  { intros Hp Hc fr. unfold computeTTCLidar.
    apply length_pos_nonempty in Hp, Hc. now rewrite Hp, Hc. }
  split; [|split; [|split; [|split]]].
  - unfold lane_x. f_equal. apply List.filter_ext. intros p.
    apply lane_half_width.
  - intros [H|H]; unfold computeTTCLidar; rewrite H; simpl;
      [reflexivity | now rewrite andb_false_r].
  - intros Hp Hc. now apply Hgen.
  - intros Hp Hc Hfr Hne. rewrite (Hgen Hp Hc). simpl.
    rewrite (Qeq_bool_false frameRate 0 Hfr). simpl.
    rewrite (Qeq_bool_false (xp - xc) 0) by (intros E; apply Hne; lra).
    simpl. reflexivity.
  - intros Hp Hc Ep Ec. rewrite (Hgen Hp Hc). simpl.
    rewrite (Qeq_bool_false (xp - xc) 0) by lra.
    simpl. rewrite Ep, Ec. reflexivity.
Qed.

Lemma computeTTCLidar_mean_formula_witness :
  double_eq (computeTTCLidar lidar_prev_example lidar_curr_example 10)
    (Fin (9 # 10)).
Proof.
  apply (computeTTCLidar_mean_formula lidar_prev_example lidar_curr_example 10);
    [discriminate | discriminate | reflexivity | reflexivity].
Defined.

(** C6, the worked example as stated: the in-lane means are 10 and 9 and the
    frame rate is 10, and the result is not 9. *)
Lemma computeTTCLidar_example_is_not_9 :
  mean (lane_x lidar_prev_example) == 10 /\
  mean (lane_x lidar_curr_example) == 9 /\
  ~ double_eq (computeTTCLidar lidar_prev_example lidar_curr_example 10) (Fin 9).
Proof.
  split; [reflexivity|split; [reflexivity|]].
  vm_compute. discriminate.
Qed.
End LidarTTC.

(** ** Conversions to [int] and rounding *)

#[global] Instance d2i_proper : Proper (Qeq ==> eq) d2i.
Proof.
  intros a b E. unfold d2i.
  rewrite (Qleb_comp 0%Q 0%Q (Qeq_refl 0%Q) a b E).
  destruct (Qle_bool 0 b); [now apply Qfloor_comp | now apply Qceiling_comp].
Qed.

Lemma d2i_inject_Z (z : Z) : d2i (inject_Z z) = z.
Proof.
  unfold d2i. destruct (Qle_bool 0 (inject_Z z)); [apply Qfloor_Z | apply Qceiling_Z].
Qed.

Section Conversions.
Local Open Scope Q_scope.

Lemma Qlt_succ_Zle (a b : Z) : inject_Z a < inject_Z b + 1 -> (a <= b)%Z.
Proof.
  intros H. destruct (Z_le_gt_dec a b) as [|Hgt]; [assumption|exfalso].
  assert (Hle : (b + 1 <= a)%Z) by lia.
  rewrite Zle_Qle, inject_Z_plus in Hle.
  change (inject_Z 1) with 1 in Hle. lra.
Qed.

Lemma d2i_integer_part (q : Q) : integer_part q (d2i q).
Proof.
  unfold integer_part, d2i.
  pose proof (Qfloor_le q) as F1. pose proof (Qlt_floor q) as F2.
  pose proof (Qle_ceiling q) as C1. pose proof (Qceiling_lt q) as C2.
  rewrite inject_Z_plus in F2. unfold Z.sub in C2. rewrite inject_Z_plus in C2.
  change (inject_Z 1) with 1 in F2. change (inject_Z (- (1))) with (- (1)) in C2.
  destruct (Qle_bool 0 q) eqn:E.
  - apply Qle_bool_iff in E. split; [lra|]. intros H0.
    assert (E0 : q == 0) by lra.
    assert (Ef : Qfloor q = 0%Z) by (rewrite (Qfloor_comp _ _ E0); apply (Qfloor_Z 0)).
    rewrite Ef. change (inject_Z 0) with 0. lra.
  - assert (Hneg : q < 0).
    { apply Qnot_le_lt. intros H. apply Qle_bool_iff in H. congruence. }
    split; [lra|]. intros _. lra.
Qed.

Lemma integer_part_unique (q : Q) (z : Z) : integer_part q z -> z = d2i q.
Proof.
  intros [Hpos Hneg]. destruct (d2i_integer_part q) as [Dpos Dneg].
  destruct (Qlt_le_dec q 0) as [Hq|Hq].
  - specialize (Hneg ltac:(lra)). specialize (Dneg ltac:(lra)).
    assert (A : (z <= d2i q)%Z) by (apply Qlt_succ_Zle; lra).
    assert (B : (d2i q <= z)%Z) by (apply Qlt_succ_Zle; lra).
    lia.
  - specialize (Hpos Hq). specialize (Dpos Hq).
    assert (A : (z <= d2i q)%Z) by (apply Qlt_succ_Zle; lra).
    assert (B : (d2i q <= z)%Z) by (apply Qlt_succ_Zle; lra).
    lia.
Qed.

Lemma in_int_is_int (z : Z) : in_int z = true <-> is_int z.
Proof. unfold in_int, is_int. rewrite andb_true_iff, !Z.leb_le. tauto. Qed.

(** The integer part of a number is an [int] exactly when the number lies
    strictly between [INT_MIN - 1] and [INT_MAX + 1]. *)
Lemma fits_int_d2i (q : Q) : fits_int q <-> is_int (d2i q).
Proof.
  unfold fits_int, is_int. destruct (d2i_integer_part q) as [Dpos Dneg].
  assert (Hmin : inject_Z INT_MIN <= 0) by (vm_compute; discriminate).
  assert (Hmax : 0 <= inject_Z INT_MAX) by (vm_compute; discriminate).
  split.
  - intros [H1 H2]. destruct (Qlt_le_dec q 0) as [Hq|Hq].
    + specialize (Dneg ltac:(lra)). split; apply Qlt_succ_Zle; lra.
    + specialize (Dpos Hq). split; apply Qlt_succ_Zle; lra.
  - intros [H1 H2]. rewrite Zle_Qle in H1, H2.
    destruct (Qlt_le_dec q 0) as [Hq|Hq].
    + specialize (Dneg ltac:(lra)). lra.
    + specialize (Dpos Hq). lra.
Qed.

Lemma to_int_Ok (q : Q) (z : Z) :
  to_int q = Ok z <-> integer_part q z /\ is_int z.
Proof.
  unfold to_int. split.
  - destruct (in_int (d2i q)) eqn:E; [|discriminate]. intros [= <-].
    split; [apply d2i_integer_part | now apply in_int_is_int].
  - intros [Hp Hi]. apply integer_part_unique in Hp. subst z.
    apply in_int_is_int in Hi. now rewrite Hi.
Qed.

Lemma to_int_fits (q : Q) : fits_int q -> to_int q = Ok (d2i q).
Proof.
  intros H. apply to_int_Ok. split; [apply d2i_integer_part | now apply fits_int_d2i].
Qed.

Lemma to_int_undefined (q : Q) : ~ fits_int q -> to_int q = Undefined.
Proof.
  intros H. unfold to_int. destruct (in_int (d2i q)) eqn:E; [|reflexivity].
  exfalso. apply H, fits_int_d2i. now apply in_int_is_int.
Qed.

Lemma to_int_outcome (q : Q) : to_int q = Ok (d2i q) \/ to_int q = Undefined.
Proof. unfold to_int. destruct (in_int (d2i q)); auto. Qed.

Lemma to_int_inv (q : Q) (z : Z) : to_int q = Ok z -> z = d2i q /\ fits_int q.
Proof.
  intros H. apply to_int_Ok in H. destruct H as [Hp Hi].
  apply integer_part_unique in Hp. subst z. split; [reflexivity|].
  now apply fits_int_d2i.
Qed.

Lemma fits_int_dec (q : Q) : {fits_int q} + {~ fits_int q}.
Proof.
  destruct (in_int (d2i q)) eqn:E.
  - left. now apply fits_int_d2i, in_int_is_int.
  - right. intros H. apply fits_int_d2i, in_int_is_int in H. congruence.
Qed.

#[global] Instance to_int_proper : Proper (Qeq ==> eq) to_int.
Proof. intros a b E. unfold to_int. now rewrite (d2i_proper a b E). Qed.

#[global] Instance Qltb_proper : Proper (Qeq ==> Qeq ==> eq) Qltb.
Proof. intros a b E c d F. unfold Qltb. f_equal. now apply Qleb_comp. Qed.

#[global] Instance cvRound_proper : Proper (Qeq ==> eq) cvRound.
Proof.
  intros a b E. unfold cvRound. rewrite (Qfloor_comp a b E).
  assert (Ed : a - inject_Z (Qfloor b) == b - inject_Z (Qfloor b)) by now rewrite E.
  rewrite (Qltb_proper _ _ Ed _ _ (Qeq_refl (1 # 2))).
  rewrite (Qltb_proper _ _ (Qeq_refl (1 # 2)) _ _ Ed). reflexivity.
Qed.

Lemma cvRound_Z (z : Z) : cvRound (inject_Z z) = z.
Proof.
  unfold cvRound. rewrite Qfloor_Z.
  replace (Qltb (inject_Z z - inject_Z z) (1 # 2)) with true; [reflexivity|].
  symmetry. apply Qltb_true. lra.
Qed.

(** A rounded number is at most one half away. *)
Lemma cvRound_near (q : Q) : Qabs (inject_Z (cvRound q) - q) <= 1 # 2.
Proof.
  pose proof (Qfloor_le q) as Hlo. pose proof (Qlt_floor q) as Hhi.
  rewrite inject_Z_plus in Hhi. change (inject_Z 1) with 1 in Hhi.
  unfold cvRound. apply Qabs_Qle_condition.
  destruct (Qltb (q - inject_Z (Qfloor q)) (1 # 2)) eqn:E1.
  - apply Qltb_true in E1. lra.
  - apply Qltb_false in E1.
    destruct (Qltb (1 # 2) (q - inject_Z (Qfloor q))) eqn:E2.
    + rewrite inject_Z_plus. change (inject_Z 1) with 1. lra.
    + apply Qltb_false in E2. destruct (Z.even (Qfloor q)).
      * lra.
      * rewrite inject_Z_plus. change (inject_Z 1) with 1. lra.
Qed.

Lemma two_pow_pos (e : Z) : 0 < 2 ^ e.
Proof. apply Qpower_0_lt. reflexivity. Qed.

Lemma two_pow_Z (n : Z) : (0 <= n)%Z -> 2 ^ n == inject_Z (2 ^ n).
Proof. intros H. now rewrite Zpower_Qpower. Qed.

Lemma two_pow_succ (e : Z) : 2 ^ (e + 1) == 2 * 2 ^ e.
Proof. rewrite Qpower_plus by discriminate. rewrite Qpower_1_r. ring. Qed.

Lemma Qlog2_spec (q : Q) : 0 < q -> 2 ^ Qlog2 q <= q < 2 ^ (Qlog2 q + 1).
Proof.
  intros Hq. unfold Qlog2.
  destruct q as [n d]. cbn [Qnum Qden].
  assert (Hn : (0 < n)%Z) by (unfold Qlt in Hq; simpl in Hq; lia).
  destruct (Z.log2_spec n Hn) as [Hn1 Hn2].
  destruct (Z.log2_spec (Z.pos d) (Pos2Z.is_pos d)) as [Hd1 Hd2].
  pose proof (Z.log2_nonneg n) as Ha. pose proof (Z.log2_nonneg (Z.pos d)) as Hb.
  set (a := Z.log2 n) in *. set (b := Z.log2 (Z.pos d)) in *.
  assert (Eq : n # d == inject_Z n / inject_Z (Z.pos d)) by apply Qmake_Qdiv.
  assert (Hdpos : 0 < inject_Z (Z.pos d)) by (change 0 with (inject_Z 0); rewrite <- Zlt_Qlt; lia).
  assert (Ea : 2 ^ a == inject_Z (2 ^ a)) by now apply two_pow_Z.
  assert (Eb : 2 ^ b == inject_Z (2 ^ b)) by now apply two_pow_Z.
  assert (Ea1 : 2 ^ (a + 1) == inject_Z (2 ^ Z.succ a))
    by (rewrite two_pow_Z by lia; reflexivity).
  assert (Eb1 : 2 ^ (b + 1) == inject_Z (2 ^ Z.succ b))
    by (rewrite two_pow_Z by lia; reflexivity).
  assert (Hn1' : 2 ^ a <= inject_Z n) by (rewrite Ea, <- Zle_Qle; exact Hn1).
  assert (Hn2' : inject_Z n < 2 ^ (a + 1)) by (rewrite Ea1, <- Zlt_Qlt; exact Hn2).
  assert (Hd1' : 2 ^ b <= inject_Z (Z.pos d)) by (rewrite Eb, <- Zle_Qle; exact Hd1).
  assert (Hd2' : inject_Z (Z.pos d) < 2 ^ (b + 1)) by (rewrite Eb1, <- Zlt_Qlt; exact Hd2).
  pose proof (two_pow_pos a) as Pa. pose proof (two_pow_pos b) as Pb.
  pose proof (two_pow_pos (a - b)) as Pab.
  assert (Eab : 2 ^ (a - b) * 2 ^ b == 2 ^ a).
  { rewrite <- Qpower_plus by discriminate. now replace (a - b + b)%Z with a by lia. }
  assert (Hlow : 2 ^ (a - b - 1) <= n # d).
  { rewrite Eq. apply Qle_shift_div_l; [exact Hdpos|].
    assert (E1 : 2 ^ (a - b - 1) * 2 ^ (b + 1) == 2 ^ a).
    { rewrite <- Qpower_plus by discriminate. now replace (a - b - 1 + (b + 1))%Z with a by lia. }
    pose proof (two_pow_pos (a - b - 1)) as P1.
    apply Qle_trans with (2 ^ (a - b - 1) * 2 ^ (b + 1)); [|lra].
    apply Qmult_le_l; [exact P1 | lra]. }
  assert (Hhigh : n # d < 2 ^ (a - b + 1)).
  { rewrite Eq. apply Qlt_shift_div_r; [exact Hdpos|].
    assert (E1 : 2 ^ (a - b + 1) * 2 ^ b == 2 ^ (a + 1)).
    { rewrite <- Qpower_plus by discriminate. now replace (a - b + 1 + b)%Z with (a + 1)%Z by lia. }
    pose proof (two_pow_pos (a - b + 1)) as P1.
    apply Qlt_le_trans with (2 ^ (a - b + 1) * 2 ^ b); [lra|].
    apply Qmult_le_l; [exact P1 | lra]. }
  destruct (Qle_bool (2 ^ (a - b)) (n # d)) eqn:E.
  - apply Qle_bool_iff in E. split; [exact E | exact Hhigh].
  - split; [exact Hlow|].
    replace (a - b - 1 + 1)%Z with (a - b)%Z by lia.
    apply Qnot_le_lt. intros H. apply Qle_bool_iff in H. congruence.
Qed.

Lemma Qlog2_unique (q : Q) (l : Z) : 2 ^ l <= q < 2 ^ (l + 1) -> Qlog2 q = l.
Proof.
  intros [H1 H2].
  assert (Hq : 0 < q) by (pose proof (two_pow_pos l); lra).
  destruct (Qlog2_spec q Hq) as [S1 S2].
  assert (A : (l < Qlog2 q + 1)%Z).
  { apply (Qpower_lt_compat_l_inv 2); [lra | reflexivity]. }
  assert (B : (Qlog2 q < l + 1)%Z).
  { apply (Qpower_lt_compat_l_inv 2); [lra | reflexivity]. }
  lia.
Qed.

Lemma Qlog2_comp (a b : Q) : 0 < a -> a == b -> Qlog2 a = Qlog2 b.
Proof.
  intros Ha E. symmetry. apply Qlog2_unique.
  destruct (Qlog2_spec a Ha) as [H1 H2]. split.
  - now rewrite <- E.
  - now rewrite <- E.
Qed.

Lemma Qabs_pos (q : Q) : ~ q == 0 -> 0 < Qabs q.
Proof.
  intros H. destruct (Qlt_le_dec 0 (Qabs q)) as [|Hle]; [assumption|].
  exfalso. apply H. apply Qabs_Qle_condition in Hle. lra.
Qed.

#[global] Instance Qeq_bool_proper : Proper (Qeq ==> Qeq ==> eq) Qeq_bool.
Proof.
  intros a b E c d F. destruct (Qeq_bool b d) eqn:H.
  - apply Qeq_bool_iff. apply Qeq_bool_iff in H. now rewrite E, F.
  - apply Qeq_bool_neq in H. destruct (Qeq_bool a c) eqn:H'; [|reflexivity].
    apply Qeq_bool_iff in H'. exfalso. apply H. now rewrite <- E, <- F.
Qed.

#[global] Instance round_nearest_proper (prec emin : Z) :
  Proper (Qeq ==> Qeq) (round_nearest prec emin).
Proof.
  intros a b E. unfold round_nearest.
  rewrite (Qeq_bool_proper a b E 0 0 (Qeq_refl 0)).
  destruct (Qeq_bool b 0) eqn:Eb; [reflexivity|].
  assert (Hb : ~ b == 0) by now apply Qeq_bool_neq.
  assert (Ha : 0 < Qabs a) by (apply Qabs_pos; now rewrite E).
  rewrite (Qlog2_comp (Qabs a) (Qabs b) Ha) by now rewrite E.
  set (e := Z.max _ emin).
  assert (Eq : a / 2 ^ e == b / 2 ^ e) by now rewrite E.
  now rewrite (cvRound_proper _ _ Eq).
Qed.

Lemma round_nearest_zero (prec emin : Z) (q : Q) :
  q == 0 -> round_nearest prec emin q = 0.
Proof.
  intros H. unfold round_nearest. apply Qeq_bool_iff in H. now rewrite H.
Qed.

(** A number that is a whole multiple of its last place is not changed. *)
Lemma round_nearest_multiple (prec emin : Z) (q : Q) (k : Z) :
  let e := Z.max (Qlog2 (Qabs q) - (prec - 1)) emin in
  q == inject_Z k * 2 ^ e -> round_nearest prec emin q == q.
Proof.
  intros e H. unfold round_nearest. destruct (Qeq_bool q 0) eqn:E0.
  - apply Qeq_bool_iff in E0. now rewrite E0.
  - fold e. pose proof (two_pow_pos e) as Pe.
    assert (Eq : q / 2 ^ e == inject_Z k) by (rewrite H; field; lra).
    rewrite (cvRound_proper _ _ Eq), cvRound_Z. now rewrite H.
Qed.

Lemma Qlog2_Z (n : Z) : (0 < n)%Z -> Qlog2 (inject_Z n) = Z.log2 n.
Proof.
  intros Hn. apply Qlog2_unique.
  destruct (Z.log2_spec n Hn) as [H1 H2]. pose proof (Z.log2_nonneg n).
  rewrite !two_pow_Z by lia. split.
  - now rewrite <- Zle_Qle.
  - rewrite <- Zlt_Qlt. exact H2.
Qed.

(** Integers of at most [prec] bits, and [2 ^ prec] itself, are
    floating-point numbers. *)
Lemma round_nearest_Z (prec emin : Z) (z : Z) :
  (0 < prec)%Z -> (emin <= 0)%Z -> (Z.abs z <= 2 ^ prec)%Z ->
  round_nearest prec emin (inject_Z z) == inject_Z z.
Proof.
  intros Hp He Hz.
  destruct (Z.eq_dec z 0%Z) as [->|Hne]; [reflexivity|].
  assert (Eabs : Qabs (inject_Z z) = inject_Z (Z.abs z)) by reflexivity.
  assert (Hpos : (0 < Z.abs z)%Z) by lia.
  pose proof (Z.log2_nonneg (Z.abs z)) as Hl0.
  assert (Hl : (Z.log2 (Z.abs z) <= prec)%Z).
  { rewrite <- (Z.log2_pow2 prec) by lia. now apply Z.log2_le_mono. }
  set (e := Z.max (Qlog2 (Qabs (inject_Z z)) - (prec - 1)) emin).
  assert (Ee : e = Z.max (Z.log2 (Z.abs z) - (prec - 1)) emin)
    by (subst e; now rewrite Eabs, Qlog2_Z).
  destruct (Z_le_gt_dec e 0%Z) as [Hle|Hgt].
  - apply (round_nearest_multiple prec emin _ (z * 2 ^ (- e))). fold e.
    rewrite inject_Z_mult, <- two_pow_Z by lia.
    rewrite <- Qmult_assoc, <- Qpower_plus by discriminate.
    replace (- e + e)%Z with 0%Z by lia. rewrite Qpower_0_r. ring.
  - assert (El : Z.log2 (Z.abs z) = prec) by lia.
    assert (E1 : e = 1%Z) by lia.
    destruct (Z.log2_spec (Z.abs z) Hpos) as [Hlo _]. rewrite El in Hlo.
    assert (Ez : Z.abs z = (2 ^ prec)%Z) by lia.
    apply (round_nearest_multiple prec emin _ (z / 2)). fold e. rewrite E1.
    rewrite Qpower_1_r.
    assert (Hdiv : (z = z / 2 * 2)%Z).
    { assert (H2 : (2 ^ prec = 2 * 2 ^ (prec - 1))%Z).
      { rewrite <- Z.pow_succ_r by lia. f_equal. lia. }
      assert (Hz2 : (z = 2 * 2 ^ (prec - 1) \/ z = - (2 * 2 ^ (prec - 1)))%Z) by lia.
      destruct Hz2 as [->| ->].
      - rewrite Z.mul_comm, Z.div_mul by lia. lia.
      - replace (- (2 * 2 ^ (prec - 1)))%Z with ((- 2 ^ (prec - 1)) * 2)%Z by lia.
        rewrite Z.div_mul by lia. lia. }
    rewrite Hdiv at 1. rewrite inject_Z_mult. reflexivity.
Qed.
End Conversions.

(** The [float] and the [double] nearest to one tenth, a tie between two
    [float]s, and a number below the smallest [float]. *)
Example to_float_tenth : (to_float (1 # 10) == 13421773 # 134217728)%Q.
Proof. vm_compute. reflexivity. Qed.

Example to_double_tenth :
  (to_double (1 # 10) == 3602879701896397 # 36028797018963968)%Q.
Proof. vm_compute. reflexivity. Qed.

Example to_float_tie :
  (to_float 16777217 == 16777216)%Q /\ (to_float 16777219 == 16777220)%Q.
Proof. split; vm_compute; reflexivity. Qed.

Example to_float_underflow : (to_float (1 # 2 ^ 151) == 0)%Q.
Proof. vm_compute. reflexivity. Qed.
(** ** computeTTCCamera *)

Section CameraTTC.
Local Open Scope Q_scope.
Variable nth_element : nat -> list Q -> list Q.
Variable sqrt : Q -> Q.

(** From a finite frame rate and a finite median the formula gives a finite
    or an infinite value, never not-a-number. *)
Lemma camera_formula_not_nan (frameRate m : Q) :
  fdiv (fneg (fdiv (Fin 1) (Fin frameRate))) (Fin (1 - m)) <> NaN.
Proof.
  simpl. destruct (Qeq_bool frameRate 0) eqn:Efr; simpl.
  - discriminate.
  - destruct (Qeq_bool (1 - m) 0); [|discriminate].
    rewrite Qeq_bool_false; [discriminate|].
    intros E. apply Qeq_bool_neq in Efr. apply Efr.
    assert (H : 1 / frameRate == 0) by lra.
    assert (H1 : frameRate * (1 / frameRate) == 1) by (field; exact Efr).
    rewrite H in H1. lra.
Qed.

Lemma inner_loop_defined kptsPrev kptsCurr oc op inner acc :
  Forall (indices_valid kptsPrev kptsCurr) inner ->
  exists ratios, inner_loop sqrt kptsPrev kptsCurr oc op inner acc = Ok ratios.
Proof.
  intros H. revert acc.
  induction H as [|m inner [Hq Ht] _ IH]; intros acc; simpl; [eauto|].
  destruct (vec_at_valid _ _ Ht) as [a ->].
  destruct (vec_at_valid _ _ Hq) as [b ->]. simpl. apply IH.
Qed.

Lemma outer_loop_defined kptsPrev kptsCurr all outer acc :
  Forall (indices_valid kptsPrev kptsCurr) all ->
  Forall (indices_valid kptsPrev kptsCurr) outer ->
  exists ratios, outer_loop sqrt kptsPrev kptsCurr all outer acc = Ok ratios.
Proof.
  intros Hall H. revert acc.
  induction H as [|m outer [Hq Ht] _ IH]; intros acc; simpl; [eauto|].
  destruct (vec_at_valid _ _ Ht) as [a ->].
  destruct (vec_at_valid _ _ Hq) as [b ->]. simpl.
  destruct (inner_loop_defined kptsPrev kptsCurr a b (drop 1 all) acc)
    as [r ->]; [now apply Forall_drop|].
  simpl. apply IH.
Qed.

Lemma Forall_removelast {A : Type} (P : A -> Prop) (l : list A) :
  Forall P l -> Forall P (removelast l).
Proof.
  induction 1 as [|x l Hx Hl IH]; simpl; [constructor|].
  destruct l; [constructor | now constructor].
Qed.

Lemma distRatios_defined kptsPrev kptsCurr matches :
  Forall (indices_valid kptsPrev kptsCurr) matches ->
  exists ratios, distRatios sqrt kptsPrev kptsCurr matches = Ok ratios.
Proof.
  intros H. apply outer_loop_defined; [exact H | now apply Forall_removelast].
Qed.

Lemma even_mod2 (n : nat) : Nat.even n = (n mod 2 =? 0)%nat.
Proof.
  destruct (Nat.even n) eqn:E; symmetry.
  - apply Nat.eqb_eq. apply Nat.even_spec in E. destruct E as [c ->].
    rewrite Nat.mul_comm. apply Nat.Div0.mod_mul.
  - apply Nat.eqb_neq. intros Hm. apply Nat.Div0.mod_divides in Hm.
    destruct Hm as [c Hc]. rewrite Hc, Nat.even_mul in E. discriminate.
Qed.

(** With a [std::nth_element] that meets its contract, the value of [median]
    is the middle of the sorted ratios. *)
Lemma median_sorted_value (l : list Q) :
  nth_element_contract nth_element ->
  l <> [] -> fst (median nth_element l) == sorted_middle l.
Proof.
  intros nth_element_ok Hl. unfold sorted_middle.
  set (n := length l). set (s := sort_asc l).
  assert (Hpos : (0 < n)%nat) by (subst n; destruct l; [congruence | simpl; lia]).
  assert (Hhalf : (n / 2 < n)%nat) by (apply Nat.div_lt; lia).
  rewrite even_mod2. unfold median. fold n.
  replace (n =? 0)%nat with false by (symmetry; apply Nat.eqb_neq; lia).
  destruct (n mod 2 =? 0)%nat; cbn [fst].
  - destruct (nth_element_ok (n / 2)%nat l Hhalf) as [Hp _].
    assert (Hlen : length (nth_element (n / 2)%nat l) = n)
      by now apply Permutation_length.
    pose proof (nth_element_selects nth_element nth_element_ok (n / 2)%nat l Hhalf)
      as E1.
    pose proof (nth_element_selects nth_element nth_element_ok (n / 2 - 1)%nat
                  (nth_element (n / 2)%nat l) ltac:(lia)) as E2.
    pose proof (sort_asc_proper (nth_element (n / 2)%nat l) l
                  (n / 2 - 1)%nat Hp ltac:(lia)) as E3.
    rewrite E1, E2, E3. fold s. field.
  - now apply nth_element_selects.
Qed.

(** C5: the result is not-a-number exactly when the matches are empty or no
    ratio was recorded.  Otherwise, with [m] the middle of the sorted ratios
    and [dT = 1 / frameRate], it is the number [- dT / (1 - m)]; where that
    quotient has no finite value the result is an infinity: for [m = 1] the
    negative one at a positive frame rate and the positive one at a negative
    frame rate, at a frame rate of zero the negative one unless [m] is above
    1.  With every match index in range the call does return a result. *)
Theorem computeTTCCamera_nan_or_formula
    (kptsPrev kptsCurr : list KeyPoint) (matches : list DMatch) (frameRate : Q) :
  nth_element_contract nth_element ->
  (computeTTCCamera nth_element sqrt kptsPrev kptsCurr matches frameRate = Ok NaN
   <-> matches = [] \/ distRatios sqrt kptsPrev kptsCurr matches = Ok []) /\
  (forall ratios, matches <> [] ->
     distRatios sqrt kptsPrev kptsCurr matches = Ok ratios -> ratios <> [] ->
     let m := sorted_middle ratios in
     (~ frameRate == 0 -> ~ m == 1 ->
        exists t,
          computeTTCCamera nth_element sqrt kptsPrev kptsCurr matches frameRate
          = Ok (Fin t) /\
          t == - (1 / frameRate) / (1 - m)) /\
     (~ frameRate == 0 -> m == 1 ->
        computeTTCCamera nth_element sqrt kptsPrev kptsCurr matches frameRate
        = Ok (Inf (Qltb 0 frameRate))) /\
     (frameRate == 0 ->
        computeTTCCamera nth_element sqrt kptsPrev kptsCurr matches frameRate
        = Ok (Inf (Qle_bool m 1)))) /\
  (Forall (indices_valid kptsPrev kptsCurr) matches ->
     exists ttc,
       computeTTCCamera nth_element sqrt kptsPrev kptsCurr matches frameRate
       = Ok ttc).
Proof.
  intros nth_element_ok. split; [|split].
  - unfold computeTTCCamera. destruct matches as [|m ms] eqn:Em.
    + simpl. tauto.
    + rewrite <- Em.
      replace (length matches =? 0)%nat with false by now subst.
      destruct (distRatios sqrt kptsPrev kptsCurr matches)
        as [[|r rs]|e|] eqn:Er; simpl.
      * split; [now right | reflexivity].
      * split; [|intros [H|H]; [congruence | discriminate]].
        intros [= H]. now apply camera_formula_not_nan in H.
      * split; [discriminate | intros [H|H]; [congruence | discriminate]].
      * split; [discriminate | intros [H|H]; [congruence | discriminate]].
  - intros ratios Hm Hr Hne m.
    pose proof (median_sorted_value ratios nth_element_ok Hne) as Emed. fold m in Emed.
    assert (Hrun : computeTTCCamera nth_element sqrt kptsPrev kptsCurr matches frameRate
                   = Ok (fdiv (fneg (fdiv (Fin 1) (Fin frameRate)))
                           (Fin (1 - fst (median nth_element ratios))))).
    { unfold computeTTCCamera. destruct matches; [congruence|]. rewrite Hr. simpl.
      destruct ratios; [congruence | reflexivity]. }
    rewrite Hrun. clear Hrun. cbn [fdiv fneg].
    split; [|split].
    + intros Hfr Hm1. rewrite (Qeq_bool_false frameRate 0 Hfr). cbn [fneg fdiv].
      rewrite Qeq_bool_false by (rewrite Emed; intros E; apply Hm1; lra).
      eexists. split; [reflexivity|]. now rewrite Emed.
    + intros Hfr Hm1. rewrite (Qeq_bool_false frameRate 0 Hfr). cbn [fneg fdiv].
      replace (Qeq_bool (1 - fst (median nth_element ratios)) 0) with true
        by (symmetry; apply Qeq_bool_iff; rewrite Emed; lra).
      assert (Hinv : frameRate * (1 / frameRate) == 1) by (field; exact Hfr).
      rewrite Qeq_bool_false by (intros E; assert (1 / frameRate == 0) by lra; nra).
      do 2 f_equal.
      destruct (Qltb 0 frameRate) eqn:E.
      * apply Qltb_true in E. apply Qltb_true.
        assert (0 < 1 / frameRate); [|lra].
        apply Qlt_shift_div_l; [exact E | lra].
      * apply Qltb_false in E. apply Qltb_false.
        assert (Hneg : frameRate < 0) by (destruct (Qlt_le_dec frameRate 0); [assumption | exfalso; apply Hfr; lra]).
        assert (1 / frameRate <= 0); [|lra].
        destruct (Qlt_le_dec 0 (1 / frameRate)) as [Hp|]; [|assumption].
        exfalso. nra.
    + intros Hfr.
      replace (Qeq_bool frameRate 0) with true by (symmetry; now apply Qeq_bool_iff).
      cbn [fneg fdiv]. change (Qeq_bool 1 0) with false.
      change (Qltb 1 0) with false. cbn [fneg fdiv negb xorb].
      do 2 f_equal. unfold Qltb.
      destruct (Qle_bool 0 (1 - fst (median nth_element ratios))) eqn:E';
        destruct (Qle_bool m 1) eqn:E; try reflexivity; exfalso.
      * apply Qle_bool_iff in E'. rewrite Emed in E'.
        assert (Hle : m <= 1) by lra. apply Qle_bool_iff in Hle. congruence.
      * apply Qle_bool_iff in E.
        assert (Hle : 0 <= 1 - fst (median nth_element ratios)) by (rewrite Emed; lra).
        apply Qle_bool_iff in Hle. congruence.
  - intros Hv. unfold computeTTCCamera.
    destruct (distRatios_defined _ _ _ Hv) as [ratios ->].
    destruct (length matches =? 0)%nat; [eauto|]. simpl.
    destruct (length ratios =? 0)%nat; eauto.
Qed.
End CameraTTC.

Lemma computeTTCCamera_nan_or_formula_witness :
  exists t,
    computeTTCCamera nth_element_by_sorting Qsqrt kptsPrev_example kptsCurr_example
      matches_example 10 = Ok (Fin t) /\
    (t == 3 # 7)%Q.
Proof.
  destruct (computeTTCCamera_nan_or_formula nth_element_by_sorting Qsqrt
              kptsPrev_example kptsCurr_example matches_example 10
              nth_element_by_sorting_ok) as (_ & H & _).
  destruct (H [110 # 100; 330 # 200; 480 # 400; 220 # 100;
               370 # 300; 220 # 100; 150 # 200]%Q)
    as (Hfin & _); [discriminate | reflexivity | discriminate |].
  destruct Hfin as (t & Ht & Et); [discriminate | discriminate |].
  exists t. split; [exact Ht|]. rewrite Et. reflexivity.
Defined.

Section Enumeration.
Variable sqrt : Q -> Q.
Variables kptsPrev kptsCurr : list KeyPoint.

Lemma vec_at_lookup {A : Type} (v : list A) (i : Z) (a : A) :
vec_at v i = Ok a -> v !! Z.to_nat i = Some a.
Proof.
unfold vec_at. destruct (i <? 0)%Z; [discriminate|].
destruct (v !! Z.to_nat i); [now intros [= ->] | discriminate].
Qed.

Lemma inner_loop_enumerates it1 oc op inner acc :
vec_at kptsCurr (trainIdx it1) = Ok oc ->
vec_at kptsPrev (queryIdx it1) = Ok op ->
Forall (indices_valid kptsPrev kptsCurr) inner ->
inner_loop sqrt kptsPrev kptsCurr oc op inner acc
= Ok (acc ++ flat_map (pair_ratio sqrt kptsPrev kptsCurr it1) inner).
Proof.
intros Hoc Hop H. revert acc.
induction H as [|it2 inner [Hq Ht] _ IH]; intros acc; simpl.
- now rewrite app_nil_r.
- destruct (vec_at_valid _ _ Ht) as [ic Hic].
  destruct (vec_at_valid _ _ Hq) as [ip Hip].
  rewrite Hic, Hip. cbn [mbind result_bind]. rewrite IH.
  unfold pair_ratio at 2.
  rewrite (vec_at_lookup _ _ _ Hoc), (vec_at_lookup _ _ _ Hop),
    (vec_at_lookup _ _ _ Hic), (vec_at_lookup _ _ _ Hip).
  destruct (Qltb epsilon _ && Qle_bool minDist _);
    [now rewrite <- app_assoc | reflexivity].
Qed.

Lemma outer_loop_enumerates all outer acc :
Forall (indices_valid kptsPrev kptsCurr) all ->
Forall (indices_valid kptsPrev kptsCurr) outer ->
outer_loop sqrt kptsPrev kptsCurr all outer acc
= Ok (acc ++ flat_map (fun it1 =>
                flat_map (pair_ratio sqrt kptsPrev kptsCurr it1) (drop 1 all))
             outer).
Proof.
intros Hall H. revert acc.
induction H as [|it1 outer [Hq Ht] _ IH]; intros acc; simpl.
- now rewrite app_nil_r.
- destruct (vec_at_valid _ _ Ht) as [oc Hoc].
  destruct (vec_at_valid _ _ Hq) as [op Hop].
  rewrite Hoc, Hop. cbn [mbind result_bind].
  rewrite (inner_loop_enumerates it1 oc op (drop 1 all) acc Hoc Hop)
    by now apply Forall_drop.
  cbn [mbind result_bind]. rewrite IH. now rewrite <- app_assoc.
Qed.

(** What the two loops record: one ratio for every qualifying pair of a match
  [it1] other than the last with a match [it2] other than the first,
  whatever their order in the vector. *)
Lemma distRatios_enumeration matches :
Forall (indices_valid kptsPrev kptsCurr) matches ->
distRatios sqrt kptsPrev kptsCurr matches
= Ok (flat_map (fun it1 =>
        flat_map (pair_ratio sqrt kptsPrev kptsCurr it1) (drop 1 matches))
      (removelast matches)).
Proof.
intros H. unfold distRatios.
now rewrite outer_loop_enumerates by (auto using Forall_removelast).
Qed.
End Enumeration.
(** C4 on four matched keypoints: the loops record seven ratios, that of the
    second and third match twice; one ratio per unordered pair would be six,
    with another median and another time-to-collision. *)
Lemma distRatios_records_pair_twice :
  distRatios Qsqrt kptsPrev_example kptsCurr_example matches_example
  = Ok [110 # 100; 330 # 200; 480 # 400; 220 # 100; 370 # 300; 220 # 100;
        150 # 200] /\
  unordered_pairs_ratios Qsqrt kptsPrev_example kptsCurr_example matches_example []
  = Ok [110 # 100; 330 # 200; 480 # 400; 220 # 100; 370 # 300; 150 # 200] /\
  (fst (median nth_element_by_sorting
          [110 # 100; 330 # 200; 480 # 400; 220 # 100; 370 # 300; 220 # 100;
           150 # 200]) == 37 # 30)%Q /\
  (fst (median nth_element_by_sorting
          [110 # 100; 330 # 200; 480 # 400; 220 # 100; 370 # 300; 150 # 200])
   == 73 # 60)%Q /\
  computeTTCCamera nth_element_by_sorting Qsqrt kptsPrev_example kptsCurr_example
    matches_example 10 = Ok (Fin (300 # 700)).
Proof. repeat split; vm_compute; reflexivity. Qed.

(** ** clusterLidarWithROI: the projection *)

(** On a column vector, [at (0, j)] and [at (j, 0)] are the same element of
    the buffer: line 32 reads the third coordinate of [Y] as [Y.at (0, 2)]. *)
Lemma Mat_at_column_vector (m : Mat) (j : nat) :
  cols m = 1%nat -> Mat_at m 0 j = Mat_at m j 0.
Proof.
  intros Hc. unfold Mat_at. rewrite Hc.
  now replace (j * 1 + 0)%nat with (0 * 1 + j)%nat by lia.
Qed.

Section Projection.
Local Open Scope Q_scope.
Variables P R RT : Mat.
Hypothesis sizes : calibration_sizes P R RT.

(** The vector [Y] of line 30, and what lines 32-33 read from it. *)
Lemma project_reads (p : LidarPoint) :
  exists y0 y1 y2 : Q,
    y0 == nth 0 (homogeneous P R RT p) 0 /\
    y1 == nth 1 (homogeneous P R RT p) 0 /\
    y2 == nth 2 (homogeneous P R RT p) 0 /\
    project P R RT p
    = (if Qeq_bool y2 0 then Undefined
       else x ← to_int (y0 / y2); y ← to_int (y1 / y2); Ok (mkPoint x y)).
Proof.
  destruct sizes as (HrP & HcP & HrR & HcR & HrT & HcT).
  unfold project, homogeneous, apply, Mat_mul, Mat_at, dot.
  rewrite HrP, HcP, HrR, HcR, HrT, HcT.
  cbn [Nat.eqb mbind result_bind rows cols data seq flat_map map app foldr
       entry nth Nat.mul Nat.add lookup list_lookup length].
  eexists _, _, _. split; [|split; [|split; [|reflexivity]]]; ring.
Qed.

Lemma project_value (p : LidarPoint) :
  let u := nth 0 (homogeneous P R RT p) 0 in
  let v := nth 1 (homogeneous P R RT p) 0 in
  let w := nth 2 (homogeneous P R RT p) 0 in
  project P R RT p
  = (if Qeq_bool w 0 then Undefined
     else x ← to_int (u / w); y ← to_int (v / w); Ok (mkPoint x y)).
Proof.
  intros u v w.
  destruct (project_reads p) as (y0 & y1 & y2 & E0 & E1 & E2 & ->).
  fold u in E0. fold v in E1. fold w in E2.
  rewrite (Qeq_bool_proper _ _ E2 0 0 (Qeq_refl 0)).
  destruct (Qeq_bool w 0); [reflexivity|].
  assert (Ex : y0 / y2 == u / w) by now rewrite E0, E2.
  assert (Ey : y1 / y2 == v / w) by now rewrite E1, E2.
  now rewrite (to_int_proper _ _ Ex), (to_int_proper _ _ Ey).
Qed.

(** The outcome of the projection is the pixel of the point, or undefined
    behaviour. *)
Lemma project_spec (p : LidarPoint) (pix : Point) :
  project P R RT p = Ok pix <-> is_pixel P R RT p pix.
Proof.
  rewrite project_value. unfold is_pixel.
  set (u := nth 0 (homogeneous P R RT p) 0).
  set (v := nth 1 (homogeneous P R RT p) 0).
  set (w := nth 2 (homogeneous P R RT p) 0).
  destruct (Qeq_bool w 0) eqn:Ew.
  - apply Qeq_bool_iff in Ew. split; [discriminate | tauto].
  - apply Qeq_bool_neq in Ew. split.
    + destruct (to_int (u / w)) as [x| |] eqn:Ex; cbn [mbind result_bind];
        try discriminate.
      destruct (to_int (v / w)) as [y| |] eqn:Ey; cbn [mbind result_bind];
        try discriminate.
      intros [= <-]. apply to_int_Ok in Ex, Ey. cbn [px py]. tauto.
    + intros (_ & Hx & Hy & Ix & Iy).
      rewrite (proj2 (to_int_Ok _ _) (conj Hx Ix)). cbn [mbind result_bind].
      rewrite (proj2 (to_int_Ok _ _) (conj Hy Iy)). cbn [mbind result_bind].
      now destruct pix.
Qed.

Lemma project_outcome (p : LidarPoint) :
  (exists pix, project P R RT p = Ok pix) \/ project P R RT p = Undefined.
Proof.
  rewrite project_value. cbv zeta.
  destruct (Qeq_bool _ 0); [now right|].
  destruct (to_int_outcome (nth 0 (homogeneous P R RT p) 0
                            / nth 2 (homogeneous P R RT p) 0)) as [-> | ->];
    cbn [mbind result_bind]; [|now right].
  destruct (to_int_outcome (nth 1 (homogeneous P R RT p) 0
                            / nth 2 (homogeneous P R RT p) 0)) as [-> | ->];
    cbn [mbind result_bind]; [left; eauto | now right].
Qed.

Lemma is_pixel_unique (p : LidarPoint) (pix pix' : Point) :
  is_pixel P R RT p pix -> is_pixel P R RT p pix' -> pix = pix'.
Proof.
  intros H H'. apply project_spec in H, H'. congruence.
Qed.

(** No pixel without a scale, or with an image coordinate whose integer
    part is no [int]. *)
Lemma project_undefined (p : LidarPoint) :
  let u := nth 0 (homogeneous P R RT p) 0 in
  let v := nth 1 (homogeneous P R RT p) 0 in
  let w := nth 2 (homogeneous P R RT p) 0 in
  w == 0 \/ ~ fits_int (u / w) \/ ~ fits_int (v / w) ->
  project P R RT p = Undefined.
Proof.
  intros u v w H. rewrite project_value. fold u v w.
  destruct (Qeq_bool w 0) eqn:Ew; [reflexivity|].
  apply Qeq_bool_neq in Ew. destruct H as [H|[H|H]]; [contradiction| |].
  - now rewrite (to_int_undefined _ H).
  - rewrite (to_int_undefined _ H).
    now destruct (to_int_outcome (u / w)) as [-> | ->].
Qed.

End Projection.



(** ** clusterLidarWithROI: which box a point goes to *)

Section LidarAssociation.
Variable shrinkFactor : Q.
Variables P R RT : Mat.

Local Abbreviation inside b pix := (contains (shrunk shrinkFactor (roi b)) pix = true).

(** The code's shrunk region is the reference one, where that is made of
    [int]s. *)
Lemma smallerBox_shrunk (r : Rect) :
  smallerBox shrinkFactor r
  = if region_converts shrinkFactor r then Ok (shrunk shrinkFactor r) else Undefined.
Proof.
  unfold smallerBox, region_converts, shrunk, shrunk_start, shrunk_length, to_int.
  cbn [rx ry rwidth rheight].
  repeat match goal with
         | |- context [in_int ?z] => destruct (in_int z); cbn [mbind result_bind andb]
         end; reflexivity.
Qed.

Lemma smallerBox_spec (r r' : Rect) :
  smallerBox shrinkFactor r = Ok r' <-> shrunk_region shrinkFactor r r'.
Proof.
  unfold smallerBox, shrunk_region. fold (shrunk_start shrinkFactor (rx r) (rwidth r)).
  fold (shrunk_start shrinkFactor (ry r) (rheight r)).
  fold (shrunk_length shrinkFactor (rwidth r)).
  fold (shrunk_length shrinkFactor (rheight r)).
  split.
  - destruct (to_int (shrunk_start _ (rx r) _)) as [x| |] eqn:Ex;
      cbn [mbind result_bind]; try discriminate.
    destruct (to_int (shrunk_start _ (ry r) _)) as [y| |] eqn:Ey;
      cbn [mbind result_bind]; try discriminate.
    destruct (to_int (shrunk_length _ (rwidth r))) as [w| |] eqn:Ew;
      cbn [mbind result_bind]; try discriminate.
    destruct (to_int (shrunk_length _ (rheight r))) as [h| |] eqn:Eh;
      cbn [mbind result_bind]; try discriminate.
    intros [= <-]. apply to_int_Ok in Ex, Ey, Ew, Eh.
    cbn [rx ry rwidth rheight]. tauto.
  - intros (Hx & Hy & Hw & Hh & Ix & Iy & Iw & Ih).
    rewrite (proj2 (to_int_Ok _ _) (conj Hx Ix)). cbn [mbind result_bind].
    rewrite (proj2 (to_int_Ok _ _) (conj Hy Iy)). cbn [mbind result_bind].
    rewrite (proj2 (to_int_Ok _ _) (conj Hw Iw)). cbn [mbind result_bind].
    rewrite (proj2 (to_int_Ok _ _) (conj Hh Ih)). cbn [mbind result_bind].
    now destruct r'.
Qed.

Lemma shrunk_region_shrunk (r r' : Rect) :
  shrunk_region shrinkFactor r r'
  <-> region_converts shrinkFactor r = true /\ r' = shrunk shrinkFactor r.
Proof.
  rewrite <- smallerBox_spec, smallerBox_shrunk.
  destruct (region_converts shrinkFactor r); split.
  - intros [= <-]. auto.
  - now intros [_ ->].
  - discriminate.
  - now intros [? _].
Qed.




Lemma regions_convert_roi (boxes boxes' : list BoundingBox) :
  map roi boxes = map roi boxes' ->
  regions_convert shrinkFactor boxes = regions_convert shrinkFactor boxes'.
Proof.
  revert boxes'. induction boxes as [|b boxes IH]; intros [|b' boxes'] H;
    simpl in *; try discriminate; [reflexivity|].
  injection H as Hr Hrest. unfold regions_convert in *. simpl.
  now rewrite Hr, (IH boxes' Hrest).
Qed.

(** The loop over the boxes finds the positions of the enclosing shrunk
    regions, when every shrunk region is made of [int]s. *)
Lemma enclosingBoxes_shrunk (boxes : list BoundingBox) (pix : Point) : forall i,
  enclosingBoxes shrinkFactor i boxes pix
  = if regions_convert shrinkFactor boxes
    then Ok (enclosing shrinkFactor i boxes pix) else Undefined.
Proof.
  unfold regions_convert.
  induction boxes as [|b boxes IH]; intros i; simpl; [reflexivity|].
  rewrite smallerBox_shrunk.
  destruct (region_converts shrinkFactor (roi b)); cbn [mbind result_bind andb];
    [|reflexivity].
  rewrite IH. destruct (forallb _ boxes); reflexivity.
Qed.

Lemma elem_of_enclosing (i : nat) (boxes : list BoundingBox) (pix : Point) (k : nat) :
  k ∈ enclosing shrinkFactor i boxes pix <->
  (i <= k)%nat /\ exists b, boxes !! (k - i)%nat = Some b /\ inside b pix.
Proof.
  revert i. induction boxes as [|b boxes IH]; intros i; simpl.
  - rewrite elem_of_nil. split; [tauto|]. intros (_ & b & H & _). discriminate.
  - assert (Hrest : k ∈ enclosing shrinkFactor (S i) boxes pix <->
              (i < k)%nat /\ exists b', boxes !! (k - S i)%nat = Some b' /\ inside b' pix).
    { rewrite IH. reflexivity. }
    destruct (contains (shrunk shrinkFactor (roi b)) pix) eqn:E.
    + rewrite elem_of_cons, Hrest. split.
      * intros [->|(Hk & b' & Hb' & Hin)].
        -- split; [lia|]. exists b. rewrite Nat.sub_diag. auto.
        -- split; [lia|]. exists b'. split; [|exact Hin].
           replace (k - i)%nat with (S (k - S i)) by lia. exact Hb'.
      * intros (Hk & b' & Hb' & Hin).
        destruct (decide (k = i)) as [->|Hne]; [now left|right].
        split; [lia|]. exists b'. split; [|exact Hin].
        replace (k - i)%nat with (S (k - S i)) in Hb' by lia. exact Hb'.
    + rewrite Hrest. split.
      * intros (Hk & b' & Hb' & Hin). split; [lia|]. exists b'. split; [|exact Hin].
        replace (k - i)%nat with (S (k - S i)) by lia. exact Hb'.
      * intros (Hk & b' & Hb' & Hin).
        destruct (decide (k = i)) as [->|Hne].
        -- rewrite Nat.sub_diag in Hb'. simpl in Hb'. injection Hb' as <-. congruence.
        -- split; [lia|]. exists b'. split; [|exact Hin].
           replace (k - i)%nat with (S (k - S i)) in Hb' by lia. exact Hb'.
Qed.




Lemma enclosing_roi i boxes boxes' pix :
  map roi boxes = map roi boxes' ->
  enclosing shrinkFactor i boxes pix = enclosing shrinkFactor i boxes' pix.
Proof.
  revert i boxes'. induction boxes as [|b boxes IH]; intros i [|b' boxes'] H;
    simpl in *; try discriminate; [reflexivity|].
  injection H as Hr Hrest. rewrite Hr, (IH (S i) boxes' Hrest). reflexivity.
Qed.

Lemma enclosingBoxes_roi i boxes boxes' pix :
  map roi boxes = map roi boxes' ->
  enclosingBoxes shrinkFactor i boxes pix = enclosingBoxes shrinkFactor i boxes' pix.
Proof.
  intros H. rewrite !enclosingBoxes_shrunk.
  now rewrite (regions_convert_roi boxes boxes' H), (enclosing_roi i boxes boxes' pix H).
Qed.

(** The association step: undefined when a shrunk region is not made of
    [int]s, and otherwise the boxes with the point appended to its sole
    encloser, if there is one. *)
Lemma attach_shrunk boxes pix p :
  attach shrinkFactor boxes pix p
  = if regions_convert shrinkFactor boxes
    then Ok (match enclosing shrinkFactor 0 boxes pix with
             | [k] => alter (push_lidarPoint p) k boxes
             | _ => boxes
             end)
    else Undefined.
Proof.
  unfold attach. rewrite enclosingBoxes_shrunk.
  now destruct (regions_convert shrinkFactor boxes).
Qed.

Lemma attach_roi boxes pix p boxes1 :
  attach shrinkFactor boxes pix p = Ok boxes1 -> map roi boxes1 = map roi boxes.
Proof.
  rewrite attach_shrunk. destruct (regions_convert _ _); [|discriminate].
  intros [= <-].
  destruct (enclosing shrinkFactor 0 boxes pix) as [|k [|? ?]]; try reflexivity.
  apply list_eq. intros j. rewrite !list_lookup_fmap.
  destruct (decide (k = j)) as [->|Hne].
  - rewrite list_lookup_alter_eq. now destruct (boxes !! j).
  - now rewrite list_lookup_alter_ne.
Qed.

Lemma attach_lookup boxes pix p boxes1 k b :
  attach shrinkFactor boxes pix p = Ok boxes1 ->
  boxes !! k = Some b ->
  exists b', boxes1 !! k = Some b' /\
    roi b' = roi b /\ boxID b' = boxID b /\ kptMatches b' = kptMatches b /\
    lidarPoints b' = lidarPoints b ++
      (if bool_decide (enclosing shrinkFactor 0 boxes pix = [k]) then [p] else []).
Proof.
  rewrite attach_shrunk. destruct (regions_convert _ _); [|discriminate].
  intros [= <-] Hb.
  destruct (enclosing shrinkFactor 0 boxes pix) as [|j [|? ?]] eqn:E.
  - exists b. rewrite bool_decide_eq_false_2 by discriminate.
    now rewrite app_nil_r.
  - destruct (decide (j = k)) as [->|Hne].
    + rewrite bool_decide_eq_true_2 by reflexivity.
      rewrite list_lookup_alter_eq, Hb. simpl. eauto 10.
    + rewrite bool_decide_eq_false_2 by congruence.
      rewrite list_lookup_alter_ne by exact Hne.
      exists b. now rewrite app_nil_r.
  - exists b. rewrite bool_decide_eq_false_2 by discriminate.
    now rewrite app_nil_r.
Qed.

Lemma attaches_shrunk boxes k p :
  attaches shrinkFactor P R RT boxes k p
  = match project P R RT p with
    | Ok pix => regions_convert shrinkFactor boxes
                && bool_decide (enclosing shrinkFactor 0 boxes pix = [k])
    | _ => false
    end.
Proof.
  unfold attaches. destruct (project P R RT p); try reflexivity.
  rewrite enclosingBoxes_shrunk. now destruct (regions_convert _ _).
Qed.

Lemma attaches_roi boxes boxes' k p :
  map roi boxes = map roi boxes' ->
  attaches shrinkFactor P R RT boxes k p = attaches shrinkFactor P R RT boxes' k p.
Proof.
  intros H. unfold attaches. destruct (project P R RT p); try reflexivity.
  now rewrite (enclosingBoxes_roi 0 boxes boxes' a H).
Qed.

(** What a run leaves in each box. *)
Lemma clusterLidarWithROI_result (points : list LidarPoint) :
  forall boxes boxes',
  clusterLidarWithROI shrinkFactor P R RT boxes points = Ok boxes' ->
  map roi boxes' = map roi boxes /\
  forall k b, boxes !! k = Some b ->
    exists b', boxes' !! k = Some b' /\
      boxID b' = boxID b /\ roi b' = roi b /\ kptMatches b' = kptMatches b /\
      lidarPoints b' = lidarPoints b ++
        List.filter (attaches shrinkFactor P R RT boxes k) points.
Proof.
  induction points as [|p points IH]; intros boxes boxes'; simpl.
  - intros [= <-]. split; [reflexivity|]. intros k b Hb. exists b.
    now rewrite app_nil_r.
  - destruct (project P R RT p) as [pix| |] eqn:Ep; cbn [mbind result_bind];
      try discriminate.
    destruct (attach shrinkFactor boxes pix p) as [boxes1| |] eqn:Ea;
      cbn [mbind result_bind]; try discriminate.
    intros Hrun. destruct (IH _ _ Hrun) as [Hroi Hboxes].
    pose proof (attach_roi _ _ _ _ Ea) as Hroi1.
    split; [now rewrite Hroi|].
    intros k b Hb.
    destruct (attach_lookup boxes pix p boxes1 k b Ea Hb)
      as (b1 & Hb1 & Hr1 & Hi1 & Hm1 & Hl1).
    destruct (Hboxes k b1 Hb1) as (b' & Hb' & Hi' & Hr' & Hm' & Hl').
    exists b'. repeat split; try congruence.
    rewrite Hl', Hl1, <- app_assoc. f_equal.
    rewrite (attaches_shrunk boxes k p), Ep.
    rewrite attach_shrunk in Ea.
    destruct (regions_convert shrinkFactor boxes); [|discriminate]. cbn [andb].
    rewrite (List.filter_ext _ _ (fun q => attaches_roi _ _ k q Hroi1)).
    now destruct (bool_decide _).
Qed.

(** A run returns when every point has a pixel and, if there is a point,
    every shrunk region is made of [int]s; it returns in no other case. *)
Lemma clusterLidarWithROI_defined (points : list LidarPoint) :
  forall boxes,
  Forall (fun p => exists pix, project P R RT p = Ok pix) points ->
  points = [] \/ regions_convert shrinkFactor boxes = true ->
  exists boxes', clusterLidarWithROI shrinkFactor P R RT boxes points = Ok boxes'.
Proof.
  induction points as [|p points IH]; intros boxes H Hc; simpl; [eauto|].
  destruct Hc as [|Hc]; [discriminate|].
  inversion H as [|? ? [pix Hp] Hrest]; subst. rewrite Hp. cbn [mbind result_bind].
  destruct (attach shrinkFactor boxes pix p) as [boxes1| |] eqn:Ea.
  - cbn [mbind result_bind]. apply IH; [exact Hrest|]. right.
    now rewrite (regions_convert_roi boxes1 boxes (attach_roi _ _ _ _ Ea)).
  - rewrite attach_shrunk, Hc in Ea. discriminate.
  - rewrite attach_shrunk, Hc in Ea. discriminate.
Qed.

Lemma clusterLidarWithROI_projects (points : list LidarPoint) :
  forall boxes boxes',
  clusterLidarWithROI shrinkFactor P R RT boxes points = Ok boxes' ->
  Forall (fun p => exists pix, project P R RT p = Ok pix) points /\
  (points = [] \/ regions_convert shrinkFactor boxes = true).
Proof.
  induction points as [|p points IH]; intros boxes boxes'; simpl.
  - intros _. split; [constructor | now left].
  - destruct (project P R RT p) as [pix| |] eqn:Ep; cbn [mbind result_bind];
      try discriminate.
    destruct (attach shrinkFactor boxes pix p) as [boxes1| |] eqn:Ea;
      cbn [mbind result_bind]; try discriminate.
    intros Hrun. destruct (IH _ _ Hrun) as [Hall _]. split.
    + constructor; [eauto | exact Hall].
    + right. rewrite attach_shrunk in Ea.
      now destruct (regions_convert shrinkFactor boxes).
Qed.

(** A run never throws when the calibration matrices have their sizes. *)
Lemma clusterLidarWithROI_no_throw (points : list LidarPoint) :
  calibration_sizes P R RT ->
  forall boxes e, clusterLidarWithROI shrinkFactor P R RT boxes points <> Throw e.
Proof.
  intros sizes. induction points as [|p points IH]; intros boxes e; simpl;
    [discriminate|].
  destruct (project_outcome P R RT sizes p) as [[pix ->] | ->];
    cbn [mbind result_bind]; [|discriminate].
  rewrite attach_shrunk. destruct (regions_convert _ _); cbn [mbind result_bind];
    [apply IH | discriminate].
Qed.
End LidarAssociation.

(** The region of 200 by 200 pixels shrunk by the [float] nearest to one
    tenth is 180 pixels wide; without rounding it would be 179. *)
Example smallerBox_tenth :
  smallerBox shrink_tenth (mkRect 500 100 200 200) = Ok (mkRect 510 110 180 180) /\
  d2i (200 * (1 - shrink_tenth)) = 179%Z.
Proof. split; vm_compute; reflexivity. Qed.
(** ** clusterKptMatchesWithROI *)

Section KptMatches.
Local Open Scope Q_scope.

Lemma filter_none {A : Type} (f : A -> bool) (l : list A) :
  Forall (fun a => f a = false) l -> List.filter f l = [].
Proof. induction 1 as [|a l Ha _ IH]; simpl; [reflexivity | now rewrite Ha]. Qed.

Lemma filter_all {A : Type} (f : A -> bool) (l : list A) :
  Forall (fun a => f a = true) l -> List.filter f l = l.
Proof.
  induction 1 as [|a l Ha _ IH]; simpl; [reflexivity | now rewrite Ha, IH].
Qed.

Lemma kptMatchesROI_filter r kptsCurr matches found :
  kptMatchesROI r kptsCurr matches = Ok found ->
  found = List.filter (inside_roi r kptsCurr) matches.
Proof.
  revert found. induction matches as [|m ms IH]; intros found; simpl.
  - now intros [= <-].
  - unfold vec_at, inside_roi.
    destruct (trainIdx m <? 0)%Z; [discriminate|].
    destruct (kptsCurr !! Z.to_nat (trainIdx m)) as [kp|]; [|discriminate]. simpl.
    destruct (kptMatchesROI r kptsCurr ms) as [tl| |]; simpl; try discriminate.
    intros [= <-]. rewrite (IH tl eq_refl).
    now destruct (contains r (Point2f_to_Point (pt kp))).
Qed.

Lemma kptMatchesROI_defined r kptsCurr matches :
  Forall (fun m => valid_index kptsCurr (trainIdx m)) matches ->
  kptMatchesROI r kptsCurr matches = Ok (List.filter (inside_roi r kptsCurr) matches).
Proof.
  intros H.
  assert (exists found, kptMatchesROI r kptsCurr matches = Ok found) as [found Hf].
  { induction H as [|m ms Hm _ [tl IH]]; simpl; [eauto|].
    destruct (vec_at_valid _ _ Hm) as [kp ->]. rewrite IH. simpl. eauto. }
  now rewrite Hf, (kptMatchesROI_filter _ _ _ _ Hf).
Qed.

Lemma accumulate_constant (d : Q) (l : list Q) (init : Q) :
  Forall (fun v => v == d) l -> accumulate l init == init + size_Q l * d.
Proof.
  unfold accumulate, size_Q. intros H. revert init.
  induction H as [|v l Hv _ IH]; intros init.
  - simpl. ring.
  - cbn [foldl length]. rewrite IH, Hv.
    rewrite Nat2Z.inj_succ, <- Z.add_1_r, inject_Z_plus. ring.
Qed.

Lemma size_Q_pos {A : Type} (l : list A) : l <> [] -> 0 < size_Q l.
Proof.
  intros H. unfold size_Q. destruct l; [congruence|].
  rewrite <- (Zlt_Qlt 0). simpl. lia.
Qed.

Lemma avgDist_mean ms : avgDist ms = mean (map distance ms).
Proof. unfold avgDist, mean, size_Q. now rewrite length_map. Qed.

Lemma mean_constant (d : Q) (l : list Q) :
  l <> [] -> Forall (fun v => v == d) l -> mean l == d.
Proof.
  intros Hne H. unfold mean. rewrite (accumulate_constant d l 0 H).
  pose proof (size_Q_pos l Hne). field. lra.
Qed.

Lemma below_threshold_spec found :
  below_threshold found
  = List.filter (fun m => Qltb (distance m) ((8 # 10) * mean (map distance found))) found.
Proof.
  unfold below_threshold. apply List.filter_ext. intros m. rewrite avgDist_mean.
  unfold Qltb. f_equal. apply Qleb_comp; [ring | reflexivity].
Qed.

(** C8, as the code has it: of the matches whose current keypoint is inside
    the unshrunk region, none leaves the box as it was; otherwise exactly
    those whose distance is strictly below 0.8 times their mean distance are
    appended, in order, to what the box already holds.  When they all have
    one and the same distance, none is kept if that distance is not negative
    and all are kept if it is. *)
Theorem clusterKptMatchesWithROI_appends_below_threshold
    (boundingBox : BoundingBox) (kptsPrev kptsCurr : list KeyPoint) (matches : list DMatch) :
  Forall (fun m => valid_index kptsCurr (trainIdx m)) matches ->
  let found := List.filter (inside_roi (roi boundingBox) kptsCurr) matches in
  let kept :=
    List.filter (fun m => Qltb (distance m) ((8 # 10) * mean (map distance found)))
      found in
  (found = [] ->
     clusterKptMatchesWithROI boundingBox kptsPrev kptsCurr matches = Ok boundingBox) /\
  (found <> [] ->
     clusterKptMatchesWithROI boundingBox kptsPrev kptsCurr matches
     = Ok (mkBoundingBox (boxID boundingBox) (roi boundingBox)
             (lidarPoints boundingBox) (kptMatches boundingBox ++ kept))) /\
  (forall d, found <> [] -> Forall (fun m => distance m == d) found ->
     (0 <= d -> kept = []) /\ (d < 0 -> kept = found)).
Proof.
  intros Hv found kept.
  unfold clusterKptMatchesWithROI. rewrite (kptMatchesROI_defined _ _ _ Hv).
  fold found. cbn [mbind result_bind].
  split; [|split].
  - intros ->. reflexivity.
  - intros Hne. apply length_pos_nonempty in Hne. rewrite Hne.
    unfold push_kptMatches. now rewrite below_threshold_spec.
  - intros d Hne Hd. subst kept.
    assert (Hmean : mean (map distance found) == d).
    { apply mean_constant.
      - destruct found; [congruence | discriminate].
      - now apply Forall_map. }
    split; intros Hsign.
    + apply filter_none. eapply Forall_impl; [exact Hd|].
      intros m Hm. cbn beta in *. apply Qltb_false. rewrite Hmean, Hm. lra.
    + apply filter_all. eapply Forall_impl; [exact Hd|].
      intros m Hm. cbn beta in *. apply Qltb_true. rewrite Hmean, Hm. lra.
Qed.

Lemma clusterKptMatchesWithROI_appends_below_threshold_witness :
  clusterKptMatchesWithROI box_with_match [] kptsCurr_roi_example
    matches_roi_example
  = Ok (mkBoundingBox 0 (mkRect 0 0 100 100) []
          [mkDMatch 7 7 3; mkDMatch 0 0 1]).
Proof.
  apply (clusterKptMatchesWithROI_appends_below_threshold box_with_match []
           kptsCurr_roi_example matches_roi_example).
  - repeat constructor; unfold valid_index; simpl; lia.
  - discriminate.
Defined.

(** C8 as stated fails twice: a box that already holds a match is not left
    empty when no match falls in its region, and matches with one and the same
    negative distance are all kept. *)
Lemma clusterKptMatchesWithROI_not_assigned :
  (kptMatchesROI (roi box_with_match) kptsCurr_roi_example [mkDMatch 2 2 1] = Ok [] /\
   clusterKptMatchesWithROI box_with_match [] kptsCurr_roi_example [mkDMatch 2 2 1]
   = Ok box_with_match /\
   kptMatches box_with_match <> []) /\
  (kptMatchesROI (mkRect 0 0 100 100) kptsCurr_roi_example matches_negative
   = Ok matches_negative /\
   Forall (fun m => distance m == -1) matches_negative /\
   clusterKptMatchesWithROI (empty_box 0 0 100 100) [] kptsCurr_roi_example
     matches_negative
   = Ok (mkBoundingBox 0 (mkRect 0 0 100 100) [] matches_negative)).
Proof.
  split; [split; [|split]|split; [|split]];
    try reflexivity; try discriminate.
  repeat constructor.
Qed.
End KptMatches.




(** ** clusterLidarWithROI: no test of the homogeneous scale *)




(** ** Both associators append *)

Lemma clusterKptMatchesWithROI_pushes bb kptsPrev kptsCurr matches bb' :
  clusterKptMatchesWithROI bb kptsPrev kptsCurr matches = Ok bb' ->
  exists added,
    bb' = push_kptMatches added bb /\
    clusterKptMatchesWithROI bb' kptsPrev kptsCurr matches
    = Ok (push_kptMatches added bb').
Proof.
  unfold clusterKptMatchesWithROI.
  destruct (kptMatchesROI (roi bb) kptsCurr matches) as [found| |] eqn:E;
    cbn [mbind result_bind]; try discriminate.
  destruct (0 <? length found)%nat eqn:En; intros [= <-].
  - exists (below_threshold found). split; [reflexivity|].
    cbn [roi push_kptMatches]. rewrite E. cbn [mbind result_bind].
    now rewrite En.
  - exists []. split.
    + destruct bb. unfold push_kptMatches. cbn. now rewrite app_nil_r.
    + rewrite E. cbn [mbind result_bind]. rewrite En.
      destruct bb. unfold push_kptMatches. cbn. now rewrite app_nil_r.
Qed.

(** C10: neither associator clears or overwrites what a box holds.  After a
    call the earlier [lidarPoints] (resp. [kptMatches]) are a prefix of the
    new ones, and a second call on the same inputs appends the same entries
    once more. *)
Theorem associators_append
    (shrinkFactor : Q) (P R RT : Mat) :
  (forall boxes points boxes',
     clusterLidarWithROI shrinkFactor P R RT boxes points = Ok boxes' ->
     exists boxes'',
       clusterLidarWithROI shrinkFactor P R RT boxes' points = Ok boxes'' /\
       forall k b, boxes !! k = Some b ->
         exists b' b'' added,
           boxes' !! k = Some b' /\ boxes'' !! k = Some b'' /\
           lidarPoints b' = lidarPoints b ++ added /\
           lidarPoints b'' = lidarPoints b ++ added ++ added /\
           kptMatches b' = kptMatches b /\ kptMatches b'' = kptMatches b) /\
  (forall bb kptsPrev kptsCurr matches bb',
     clusterKptMatchesWithROI bb kptsPrev kptsCurr matches = Ok bb' ->
     exists bb'' added,
       clusterKptMatchesWithROI bb' kptsPrev kptsCurr matches = Ok bb'' /\
       kptMatches bb' = kptMatches bb ++ added /\
       kptMatches bb'' = kptMatches bb ++ added ++ added /\
       lidarPoints bb' = lidarPoints bb /\ lidarPoints bb'' = lidarPoints bb).
Proof.
  split.
  - intros boxes points boxes' Hrun.
    destruct (clusterLidarWithROI_result shrinkFactor P R RT points boxes boxes' Hrun)
      as [Hroi H1].
    destruct (clusterLidarWithROI_projects shrinkFactor P R RT points boxes boxes' Hrun)
      as [Hproj Hconv].
    destruct (clusterLidarWithROI_defined shrinkFactor P R RT points boxes' Hproj)
      as [boxes'' Hrun'].
    { destruct Hconv as [|Hc]; [now left | right].
      now rewrite (regions_convert_roi shrinkFactor boxes' boxes Hroi). }
    exists boxes''. split; [exact Hrun'|].
    destruct (clusterLidarWithROI_result shrinkFactor P R RT points boxes' boxes'' Hrun')
      as [_ H2].
    intros k b Hb.
    destruct (H1 k b Hb) as (b' & Hb' & _ & _ & Hm' & Hl').
    destruct (H2 k b' Hb') as (b'' & Hb'' & _ & _ & Hm'' & Hl'').
    exists b', b'', (List.filter (attaches shrinkFactor P R RT boxes k) points).
    repeat split; try congruence.
    rewrite Hl'', Hl', <- app_assoc. do 2 f_equal.
    apply List.filter_ext. intros p. symmetry.
    now apply attaches_roi.
  - intros bb kptsPrev kptsCurr matches bb' Hrun.
    destruct (clusterKptMatchesWithROI_pushes _ _ _ _ _ Hrun) as (added & -> & Hrun').
    eexists _, added. split; [exact Hrun'|].
    cbn. now rewrite <- app_assoc.
Qed.

Lemma associators_append_witness :
  (exists boxes'' b'',
     clusterLidarWithROI shrink_tenth P_example R_example RT_example
       boxes_clustered_example points_example = Ok boxes'' /\
     boxes'' !! 0%nat = Some b'' /\
     lidarPoints b''
     = [mkLidarPoint 10 0 0 0; mkLidarPoint 700 (-89) 0 0;
        mkLidarPoint 10 0 0 0; mkLidarPoint 700 (-89) 0 0]) /\
  (exists bb'',
     clusterKptMatchesWithROI
       (mkBoundingBox 0 (mkRect 0 0 100 100) [] [mkDMatch 7 7 3; mkDMatch 0 0 1])
       [] kptsCurr_roi_example matches_roi_example = Ok bb'' /\
     kptMatches bb'' = [mkDMatch 7 7 3; mkDMatch 0 0 1; mkDMatch 0 0 1]).
Proof.
  destruct (associators_append shrink_tenth P_example R_example RT_example)
    as [Hlidar Hkpt].
  split.
  - destruct (Hlidar boxes_example points_example boxes_clustered_example eq_refl)
      as (boxes'' & H & Hk).
    destruct (Hk 0%nat _ eq_refl)
      as (b' & b'' & added & [= <-] & Hb'' & Hl' & Hl'' & _).
    exists boxes'', b''. cbn in Hl', Hl''. subst added.
    repeat split; assumption.
  - destruct (Hkpt box_with_match [] kptsCurr_roi_example matches_roi_example
                (mkBoundingBox 0 (mkRect 0 0 100 100) []
                   [mkDMatch 7 7 3; mkDMatch 0 0 1]) eq_refl)
      as (bb'' & added & H & Hm' & Hm'' & _).
    exists bb''. split; [exact H|].
    cbn in Hm', Hm''. injection Hm' as <-. exact Hm''.
Defined.

(** ** matchBoundingBoxes *)

Lemma id_max_from_spec (row : list Z) : forall (j : nat) (mc : Z) (id : nat),
  (Forall (fun c => (c <= mc)%Z) row /\ id_max_from row j mc id = id) \/
  (exists (p : nat) (v : Z),
     id_max_from row j mc id = (j + p)%nat /\ row !! p = Some v /\ (mc < v)%Z /\
     Forall (fun c => (c <= v)%Z) row /\
     forall (k : nat) (c : Z), (k < p)%nat -> row !! k = Some c -> (c < v)%Z).
Proof.
  induction row as [|c rest IH]; intros j mc id; simpl.
  - left. split; [constructor | reflexivity].
  - destruct (mc <? c)%Z eqn:E.
    + apply Z.ltb_lt in E. right.
      destruct (IH (S j) c j) as [[Hall ->]|(p & v & -> & Hp & Hv & Hall & Hlt)].
      * exists 0%nat, c. repeat split; [lia | exact E | constructor; [lia|exact Hall] | intros; lia].
      * exists (S p), v. repeat split; [lia | exact Hp | lia | constructor; [lia|exact Hall] |].
        intros [|k] c' Hk Hc; simpl in Hc; [injection Hc as <-; lia|].
        eapply Hlt; [|exact Hc]. lia.
    + apply Z.ltb_ge in E.
      destruct (IH (S j) mc id) as [[Hall ->]|(p & v & -> & Hp & Hv & Hall & Hlt)].
      * left. split; [constructor; assumption | reflexivity].
      * right. exists (S p), v. repeat split; [lia | exact Hp | lia | constructor; [lia|exact Hall] |].
        intros [|k] c' Hk Hc; simpl in Hc; [injection Hc as <-; lia|].
        eapply Hlt; [|exact Hc]. lia.
Qed.

Lemma pick_best_lookup (counts : list (list Z)) : forall (i : nat) (bb : gmap Z Z) (key : Z),
  pick_best counts i bb !! key
  = match (if (Z.of_nat i <=? key)%Z then counts !! (Z.to_nat key - i)%nat else None) with
    | Some row => Some (Z.of_nat (id_max_from row 0 0%Z 0))
    | None => bb !! key
    end.
Proof.
  induction counts as [|row rest IH]; intros i bb key; simpl.
  - now destruct (Z.of_nat i <=? key)%Z.
  - rewrite IH.
    destruct (Z.of_nat (S i) <=? key)%Z eqn:E1.
    + apply Z.leb_le in E1.
      replace (Z.of_nat i <=? key)%Z with true by (symmetry; apply Z.leb_le; lia).
      replace (Z.to_nat key - i)%nat with (S (Z.to_nat key - S i)) by lia.
      simpl. destruct (rest !! _); [reflexivity|].
      rewrite lookup_insert_ne by lia. reflexivity.
    + apply Z.leb_gt in E1.
      destruct (Z.of_nat i <=? key)%Z eqn:E2.
      * apply Z.leb_le in E2. assert (key = Z.of_nat i) by lia. subst key.
        rewrite Nat2Z.id, Nat.sub_diag. simpl. now rewrite lookup_insert_eq.
      * apply Z.leb_gt in E2. rewrite lookup_insert_ne by lia. reflexivity.
Qed.

Lemma vec_index_lookup {A : Type} (v : list A) (i : Z) (a : A) :
  vec_index v i = Ok a -> v !! Z.to_nat i = Some a /\ valid_index v i.
Proof.
  unfold vec_index, valid_index. destruct (i <? 0)%Z eqn:E; [discriminate|].
  apply Z.ltb_ge in E.
  destruct (v !! Z.to_nat i) eqn:El; [|discriminate]. intros [= ->].
  split; [reflexivity|]. apply lookup_lt_Some in El. lia.
Qed.

Lemma vec_index_valid {A : Type} (v : list A) (i : Z) :
  valid_index v i -> exists a, vec_index v i = Ok a.
Proof.
  intros [H0 H1]. unfold vec_index.
  replace (i <? 0)%Z with false by (symmetry; apply Z.ltb_ge; lia).
  destruct (lookup_lt_is_Some_2 v (Z.to_nat i) ltac:(lia)) as [a Ha].
  rewrite Ha. eauto.
Qed.

Lemma vec_index_invalid {A : Type} (v : list A) (i : Z) :
  ~ valid_index v i -> vec_index v i = Undefined.
Proof.
  unfold valid_index, vec_index. intros H.
  destruct (i <? 0)%Z eqn:E; [reflexivity|]. apply Z.ltb_ge in E.
  rewrite lookup_ge_None_2 by lia. reflexivity.
Qed.

Lemma scan_boxes_filter boxes p steps : forall from found,
  scan_boxes boxes p from steps = Ok found ->
  found = List.filter (box_contains boxes p) (seq from steps).
Proof.
  induction steps as [|steps IH]; intros from found; simpl.
  - now intros [= <-].
  - destruct (vec_index boxes (Z.of_nat from)) as [b| |] eqn:Eb; simpl; try discriminate.
    apply vec_index_lookup in Eb. destruct Eb as [Eb _]. rewrite Nat2Z.id in Eb.
    destruct (scan_boxes boxes p (S from) steps) as [tl| |] eqn:E; simpl; try discriminate.
    intros [= <-]. unfold box_contains at 1. rewrite Eb, (IH _ _ E).
    now destruct (contains (roi b) p).
Qed.

Lemma scan_boxes_defined boxes p steps : forall from,
  (from + steps <= length boxes)%nat ->
  exists found, scan_boxes boxes p from steps = Ok found.
Proof.
  induction steps as [|steps IH]; intros from H; simpl; [eauto|].
  destruct (vec_index_valid boxes (Z.of_nat from)) as [b ->];
    [unfold valid_index; lia|].
  destruct (IH (S from)) as [tl ->]; [lia|]. simpl. eauto.
Qed.

Lemma scan_boxes_undefined boxes p steps : forall from,
  (from <= length boxes < from + steps)%nat ->
  scan_boxes boxes p from steps = Undefined.
Proof.
  induction steps as [|steps IH]; intros from H; simpl; [lia|].
  destruct (decide (from < length boxes)%nat) as [Hlt|Hge].
  - destruct (vec_index_valid boxes (Z.of_nat from)) as [b ->];
      [unfold valid_index; lia|].
    rewrite IH by lia. reflexivity.
  - rewrite vec_index_invalid; [reflexivity|]. unfold valid_index. lia.
Qed.

Lemma cell_increment a b counts i j :
  cell (increment a b counts) i j
  = if bool_decide (a = i /\ b = j) then Z.succ <$> cell counts i j
    else cell counts i j.
Proof.
  unfold cell, increment.
  destruct (decide (a = i)) as [->|Ha].
  - rewrite list_lookup_alter_eq. destruct (counts !! i) as [row|]; simpl.
    + destruct (decide (b = j)) as [->|Hb].
      * rewrite bool_decide_eq_true_2 by auto. now rewrite list_lookup_alter_eq.
      * rewrite bool_decide_eq_false_2 by tauto. now rewrite list_lookup_alter_ne.
    + now destruct (bool_decide _).
  - rewrite bool_decide_eq_false_2 by tauto. now rewrite list_lookup_alter_ne.
Qed.

Lemma bump_false_id (o : option Z) : bump false <$> o = o.
Proof. now destruct o. Qed.

Lemma add_votes_row a trainId : forall counts i j,
  NoDup trainId ->
  cell (foldl (fun c b => increment a b c) counts trainId) i j
  = bump (bool_decide (a = i /\ j ∈ trainId)) <$> cell counts i j.
Proof.
  induction trainId as [|b t IH]; intros counts i j Hnd; cbn [foldl].
  - rewrite bool_decide_eq_false_2; [now rewrite bump_false_id|].
    intros [_ H]. now apply elem_of_nil in H.
  - apply NoDup_cons in Hnd. destruct Hnd as [Hb Ht].
    rewrite IH by exact Ht. rewrite cell_increment.
    destruct (decide (a = i /\ b = j)) as [[-> ->]|Hne].
    + rewrite (bool_decide_eq_true_2 (i = i /\ j = j)) by auto.
      rewrite (bool_decide_eq_false_2 (i = i /\ j ∈ t)) by tauto.
      rewrite (bool_decide_eq_true_2 (i = i /\ j ∈ j :: t))
        by (split; [reflexivity | apply list_elem_of_here]).
      now destruct (cell counts i j).
    + rewrite (bool_decide_eq_false_2 (a = i /\ b = j)) by exact Hne.
      f_equal. f_equal. apply bool_decide_ext. rewrite elem_of_cons.
      split; [tauto|]. intros [-> [->|H]]; tauto.
Qed.

Lemma add_votes_cell queryId trainId : forall counts i j,
  NoDup queryId -> NoDup trainId ->
  cell (add_votes queryId trainId counts) i j
  = bump (bool_decide (i ∈ queryId /\ j ∈ trainId)) <$> cell counts i j.
Proof.
  unfold add_votes.
  induction queryId as [|a q IH]; intros counts i j Hq Ht; cbn [foldl].
  - rewrite bool_decide_eq_false_2; [now rewrite bump_false_id|].
    intros [H _]. now apply elem_of_nil in H.
  - apply NoDup_cons in Hq. destruct Hq as [Ha Hq].
    rewrite IH by assumption. rewrite add_votes_row by exact Ht.
    destruct (decide (a = i)) as [->|Hne].
    + rewrite (bool_decide_eq_false_2 (i ∈ q /\ _)) by tauto.
      rewrite bump_false_id. f_equal. f_equal. apply bool_decide_ext.
      rewrite elem_of_cons. tauto.
    + rewrite (bool_decide_eq_false_2 (a = i /\ _)) by tauto.
      rewrite bump_false_id. f_equal. f_equal. apply bool_decide_ext.
      rewrite elem_of_cons. split; [tauto|]. intros [[->|H] ?]; tauto.
Qed.

Lemma elem_of_scan boxes p (n i : nat) :
  i ∈ List.filter (box_contains boxes p) (seq 0 n)
  <-> (i < n)%nat /\ box_contains boxes p i = true.
Proof.
  rewrite list_elem_of_In, filter_In, in_seq. intuition lia.
Qed.

Lemma NoDup_scan boxes p (from n : nat) :
  NoDup (List.filter (box_contains boxes p) (seq from n)).
Proof.
  revert from. induction n as [|n IH]; intros from; simpl; [constructor|].
  destruct (box_contains boxes p from); [|apply IH].
  constructor; [|apply IH].
  rewrite list_elem_of_In, filter_In, in_seq. lia.
Qed.

Lemma int_Point_outcome (kp : KeyPoint) :
  int_Point kp = Ok (mkPoint (d2i (fx (pt kp))) (d2i (fy (pt kp))))
  \/ int_Point kp = Undefined.
Proof.
  unfold int_Point.
  destruct (to_int_outcome (fx (pt kp))) as [-> | ->]; cbn [mbind result_bind];
    [|now right].
  destruct (to_int_outcome (fy (pt kp))) as [-> | ->]; cbn [mbind result_bind];
    [now left | now right].
Qed.

Lemma int_Point_Ok (kp : KeyPoint) :
  (exists p, int_Point kp = Ok p) <-> fits_int (fx (pt kp)) /\ fits_int (fy (pt kp)).
Proof.
  unfold int_Point. split.
  - intros [p H].
    destruct (to_int (fx (pt kp))) as [x| |] eqn:Ex; cbn [mbind result_bind] in H;
      try discriminate.
    destruct (to_int (fy (pt kp))) as [y| |] eqn:Ey; cbn [mbind result_bind] in H;
      try discriminate.
    apply to_int_inv in Ex, Ey. tauto.
  - intros [Hx Hy]. rewrite (to_int_fits _ Hx), (to_int_fits _ Hy).
    cbn [mbind result_bind]. eauto.
Qed.

(** Reading a keypoint and converting it succeeds exactly on the keypoints
    that can be read and converted. *)
Lemma keypoint_converts_read (kpts : list KeyPoint) (idx : Z) :
  keypoint_converts kpts idx
  <-> exists kp p, vec_index kpts idx = Ok kp /\ int_Point kp = Ok p.
Proof.
  unfold keypoint_converts. split.
  - intros [Hv Hc]. destruct (vec_index_valid kpts idx Hv) as [kp Hkp].
    destruct (vec_index_lookup _ _ _ Hkp) as [Hl _].
    destruct (proj2 (int_Point_Ok kp) (Hc kp Hl)) as [p Hp]. eauto.
  - intros (kp & p & Hkp & Hp). destruct (vec_index_lookup _ _ _ Hkp) as [Hl Hv].
    split; [exact Hv|]. intros kp' Hl'. rewrite Hl in Hl'. injection Hl' as <-.
    apply int_Point_Ok. eauto.
Qed.

Lemma count_match_cell prevFrame currFrame (n : nat) counts m counts' (i j : nat) :
  count_match prevFrame currFrame n counts m = Ok counts' ->
  cell counts' i j = bump (votes_for prevFrame currFrame n m i j) <$> cell counts i j.
Proof.
  unfold count_match. intros H.
  destruct (vec_index (keypoints prevFrame) (queryIdx m)) as [query| |] eqn:Eq;
    cbn [mbind result_bind] in H; try discriminate.
  destruct (int_Point query) as [queryPt| |] eqn:Eqp;
    cbn [mbind result_bind] in H; try discriminate.
  destruct (vec_index (keypoints currFrame) (trainIdx m)) as [train| |] eqn:Et;
    cbn [mbind result_bind] in H; try discriminate.
  destruct (int_Point train) as [trainPt| |] eqn:Etp;
    cbn [mbind result_bind] in H; try discriminate.
  destruct (scan_boxes (boundingBoxes prevFrame) _ 0 n) as [queryId| |] eqn:Esq;
    cbn [mbind result_bind] in H; try discriminate.
  destruct (scan_boxes (boundingBoxes currFrame) _ 0 n) as [trainId| |] eqn:Est;
    cbn [mbind result_bind] in H; try discriminate.
  injection H as <-.
  apply vec_index_lookup in Eq, Et. destruct Eq as [Eq _], Et as [Et _].
  apply scan_boxes_filter in Esq, Est.
  assert (Hq : forall k, k ∈ queryId <-> (k < n)%nat /\ in_prev_box prevFrame m k = true).
  { intros k. rewrite Esq, elem_of_scan. unfold in_prev_box, keypoint_in_box, box_contains.
    now rewrite Eq, Eqp. }
  assert (Ht : forall k, k ∈ trainId <-> (k < n)%nat /\ in_curr_box currFrame m k = true).
  { intros k. rewrite Est, elem_of_scan. unfold in_curr_box, keypoint_in_box, box_contains.
    now rewrite Et, Etp. }
  assert (Hv : votes_for prevFrame currFrame n m i j
               = bool_decide (i ∈ queryId /\ j ∈ trainId)).
  { assert (Hiff : votes_for prevFrame currFrame n m i j = true
                   <-> i ∈ queryId /\ j ∈ trainId).
    { unfold votes_for. rewrite !andb_true_iff, !Nat.ltb_lt, Hq, Ht. tauto. }
    destruct (votes_for prevFrame currFrame n m i j); symmetry.
    - apply bool_decide_eq_true_2, Hiff. reflexivity.
    - apply bool_decide_eq_false_2. intros H. apply Hiff in H. discriminate. }
  destruct (bool_decide (queryId ≠ []) && bool_decide (trainId ≠ [])) eqn:Eg.
  - rewrite add_votes_cell, Hv; [reflexivity| |]; subst; apply NoDup_scan.
  - rewrite Hv, bool_decide_eq_false_2; [now rewrite bump_false_id|].
    intros [Hi Hj]. apply andb_false_iff in Eg.
    destruct Eg as [Eg|Eg]; apply bool_decide_eq_false in Eg; apply Eg; intros ->;
      eapply elem_of_nil; eauto.
Qed.

Lemma count_matches_cell prevFrame currFrame (n : nat) matches :
  forall counts counts' (i j : nat),
  count_matches prevFrame currFrame n counts matches = Ok counts' ->
  cell counts' i j
  = (fun v => (v + tally prevFrame currFrame n matches i j)%Z) <$> cell counts i j.
Proof.
  unfold tally.
  induction matches as [|m matches IH]; intros counts counts' i j; simpl.
  - intros [= <-]. destruct (cell counts i j); simpl; [|reflexivity].
    f_equal. lia.
  - destruct (count_match prevFrame currFrame n counts m) as [c1| |] eqn:E; simpl;
      try discriminate.
    intros H. rewrite (IH _ _ i j H), (count_match_cell _ _ _ _ _ _ i j E).
    destruct (cell counts i j) as [v|]; simpl; [|reflexivity]. f_equal.
    destruct (votes_for prevFrame currFrame n m i j); simpl; lia.
Qed.

Lemma increment_shape r c a b counts :
  shape r c counts -> shape r c (increment a b counts).
Proof.
  intros [Hl Hr]. unfold increment, shape. rewrite length_alter. split; [exact Hl|].
  apply Forall_alter; [exact Hr|]. intros row _ Hrow. now rewrite length_alter.
Qed.

Lemma add_votes_shape r c queryId trainId counts :
  shape r c counts -> shape r c (add_votes queryId trainId counts).
Proof.
  unfold add_votes. revert counts.
  induction queryId as [|a q IH]; intros counts H; cbn [foldl]; [exact H|].
  apply IH. clear IH. revert counts H.
  induction trainId as [|b t IH]; intros counts H; cbn [foldl]; [exact H|].
  apply IH. now apply increment_shape.
Qed.

Lemma count_match_shape r c prevFrame currFrame n counts m counts' :
  count_match prevFrame currFrame n counts m = Ok counts' ->
  shape r c counts -> shape r c counts'.
Proof.
  unfold count_match. intros H Hs.
  destruct (vec_index (keypoints prevFrame) (queryIdx m));
    cbn [mbind result_bind] in H; try discriminate.
  destruct (int_Point _); cbn [mbind result_bind] in H; try discriminate.
  destruct (vec_index (keypoints currFrame) (trainIdx m));
    cbn [mbind result_bind] in H; try discriminate.
  destruct (int_Point _); cbn [mbind result_bind] in H; try discriminate.
  destruct (scan_boxes (boundingBoxes prevFrame) _ 0 n);
    cbn [mbind result_bind] in H; try discriminate.
  destruct (scan_boxes (boundingBoxes currFrame) _ 0 n);
    cbn [mbind result_bind] in H; try discriminate.
  injection H as <-. destruct (_ && _); [now apply add_votes_shape | exact Hs].
Qed.

Lemma count_matches_shape r c prevFrame currFrame n matches :
  forall counts counts',
  count_matches prevFrame currFrame n counts matches = Ok counts' ->
  shape r c counts -> shape r c counts'.
Proof.
  induction matches as [|m matches IH]; intros counts counts'; simpl.
  - now intros [= <-].
  - destruct (count_match prevFrame currFrame n counts m) as [c1| |] eqn:E; simpl;
      try discriminate.
    intros H Hs. eapply IH; [exact H|]. eapply count_match_shape; eauto.
Qed.

(** The matrix as the declaration leaves it. *)
Lemma point_count_init_Ok (stack : nat -> Z) (r c : nat) :
  (0 < r)%nat -> (0 < c)%nat ->
  exists counts0,
    point_count_init stack r c = Ok counts0 /\ shape r c counts0 /\
    forall i j, (i < r)%nat -> (j < c)%nat ->
      cell counts0 i j = Some (initial_cell stack i j).
Proof.
  intros Hr Hc. destruct r as [|r]; [lia|]. destruct c as [|c]; [lia|].
  eexists. split; [reflexivity|]. split.
  - split; [simpl; now rewrite length_replicate|].
    constructor; [simpl; now rewrite length_map, length_seq|].
    apply Forall_replicate. apply length_replicate.
  - intros i j Hi Hj. unfold cell, initial_cell.
    destruct i as [|i].
    + change ((?x :: ?l) !! 0%nat) with (Some x). cbn [Nat.eqb andb].
      destruct j as [|j]; [reflexivity|].
      change ((?x :: ?l) !! S j) with (l !! j). cbn [Nat.eqb negb].
      change (map stack (seq 1 c)) with (stack <$> seq 1 c).
      rewrite list_lookup_fmap, lookup_seq_lt by lia. reflexivity.
    + change ((?x :: ?l) !! S i) with (l !! i). cbn [Nat.eqb andb].
      rewrite lookup_replicate_2 by lia. now rewrite lookup_replicate_2 by lia.
Qed.

Lemma point_count_init_undefined (stack : nat -> Z) (r c : nat) :
  r = 0%nat \/ c = 0%nat -> point_count_init stack r c = Undefined.
Proof. intros [-> | ->]; [reflexivity | now destruct r]. Qed.

Lemma point_count_inv stack matches prevFrame currFrame counts :
  point_count stack matches prevFrame currFrame = Ok counts ->
  (0 < length (boundingBoxes prevFrame))%nat /\
  (0 < length (boundingBoxes currFrame))%nat /\
  exists counts0,
    point_count_init stack (length (boundingBoxes prevFrame))
      (length (boundingBoxes currFrame)) = Ok counts0 /\
    count_matches prevFrame currFrame (length (boundingBoxes prevFrame))
      counts0 matches = Ok counts.
Proof.
  unfold point_count.
  destruct (length (boundingBoxes prevFrame)) as [|r] eqn:Er; [discriminate|].
  destruct (length (boundingBoxes currFrame)) as [|c] eqn:Ec; [discriminate|].
  cbn [point_count_init mbind result_bind]. intros H.
  split; [lia|]. split; [lia|]. eauto.
Qed.

Lemma point_count_shape stack matches prevFrame currFrame counts :
  point_count stack matches prevFrame currFrame = Ok counts ->
  shape (length (boundingBoxes prevFrame)) (length (boundingBoxes currFrame)) counts.
Proof.
  intros H. destruct (point_count_inv _ _ _ _ _ H) as (Hr & Hc & counts0 & H0 & Hm).
  destruct (point_count_init_Ok stack _ _ Hr Hc) as (c0 & E0 & Hs & _).
  rewrite H0 in E0. injection E0 as <-.
  eapply count_matches_shape; eauto.
Qed.

Lemma in_prev_box_lt prevFrame m i :
  in_prev_box prevFrame m i = true -> (i < length (boundingBoxes prevFrame))%nat.
Proof.
  unfold in_prev_box, keypoint_in_box.
  destruct (keypoints prevFrame !! _); [|discriminate].
  destruct (boundingBoxes prevFrame !! i) eqn:E; [|discriminate].
  intros _. now apply lookup_lt_Some in E.
Qed.

Lemma count_match_defined prevFrame currFrame (n : nat) counts m :
  keypoints_valid prevFrame currFrame m ->
  (n <= length (boundingBoxes prevFrame))%nat ->
  (n <= length (boundingBoxes currFrame))%nat ->
  exists counts', count_match prevFrame currFrame n counts m = Ok counts'.
Proof.
  intros [Hq Ht] Hp Hc. unfold count_match.
  apply keypoint_converts_read in Hq, Ht.
  destruct Hq as (query & queryPt & -> & Eqp), Ht as (train & trainPt & -> & Etp).
  cbn [mbind result_bind]. rewrite Eqp, Etp. cbn [mbind result_bind].
  destruct (scan_boxes_defined (boundingBoxes prevFrame) queryPt n 0)
    as [queryId ->]; [lia|].
  destruct (scan_boxes_defined (boundingBoxes currFrame) trainPt n 0)
    as [trainId ->]; [lia|].
  cbn [mbind result_bind]. eauto.
Qed.

Lemma vec_index_no_throw {A : Type} (v : list A) (i : Z) (e : exn) :
  vec_index v i <> Throw e.
Proof.
  unfold vec_index. destruct (i <? 0)%Z; [discriminate|].
  destruct (v !! Z.to_nat i); discriminate.
Qed.

Lemma scan_boxes_no_throw boxes p steps (e : exn) : forall from,
  scan_boxes boxes p from steps <> Throw e.
Proof.
  induction steps as [|steps IH]; intros from; simpl; [discriminate|].
  destruct (vec_index boxes (Z.of_nat from)) as [b|e'|] eqn:Eb; simpl;
    [|now apply vec_index_no_throw in Eb|discriminate].
  specialize (IH (S from)).
  destruct (scan_boxes boxes p (S from) steps); simpl; congruence.
Qed.

Lemma int_Point_no_throw (kp : KeyPoint) (e : exn) : int_Point kp <> Throw e.
Proof. destruct (int_Point_outcome kp) as [-> | ->]; discriminate. Qed.

Lemma count_match_no_throw prevFrame currFrame n counts m (e : exn) :
  count_match prevFrame currFrame n counts m <> Throw e.
Proof.
  unfold count_match.
  destruct (vec_index (keypoints prevFrame) (queryIdx m)) as [query|e'|] eqn:Eq;
    cbn [mbind result_bind]; [|now apply vec_index_no_throw in Eq|discriminate].
  destruct (int_Point query) as [queryPt|e'|] eqn:Eqp;
    cbn [mbind result_bind]; [|now apply int_Point_no_throw in Eqp|discriminate].
  destruct (vec_index (keypoints currFrame) (trainIdx m)) as [train|e'|] eqn:Et;
    cbn [mbind result_bind]; [|now apply vec_index_no_throw in Et|discriminate].
  destruct (int_Point train) as [trainPt|e'|] eqn:Etp;
    cbn [mbind result_bind]; [|now apply int_Point_no_throw in Etp|discriminate].
  destruct (scan_boxes (boundingBoxes prevFrame) _ 0 n) as [queryId|e'|] eqn:E1;
    cbn [mbind result_bind]; [|now apply scan_boxes_no_throw in E1|discriminate].
  destruct (scan_boxes (boundingBoxes currFrame) _ 0 n) as [trainId|e'|] eqn:E2;
    cbn [mbind result_bind]; [|now apply scan_boxes_no_throw in E2|discriminate].
  discriminate.
Qed.

Lemma count_matches_no_throw prevFrame currFrame n matches (e : exn) :
  forall counts, count_matches prevFrame currFrame n counts matches <> Throw e.
Proof.
  induction matches as [|m ms IH]; intros counts; simpl; [discriminate|].
  destruct (count_match prevFrame currFrame n counts m) as [c|e'|] eqn:E; simpl;
    [apply IH | now apply count_match_no_throw in E | discriminate].
Qed.

Lemma count_match_undefined prevFrame currFrame counts m :
  ~ keypoints_valid prevFrame currFrame m \/
  (length (boundingBoxes currFrame) < length (boundingBoxes prevFrame))%nat ->
  count_match prevFrame currFrame (length (boundingBoxes prevFrame)) counts m
  = Undefined.
Proof.
  intros H. unfold count_match.
  destruct (vec_index (keypoints prevFrame) (queryIdx m)) as [query|e|] eqn:Eq;
    cbn [mbind result_bind]; [|now apply vec_index_no_throw in Eq|reflexivity].
  destruct (int_Point query) as [queryPt|e|] eqn:Eqp;
    cbn [mbind result_bind]; [|now apply int_Point_no_throw in Eqp|reflexivity].
  destruct (vec_index (keypoints currFrame) (trainIdx m)) as [train|e|] eqn:Et;
    cbn [mbind result_bind]; [|now apply vec_index_no_throw in Et|reflexivity].
  destruct (int_Point train) as [trainPt|e|] eqn:Etp;
    cbn [mbind result_bind]; [|now apply int_Point_no_throw in Etp|reflexivity].
  destruct H as [H|H].
  { exfalso. apply H. split; apply keypoint_converts_read; eauto. }
  destruct (scan_boxes_defined (boundingBoxes prevFrame) queryPt
              (length (boundingBoxes prevFrame)) 0) as [queryId ->]; [lia|].
  cbn [mbind result_bind]. rewrite scan_boxes_undefined by lia. reflexivity.
Qed.

Lemma matchBoundingBoxes_inv stack matches bbBestMatches prevFrame currFrame best :
  matchBoundingBoxes stack matches bbBestMatches prevFrame currFrame = Ok best ->
  exists counts,
    point_count stack matches prevFrame currFrame = Ok counts /\
    best = pick_best counts 0 bbBestMatches.
Proof.
  unfold matchBoundingBoxes.
  destruct (point_count stack matches prevFrame currFrame) as [counts| |];
    cbn [mbind result_bind]; try discriminate.
  intros [= <-]. eauto.
Qed.

Lemma pick_best_row counts bb (i : nat) row :
  counts !! i = Some row ->
  pick_best counts 0 bb !! Z.of_nat i = Some (Z.of_nat (id_max_from row 0 0%Z 0)).
Proof.
  intros H. rewrite pick_best_lookup.
  replace (Z.of_nat 0 <=? Z.of_nat i)%Z with true by (symmetry; apply Z.leb_le; lia).
  now rewrite Nat2Z.id, Nat.sub_0_r, H.
Qed.

(** C1: two boxes before and three now, with a single match that links the
    second previous box with the third current box.  Whatever the matrix
    holds before the loop, the match casts no vote: the scan of the current
    boxes stops after the second, so the loop leaves every cell as it was,
    where the scan up to the current frame's own count adds one to the cell
    of the two boxes.  So, whatever the stack held, the second previous box
    is matched with current box 0 instead of current box 2.  With the frames
    exchanged the scan reads a box that does not exist. *)
Lemma point_count_misses_current_box (a b c d e f : Z) (stack : nat -> Z) :
  count_matches prevFrame_example currFrame_example 2
    [[a; b; c]; [d; e; f]] [match_example]
  = Ok [[a; b; c]; [d; e; f]] /\
  count_matches_per_frame prevFrame_example currFrame_example
    [[a; b; c]; [d; e; f]] [match_example]
  = Ok [[a; b; c]; [d; e; Z.succ f]] /\
  point_count stack [match_example] prevFrame_example currFrame_example
  = point_count_init stack 2 3 /\
  (exists best,
     matchBoundingBoxes stack [match_example] ∅ prevFrame_example currFrame_example
     = Ok best /\ best !! 1%Z = Some 0%Z) /\
  (exists best,
     matchBoundingBoxes_per_frame stack [match_example] ∅ prevFrame_example
       currFrame_example = Ok best /\ best !! 1%Z = Some 2%Z) /\
  matchBoundingBoxes stack [match_example] ∅ currFrame_example prevFrame_example
  = Undefined.
Proof.
  split; [reflexivity|]. split; [reflexivity|]. split; [reflexivity|].
  split; [|split].
  - eexists. split; [reflexivity|]. reflexivity.
  - eexists. split; [reflexivity|]. reflexivity.
  - reflexivity.
Qed.
(** * Further properties of the code *)

(** ** matchBoundingBoxes: the votes, the outcome and the choice *)

(** X1: the votes: after the loop [point_count[i][j]] holds what it held
    before the loop, which is zero except in the first row after its first
    column, where the declaration writes nothing, plus the number of matches
    whose previous keypoint is in previous box [i] and whose current keypoint
    is in current box [j]; for the current boxes at positions from the
    previous frame's box count on, nothing is added. *)
Theorem point_count_counts_linking_matches
    (stack : nat -> Z) (matches : list DMatch) (prevFrame currFrame : DataFrame)
    (counts : list (list Z)) (i j : nat) :
  point_count stack matches prevFrame currFrame = Ok counts ->
  (i < length (boundingBoxes prevFrame))%nat ->
  (j < length (boundingBoxes currFrame))%nat ->
  cell counts i j
  = Some (initial_cell stack i j
          + (if (j <? length (boundingBoxes prevFrame))%nat
             then linking prevFrame currFrame matches i j else 0))%Z.
Proof.
  intros H Hi Hj.
  destruct (point_count_inv _ _ _ _ _ H) as (Hr & Hc & counts0 & H0 & Hm).
  destruct (point_count_init_Ok stack _ _ Hr Hc) as (c0 & E0 & _ & Hcell).
  rewrite H0 in E0. injection E0 as <-.
  rewrite (count_matches_cell _ _ _ _ _ _ i j Hm), (Hcell i j Hi Hj).
  simpl. do 2 f_equal. unfold tally, linking.
  destruct (j <? length (boundingBoxes prevFrame))%nat eqn:E.
  - do 2 f_equal. apply List.filter_ext. intros m. unfold votes_for.
    rewrite E, andb_true_r.
    destruct (in_prev_box prevFrame m i) eqn:E1; [|reflexivity].
    apply in_prev_box_lt, Nat.ltb_lt in E1. rewrite E1. now rewrite andb_true_r.
  - rewrite (List.filter_ext _ (fun _ => false)), filter_false; [reflexivity|].
    intros m. unfold votes_for. rewrite E. apply andb_false_r.
Qed.


Lemma point_count_counts_linking_matches_witness :
  cell [[1; 5]; [0; 2]]%Z 1 1
  = Some (initial_cell stack_of_fives 1 1
          + (if (1 <? length (boundingBoxes prevFrame_two_boxes))%nat
             then linking prevFrame_two_boxes currFrame_two_boxes matches_two_boxes 1 1
             else 0))%Z.
Proof.
  apply (point_count_counts_linking_matches stack_of_fives matches_two_boxes
           prevFrame_two_boxes currFrame_two_boxes [[1; 5]; [0; 2]]%Z 1 1);
    [reflexivity | simpl; lia | simpl; lia].
Defined.

(** X2: when the call is defined.  With no box in one of the frames it is
    not: the initialiser of [point_count] is stored past the end of an array
    without elements.  With a box in each frame it is defined when there is
    no match, and with matches exactly when every keypoint of a match can be
    read and converted to an integer point and the current frame has at
    least as many boxes as the previous one; otherwise the call reads a
    keypoint or a box that does not exist, or converts a coordinate that is
    no [int].  It never throws. *)
Theorem matchBoundingBoxes_defined
    (stack : nat -> Z) (matches : list DMatch) (bbBestMatches : gmap Z Z)
    (prevFrame currFrame : DataFrame) :
  let prev_bb_cnt := length (boundingBoxes prevFrame) in
  let curr_bb_cnt := length (boundingBoxes currFrame) in
  (prev_bb_cnt = 0%nat \/ curr_bb_cnt = 0%nat ->
   matchBoundingBoxes stack matches bbBestMatches prevFrame currFrame = Undefined) /\
  ((0 < prev_bb_cnt)%nat -> (0 < curr_bb_cnt)%nat ->
   matches = [] \/
   ((prev_bb_cnt <= curr_bb_cnt)%nat /\
    Forall (keypoints_valid prevFrame currFrame) matches) ->
   exists best,
     matchBoundingBoxes stack matches bbBestMatches prevFrame currFrame = Ok best) /\
  (matches <> [] ->
   (curr_bb_cnt < prev_bb_cnt)%nat \/
   Exists (fun m => ~ keypoints_valid prevFrame currFrame m) matches ->
   matchBoundingBoxes stack matches bbBestMatches prevFrame currFrame = Undefined) /\
  (forall e,
     matchBoundingBoxes stack matches bbBestMatches prevFrame currFrame <> Throw e).
Proof.
  intros n c. unfold matchBoundingBoxes, point_count. fold n c.
  split; [|split; [|split]].
  - intros H. now rewrite (point_count_init_undefined stack n c H).
  - intros Hn Hc H.
    destruct (point_count_init_Ok stack n c Hn Hc) as (l & -> & _).
    cbn [mbind result_bind].
    destruct H as [->|[Hle Hall]]; [cbn [count_matches mbind result_bind]; eauto|].
    assert (exists counts, count_matches prevFrame currFrame n l matches = Ok counts)
      as [counts ->]; [|cbn [mbind result_bind]; eauto].
    revert l. induction Hall as [|m ms Hm _ IH]; intros l; simpl; [eauto|].
    destruct (count_match_defined prevFrame currFrame n l m Hm) as [c1 ->];
      [subst n; lia | exact Hle |].
    cbn [mbind result_bind]. apply IH.
  - intros Hne H.
    destruct (point_count_init stack n c) as [l|e|] eqn:E0; cbn [mbind result_bind];
      [|destruct n, c; discriminate|reflexivity].
    assert (count_matches prevFrame currFrame n l matches = Undefined) as ->;
      [|reflexivity].
    destruct H as [Hlt|Hex].
    + destruct matches as [|m ms]; [congruence|]. simpl. subst n.
      rewrite count_match_undefined by (right; exact Hlt). reflexivity.
    + clear Hne E0. revert l. induction Hex as [m ms Hm|m ms _ IH]; intros l; simpl.
      * subst n. rewrite count_match_undefined by (left; exact Hm). reflexivity.
      * destruct (count_match prevFrame currFrame n l m) as [c1|e|] eqn:E;
          cbn [mbind result_bind];
          [apply IH | now apply count_match_no_throw in E | reflexivity].
  - intros e.
    destruct (point_count_init stack n c) as [l|e'|] eqn:E0; cbn [mbind result_bind];
      [|destruct n, c; discriminate|discriminate].
    destruct (count_matches prevFrame currFrame n l matches) as [c1|e'|] eqn:E;
      cbn [mbind result_bind];
      [discriminate | now apply count_matches_no_throw in E | discriminate].
Qed.

Lemma matchBoundingBoxes_defined_witness :
  matchBoundingBoxes stack_of_fives [] ∅ frame_without_boxes currFrame_two_boxes
  = Undefined /\
  (exists best,
     matchBoundingBoxes stack_of_fives matches_two_boxes ∅ prevFrame_two_boxes
       currFrame_two_boxes = Ok best) /\
  matchBoundingBoxes stack_of_fives [match_example] ∅ currFrame_example
    prevFrame_example = Undefined.
Proof.
  split; [|split].
  - exact (proj1 (matchBoundingBoxes_defined stack_of_fives [] ∅ frame_without_boxes
                    currFrame_two_boxes) (or_introl eq_refl)).
  - refine (proj1 (proj2 (matchBoundingBoxes_defined stack_of_fives matches_two_boxes ∅
                            prevFrame_two_boxes currFrame_two_boxes)) _ _ _);
      [simpl; lia | simpl; lia |].
    right. split; [simpl; lia|].
    repeat (apply Forall_cons_2 || apply Forall_nil_2);
      (split; (split; [unfold valid_index; simpl; lia |
                       intros kp E; simpl in E; injection E as <-;
                       split; split; reflexivity])).
  - refine (proj1 (proj2 (proj2 (matchBoundingBoxes_defined stack_of_fives
                                   [match_example] ∅ currFrame_example
                                   prevFrame_example))) _ _);
      [discriminate | left; simpl; lia].
Defined.

(** X3: the choice for a previous box: the position of the highest value of its
    row of [point_count] when that value is positive, the first such position
    when several columns hold it; position 0 when no value of the row is
    positive.  (In the first row the values include what the stack held.) *)
Theorem matchBoundingBoxes_first_maximum
    (stack : nat -> Z) (matches : list DMatch) (bbBestMatches : gmap Z Z)
    (prevFrame currFrame : DataFrame) (best : gmap Z Z) :
  matchBoundingBoxes stack matches bbBestMatches prevFrame currFrame = Ok best ->
  exists counts,
    point_count stack matches prevFrame currFrame = Ok counts /\
    forall (i : nat) (row : list Z), counts !! i = Some row ->
      exists j : nat,
        best !! Z.of_nat i = Some (Z.of_nat j) /\
        ((Forall (fun c => (c <= 0)%Z) row /\ j = 0%nat) \/
         (exists v, row !! j = Some v /\ (0 < v)%Z /\
                    Forall (fun c => (c <= v)%Z) row /\
                    forall (k : nat) (c : Z),
                      (k < j)%nat -> row !! k = Some c -> (c < v)%Z)).
Proof.
  intros H. destruct (matchBoundingBoxes_inv _ _ _ _ _ _ H) as (counts & Hc & ->).
  exists counts. split; [exact Hc|]. intros i row Hrow.
  exists (id_max_from row 0 0%Z 0). split; [now apply pick_best_row|].
  destruct (id_max_from_spec row 0 0%Z 0) as [[Hall E]|(p & v & E & Hp & Hv & Hall & Hlt)].
  - left. now split.
  - right. exists v. rewrite E. simpl. auto.
Qed.

Lemma matchBoundingBoxes_first_maximum_witness :
  exists counts,
    point_count stack_of_fives matches_two_boxes prevFrame_two_boxes
      currFrame_two_boxes = Ok counts /\
    forall (i : nat) (row : list Z), counts !! i = Some row ->
      exists j : nat,
        ({[0%Z := 1%Z; 1%Z := 1%Z]} : gmap Z Z) !! Z.of_nat i = Some (Z.of_nat j) /\
        ((Forall (fun c => (c <= 0)%Z) row /\ j = 0%nat) \/
         (exists v, row !! j = Some v /\ (0 < v)%Z /\
                    Forall (fun c => (c <= v)%Z) row /\
                    forall (k : nat) (c : Z),
                      (k < j)%nat -> row !! k = Some c -> (c < v)%Z)).
Proof.
  apply (matchBoundingBoxes_first_maximum stack_of_fives matches_two_boxes ∅
           prevFrame_two_boxes currFrame_two_boxes).
  reflexivity.
Defined.

(** X4: the map after the call: one entry for each previous box, holding 0 or a
    position of the current frame; every other entry as it was. *)
Theorem matchBoundingBoxes_entries
    (stack : nat -> Z) (matches : list DMatch) (bbBestMatches : gmap Z Z)
    (prevFrame currFrame : DataFrame) (best : gmap Z Z) :
  matchBoundingBoxes stack matches bbBestMatches prevFrame currFrame = Ok best ->
  (forall i : nat, (i < length (boundingBoxes prevFrame))%nat ->
     exists j : nat,
       best !! Z.of_nat i = Some (Z.of_nat j) /\
       (j = 0%nat \/ (j < length (boundingBoxes currFrame))%nat)) /\
  (forall key : Z,
     (key < 0 \/ Z.of_nat (length (boundingBoxes prevFrame)) <= key)%Z ->
     best !! key = bbBestMatches !! key).
Proof.
  intros H. destruct (matchBoundingBoxes_inv _ _ _ _ _ _ H) as (counts & Hc & ->).
  destruct (point_count_shape _ _ _ _ _ Hc) as [Hlen Hrows].
  split.
  - intros i Hi.
    destruct (lookup_lt_is_Some_2 counts i ltac:(lia)) as [row Hrow].
    exists (id_max_from row 0 0%Z 0). split; [now apply pick_best_row|].
    destruct (id_max_from_spec row 0 0%Z 0) as [[_ E]|(p & v & E & Hp & _)].
    + now left.
    + right. rewrite E. simpl. apply lookup_lt_Some in Hp.
      rewrite Forall_lookup in Hrows. now rewrite <- (Hrows i row Hrow).
  - intros key Hkey. rewrite pick_best_lookup.
    destruct (Z.of_nat 0 <=? key)%Z eqn:E; [|reflexivity].
    apply Z.leb_le in E. rewrite lookup_ge_None_2; [reflexivity|]. lia.
Qed.

Lemma matchBoundingBoxes_entries_witness :
  (forall i : nat, (i < 2)%nat ->
     exists j : nat,
       ({[0%Z := 1%Z; 1%Z := 1%Z]} : gmap Z Z) !! Z.of_nat i = Some (Z.of_nat j) /\
       (j = 0%nat \/ (j < 2)%nat)) /\
  (forall key : Z, (key < 0 \/ 2 <= key)%Z ->
     ({[0%Z := 1%Z; 1%Z := 1%Z]} : gmap Z Z) !! key = (∅ : gmap Z Z) !! key).
Proof.
  apply (matchBoundingBoxes_entries stack_of_fives matches_two_boxes ∅
           prevFrame_two_boxes currFrame_two_boxes).
  reflexivity.
Defined.

(** X5: a previous box that holds the previous keypoint of no match, so every
    previous box when there is no match at all, is matched with position 0
    when it is not the first box.  The first box is matched with position 0
    when the cells of its row that the declaration leaves unwritten hold
    nothing positive, and otherwise with the first position of their largest
    value. *)
Theorem matchBoundingBoxes_unlinked_box
    (stack : nat -> Z) (matches : list DMatch) (bbBestMatches : gmap Z Z)
    (prevFrame currFrame : DataFrame) (best : gmap Z Z) (i : nat) :
  matchBoundingBoxes stack matches bbBestMatches prevFrame currFrame = Ok best ->
  (i < length (boundingBoxes prevFrame))%nat ->
  Forall (fun m => in_prev_box prevFrame m i = false) matches ->
  let unwritten j := (0 < j < length (boundingBoxes currFrame))%nat in
  (i <> 0%nat -> best !! Z.of_nat i = Some 0%Z) /\
  (i = 0%nat -> (forall j, unwritten j -> (stack j <= 0)%Z) ->
   best !! 0%Z = Some 0%Z) /\
  (i = 0%nat -> (exists j, unwritten j /\ (0 < stack j)%Z) ->
   exists j, unwritten j /\ best !! 0%Z = Some (Z.of_nat j) /\
     (forall j', unwritten j' -> (stack j' <= stack j)%Z) /\
     (forall j', unwritten j' -> (j' < j)%nat -> (stack j' < stack j)%Z)).
Proof.
  intros H Hi Hno unwritten.
  destruct (matchBoundingBoxes_inv _ _ _ _ _ _ H) as (counts & Hc & ->).
  destruct (point_count_shape _ _ _ _ _ Hc) as [Hlen Hrows].
  destruct (lookup_lt_is_Some_2 counts i ltac:(lia)) as [row Hrow].
  assert (Hrowlen : length row = length (boundingBoxes currFrame)).
  { rewrite Forall_lookup in Hrows. exact (Hrows i row Hrow). }
  assert (Hcells : forall j, (j < length (boundingBoxes currFrame))%nat ->
                    row !! j = Some (initial_cell stack i j)).
  { intros j Hj.
    destruct (point_count_inv _ _ _ _ _ Hc) as (Hr & Hcc & counts0 & H0 & Hm).
    destruct (point_count_init_Ok stack _ _ Hr Hcc) as (c0 & E0 & _ & Hcell).
    rewrite H0 in E0. injection E0 as <-.
    pose proof (count_matches_cell _ _ _ _ _ _ i j Hm) as Hcj.
    rewrite (Hcell i j Hi Hj) in Hcj. unfold cell in Hcj. rewrite Hrow in Hcj.
    rewrite Hcj. cbn [fmap option_fmap option_map]. f_equal.
    unfold tally.
    rewrite (List.filter_ext_in _ (fun _ => false)), filter_false; [simpl; lia|].
    intros m Hm'. unfold votes_for.
    rewrite Forall_forall in Hno. apply list_elem_of_In in Hm'.
    now rewrite (Hno m Hm'). }
  assert (Hinit : forall j, unwritten j -> initial_cell stack 0 j = stack j).
  { intros j [Hj _]. unfold initial_cell. destruct j; [lia|reflexivity]. }
  pose proof (pick_best_row counts bbBestMatches i row Hrow) as Hbest.
  destruct (id_max_from_spec row 0 0%Z 0)
    as [[Hall E]|(p & v & E & Hp & Hv & Hall & Hlt)]; rewrite E in Hbest;
    simpl in Hbest.
  - split; [intros _; exact Hbest|]. split; [intros -> _; exact Hbest|].
    intros -> (j & Hj & Hpos). exfalso.
    rewrite Forall_lookup in Hall.
    pose proof (Hall j _ (Hcells j (proj2 Hj))) as Hle. simpl in Hle.
    rewrite (Hinit j Hj) in Hle. lia.
  - assert (Hpc : (p < length (boundingBoxes currFrame))%nat).
    { rewrite <- Hrowlen. now apply lookup_lt_Some in Hp. }
    rewrite (Hcells p Hpc) in Hp. injection Hp as <-.
    split; [|split].
    + intros Hne. exfalso. unfold initial_cell in Hv.
      destruct i; [lia|]. simpl in Hv. lia.
    + intros -> Hle. exfalso. destruct p as [|p]; [unfold initial_cell in Hv; simpl in Hv; lia|].
      assert (Hu : unwritten (S p)) by (unfold unwritten; lia).
      rewrite (Hinit _ Hu) in Hv. specialize (Hle _ Hu). lia.
    + intros -> _. destruct p as [|p]; [unfold initial_cell in Hv; simpl in Hv; lia|].
      assert (Hu : unwritten (S p)) by (unfold unwritten; lia).
      exists (S p). split; [exact Hu|]. split; [exact Hbest|].
      rewrite (Hinit _ Hu) in Hall, Hlt. rewrite Forall_lookup in Hall. split.
      * intros j' Hj'. pose proof (Hall j' _ (Hcells j' (proj2 Hj'))) as Hle.
        simpl in Hle. now rewrite (Hinit j' Hj') in Hle.
      * intros j' Hj' Hlt'. pose proof (Hlt j' _ Hlt' (Hcells j' (proj2 Hj'))) as Hle.
        now rewrite (Hinit j' Hj') in Hle.
Qed.

Lemma matchBoundingBoxes_unlinked_box_witness :
  ({[0%Z := 1%Z; 1%Z := 0%Z]} : gmap Z Z) !! 1%Z = Some 0%Z /\
  exists j, (0 < j < 2)%nat /\
    ({[0%Z := 1%Z; 1%Z := 0%Z]} : gmap Z Z) !! 0%Z = Some (Z.of_nat j).
Proof.
  split.
  - refine (proj1 (matchBoundingBoxes_unlinked_box stack_of_fives [] ∅
                     prevFrame_two_boxes currFrame_two_boxes _ 1 _ _ _) _);
      [reflexivity | simpl; lia | apply Forall_nil_2 | lia].
  - destruct (proj2 (proj2 (matchBoundingBoxes_unlinked_box stack_of_fives [] ∅
                     prevFrame_two_boxes currFrame_two_boxes
                     {[0%Z := 1%Z; 1%Z := 0%Z]} 0 eq_refl ltac:(simpl; lia)
                     (Forall_nil_2 _))) eq_refl)
      as (j & Hj & Hb & _).
    + exists 1%nat. split; [simpl; lia | reflexivity].
    + exists j. split; [exact Hj | exact Hb].
Defined.
(** ** clusterLidarWithROI: shrink factor, untouched fields, counts, outcome *)

Lemma to_int_inject_Z (z : Z) : is_int z -> to_int (inject_Z z) = Ok z.
Proof.
  intros H. unfold to_int. rewrite d2i_inject_Z.
  now rewrite (proj2 (in_int_is_int z) H).
Qed.

Lemma shrunk_start_zero (x w : Z) :
  is_int x -> (shrunk_start 0 x w == inject_Z x)%Q.
Proof.
  intros [Hlo Hhi]. unfold shrunk_start.
  assert (E1 : to_float (0 * to_float (inject_Z w)) = 0%Q)
    by (apply round_nearest_zero; ring).
  rewrite E1.
  assert (E2 : to_double (0 / 2) = 0%Q) by (apply round_nearest_zero; reflexivity).
  rewrite E2. unfold to_double.
  transitivity (round_nearest 53 (-1074) (inject_Z x));
    [apply round_nearest_proper; ring|].
  apply round_nearest_Z; [lia | lia |].
  unfold INT_MIN, INT_MAX in *.
  assert (2 ^ 31 <= 2 ^ 53)%Z by (apply Z.pow_le_mono_r; lia). lia.
Qed.

Lemma shrunk_length_zero (w : Z) :
  (Z.abs w <= 2 ^ 24)%Z -> (shrunk_length 0 w == inject_Z w)%Q.
Proof.
  intros Hw. unfold shrunk_length, to_float.
  assert (E1 : (round_nearest 24 (-149) (1 - 0) == 1)%Q).
  { transitivity (round_nearest 24 (-149) (inject_Z 1));
      [apply round_nearest_proper; reflexivity|].
    rewrite round_nearest_Z by lia. reflexivity. }
  assert (Ew : (round_nearest 24 (-149) (inject_Z w) == inject_Z w)%Q)
    by (apply round_nearest_Z; lia).
  transitivity (round_nearest 24 (-149) (inject_Z w)); [|exact Ew].
  apply round_nearest_proper. rewrite E1, Ew. ring.
Qed.

(** X6: with a shrink factor of 0 the regions are not shrunk, as long as
    their width and height are numbers a [float] holds exactly. *)
Theorem smallerBox_zero (r : Rect) :
  is_int (rx r) -> is_int (ry r) ->
  (Z.abs (rwidth r) <= 2 ^ 24)%Z -> (Z.abs (rheight r) <= 2 ^ 24)%Z ->
  smallerBox 0 r = Ok r.
Proof.
  intros Hx Hy Hw Hh. destruct r as [x y w h]. cbn [rx ry rwidth rheight] in *.
  assert (H24 : (2 ^ 24 <= INT_MAX /\ INT_MIN <= - 2 ^ 24)%Z)
    by (unfold INT_MIN, INT_MAX; lia).
  unfold smallerBox. cbn [rx ry rwidth rheight].
  fold (shrunk_start 0 x w). fold (shrunk_start 0 y h).
  fold (shrunk_length 0 w). fold (shrunk_length 0 h).
  rewrite (to_int_proper _ _ (shrunk_start_zero x w Hx)), (to_int_inject_Z x Hx).
  cbn [mbind result_bind].
  rewrite (to_int_proper _ _ (shrunk_start_zero y h Hy)), (to_int_inject_Z y Hy).
  cbn [mbind result_bind].
  rewrite (to_int_proper _ _ (shrunk_length_zero w Hw)), (to_int_inject_Z w)
    by (unfold is_int; lia).
  cbn [mbind result_bind].
  rewrite (to_int_proper _ _ (shrunk_length_zero h Hh)), (to_int_inject_Z h)
    by (unfold is_int; lia).
  reflexivity.
Qed.

Lemma smallerBox_zero_witness :
  smallerBox 0 (mkRect 500 100 200 200) = Ok (mkRect 500 100 200 200).
Proof.
  apply (smallerBox_zero (mkRect 500 100 200 200));
    unfold is_int, INT_MIN, INT_MAX; simpl; lia.
Defined.

(** A width that no [float] holds is changed even by a shrink factor of 0. *)
Example smallerBox_zero_wide :
  smallerBox 0 (mkRect 0 0 16777217 1) = Ok (mkRect 0 0 16777216 1).
Proof. vm_compute. reflexivity. Qed.

Lemma contains_empty_width (r : Rect) (p : Point) :
  (rwidth r <= 0)%Z \/ (rheight r <= 0)%Z -> contains r p = false.
Proof.
  intros H. unfold contains. apply not_true_iff_false. intros E.
  rewrite !andb_true_iff in E. destruct E as [[[E1 E2] E3] E4].
  apply Z.leb_le in E1, E3. apply Z.ltb_lt in E2, E4. lia.
Qed.

Lemma smallerBox_one_empty (r box : Rect) (p : Point) :
  smallerBox 1 r = Ok box -> contains box p = false.
Proof.
  intros H. apply smallerBox_spec in H.
  destruct H as (_ & _ & Hw & _). apply integer_part_unique in Hw.
  apply contains_empty_width. left. rewrite Hw.
  unfold shrunk_length, to_float.
  rewrite (round_nearest_zero 24 (-149) (1 - 1)) by reflexivity.
  rewrite (round_nearest_zero 24 (-149) (_ * 0)) by ring.
  reflexivity.
Qed.

Lemma enclosingBoxes_one (boxes : list BoundingBox) (p : Point) : forall i found,
  enclosingBoxes 1 i boxes p = Ok found -> found = [].
Proof.
  induction boxes as [|b boxes IH]; intros i found; simpl; [now intros [= <-]|].
  destruct (smallerBox 1 (roi b)) as [box| |] eqn:Eb; cbn [mbind result_bind];
    try discriminate.
  destruct (enclosingBoxes 1 (S i) boxes p) as [rest| |] eqn:Er;
    cbn [mbind result_bind]; try discriminate.
  rewrite (smallerBox_one_empty _ _ p Eb). intros [= <-]. now apply (IH (S i)).
Qed.

(** X7: with a shrink factor of 1 every shrunk region is empty: no point is
    appended to any box. *)
Theorem clusterLidarWithROI_shrink_one
    (P R RT : Mat) (points : list LidarPoint) (boxes boxes' : list BoundingBox) :
  clusterLidarWithROI 1 P R RT boxes points = Ok boxes' -> boxes' = boxes.
Proof.
  revert boxes. induction points as [|p points IH]; intros boxes; simpl.
  - now intros [= <-].
  - destruct (project P R RT p) as [pix| |]; cbn [mbind result_bind];
      try discriminate.
    unfold attach.
    destruct (enclosingBoxes 1 0 boxes pix) as [found| |] eqn:E;
      cbn [mbind result_bind]; try discriminate.
    apply enclosingBoxes_one in E. subst found. apply IH.
Qed.

(** X8: a run over a concatenation is the run over the first part followed by
    the run over the second. *)
Theorem clusterLidarWithROI_app
    (shrinkFactor : Q) (P R RT : Mat) (points1 points2 : list LidarPoint)
    (boxes : list BoundingBox) :
  clusterLidarWithROI shrinkFactor P R RT boxes (points1 ++ points2)
  = (boxes1 ← clusterLidarWithROI shrinkFactor P R RT boxes points1;
     clusterLidarWithROI shrinkFactor P R RT boxes1 points2).
Proof.
  revert boxes. induction points1 as [|p points1 IH]; intros boxes; simpl.
  - reflexivity.
  - destruct (project P R RT p) as [pix| |]; cbn [mbind result_bind];
      try reflexivity.
    destruct (attach shrinkFactor boxes pix p) as [boxes1| |];
      cbn [mbind result_bind]; try reflexivity.
    apply IH.
Qed.

(** X9: a run changes nothing but [lidarPoints]: the boxes are as many as before,
    each with its [boxID], [roi] and [kptMatches]. *)
Theorem clusterLidarWithROI_frame
    (shrinkFactor : Q) (P R RT : Mat) (points : list LidarPoint)
    (boxes boxes' : list BoundingBox) :
  clusterLidarWithROI shrinkFactor P R RT boxes points = Ok boxes' ->
  length boxes' = length boxes /\
  forall k b', boxes' !! k = Some b' ->
    exists b, boxes !! k = Some b /\
      boxID b' = boxID b /\ roi b' = roi b /\ kptMatches b' = kptMatches b.
Proof.
  intros H.
  destruct (clusterLidarWithROI_result shrinkFactor P R RT points boxes boxes' H)
    as [Hroi Hk].
  assert (Hlen : length boxes' = length boxes).
  { rewrite <- (length_map roi boxes'), Hroi. apply length_map. }
  split; [exact Hlen|]. intros k b' Hb'.
  destruct (lookup_lt_is_Some_2 boxes k) as [b Hb].
  { rewrite <- Hlen. now apply lookup_lt_Some in Hb'. }
  destruct (Hk k b Hb) as (b1 & Hb1 & Hi & Hr & Hm & _).
  exists b. rewrite Hb' in Hb1. injection Hb1 as <-. auto.
Qed.

Lemma total_alter_push (p : LidarPoint) (boxes : list BoundingBox) : forall k,
  (k < length boxes)%nat ->
  total_lidarPoints (alter (push_lidarPoint p) k boxes)
  = S (total_lidarPoints boxes).
Proof.
  induction boxes as [|b boxes IH]; intros k Hk; simpl in Hk; [lia|].
  destruct k as [|k]; cbn [alter list_alter total_lidarPoints foldr].
  - cbn [push_lidarPoint lidarPoints]. rewrite length_app. simpl. lia.
  - fold (total_lidarPoints (list_alter (push_lidarPoint p) k boxes)).
    change (list_alter (push_lidarPoint p) k boxes)
      with (alter (push_lidarPoint p) k boxes).
    rewrite IH by lia. fold (total_lidarPoints boxes). lia.
Qed.

Lemma total_attach shrinkFactor boxes pix p boxes1 :
  attach shrinkFactor boxes pix p = Ok boxes1 ->
  total_lidarPoints boxes1
  = (total_lidarPoints boxes
     + if bool_decide (length (enclosing shrinkFactor 0 boxes pix) = 1%nat)
       then 1 else 0)%nat.
Proof.
  rewrite attach_shrunk. destruct (regions_convert _ _); [|discriminate].
  intros [= <-].
  destruct (enclosing shrinkFactor 0 boxes pix) as [|k [|k' l]] eqn:E; simpl.
  - lia.
  - rewrite total_alter_push; [lia|].
    assert (Hk : k ∈ enclosing shrinkFactor 0 boxes pix)
      by (rewrite E; apply list_elem_of_here).
    apply elem_of_enclosing in Hk. destruct Hk as (_ & b & Hb & _).
    rewrite Nat.sub_0_r in Hb. now apply lookup_lt_Some in Hb.
  - lia.
Qed.

Lemma attached_somewhere_roi shrinkFactor P R RT boxes boxes' p :
  map roi boxes = map roi boxes' ->
  attached_somewhere shrinkFactor P R RT boxes p
  = attached_somewhere shrinkFactor P R RT boxes' p.
Proof.
  intros H. unfold attached_somewhere. destruct (project P R RT p); try reflexivity.
  now rewrite (enclosingBoxes_roi shrinkFactor 0 boxes boxes' a H).
Qed.

(** X10: no point is stored twice: the boxes together gain exactly one entry for
    each point whose pixel is in exactly one shrunk region. *)
Theorem clusterLidarWithROI_total
    (shrinkFactor : Q) (P R RT : Mat) (points : list LidarPoint)
    (boxes boxes' : list BoundingBox) :
  clusterLidarWithROI shrinkFactor P R RT boxes points = Ok boxes' ->
  total_lidarPoints boxes'
  = (total_lidarPoints boxes
     + length (List.filter (attached_somewhere shrinkFactor P R RT boxes) points))%nat
  /\ (total_lidarPoints boxes' <= total_lidarPoints boxes + length points)%nat.
Proof.
  intros H.
  assert (E : total_lidarPoints boxes'
    = (total_lidarPoints boxes
       + length (List.filter (attached_somewhere shrinkFactor P R RT boxes) points))%nat).
  { revert boxes H. induction points as [|p points IH]; intros boxes; simpl.
    - intros [= <-]. lia.
    - destruct (project P R RT p) as [pix| |] eqn:Ep; cbn [mbind result_bind];
        try discriminate.
      destruct (attach shrinkFactor boxes pix p) as [boxes1| |] eqn:Ea;
        cbn [mbind result_bind]; try discriminate.
      intros H. rewrite (IH _ H), (total_attach _ _ _ _ _ Ea).
      rewrite (List.filter_ext _ _
                 (fun q => attached_somewhere_roi shrinkFactor P R RT _ _ q
                             (attach_roi shrinkFactor boxes pix p boxes1 Ea))).
      unfold attached_somewhere at 2. rewrite Ep, enclosingBoxes_shrunk.
      rewrite attach_shrunk in Ea.
      destruct (regions_convert shrinkFactor boxes); [|discriminate].
      destruct (bool_decide _); simpl; lia. }
  split; [exact E|]. rewrite E.
  pose proof (List.filter_length_le
                (attached_somewhere shrinkFactor P R RT boxes) points). lia.
Qed.

Section LidarOutcome.
Local Open Scope Q_scope.

Lemma project_mismatch (P R RT : Mat) (p : LidarPoint) :
  cols P <> rows R -> project P R RT p = Throw cv_Exception.
Proof.
  intros H. unfold project, Mat_mul.
  replace (cols P =? rows R)%nat with false by (symmetry; now apply Nat.eqb_neq).
  reflexivity.
Qed.

Lemma regions_convert_shrunk_region (shrinkFactor : Q) (boxes : list BoundingBox) :
  regions_convert shrinkFactor boxes = true <->
  Forall (fun b => exists r', shrunk_region shrinkFactor (roi b) r') boxes.
Proof.
  unfold regions_convert. rewrite forallb_forall, Forall_forall. split.
  - intros H b Hb. exists (shrunk shrinkFactor (roi b)).
    apply shrunk_region_shrunk. split; [|reflexivity].
    apply H. now apply list_elem_of_In.
  - intros H b Hb. apply list_elem_of_In in Hb. destruct (H b Hb) as [r' Hr].
    now apply shrunk_region_shrunk in Hr.
Qed.

(** X11: the outcome of a run.  With calibration matrices of the right sizes
    the run returns when every point has a pixel and, if there is a point,
    every box has a shrunk region made of [int]s.  It is undefined when a
    point has a zero homogeneous scale or an image coordinate whose integer
    part is no [int], and when there is a point and the shrunk region of a
    box is not made of [int]s.  With a projection matrix that cannot be
    multiplied with the rectification matrix, the first point makes OpenCV
    throw. *)
Theorem clusterLidarWithROI_outcome
    (shrinkFactor : Q) (P R RT : Mat) (boxes : list BoundingBox)
    (points : list LidarPoint) :
  let u p := nth 0 (homogeneous P R RT p) 0 in
  let v p := nth 1 (homogeneous P R RT p) 0 in
  let w p := nth 2 (homogeneous P R RT p) 0 in
  let has_region b := exists r', shrunk_region shrinkFactor (roi b) r' in
  (calibration_sizes P R RT ->
   Forall (fun p => exists pix, is_pixel P R RT p pix) points ->
   points = [] \/ Forall has_region boxes ->
   exists boxes', clusterLidarWithROI shrinkFactor P R RT boxes points = Ok boxes') /\
  (calibration_sizes P R RT ->
   Exists (fun p => w p == 0 \/ ~ fits_int (u p / w p) \/ ~ fits_int (v p / w p))
     points ->
   clusterLidarWithROI shrinkFactor P R RT boxes points = Undefined) /\
  (calibration_sizes P R RT ->
   points <> [] -> Exists (fun b => ~ has_region b) boxes ->
   clusterLidarWithROI shrinkFactor P R RT boxes points = Undefined) /\
  (cols P <> rows R -> points <> [] ->
   clusterLidarWithROI shrinkFactor P R RT boxes points = Throw cv_Exception).
Proof.
  intros u v w has_region. split; [|split; [|split]].
  - intros sizes H Hc. apply clusterLidarWithROI_defined.
    + eapply Forall_impl; [exact H|]. intros p [pix Hp]. exists pix.
      now apply project_spec.
    + destruct Hc as [Hc|Hc]; [now left|right].
      now apply regions_convert_shrunk_region.
  - intros sizes H. revert boxes.
    induction H as [p points Hp|p points _ IH]; intros boxes; simpl.
    + now rewrite (project_undefined P R RT sizes p Hp).
    + destruct (project_outcome P R RT sizes p) as [[pix ->] | ->];
        cbn [mbind result_bind]; [|reflexivity].
      destruct (attach shrinkFactor boxes pix p) as [boxes1| |] eqn:Ea;
        cbn [mbind result_bind]; [apply IH | | reflexivity].
      rewrite attach_shrunk in Ea. now destruct (regions_convert _ _).
  - intros sizes Hne Hex. destruct points as [|p points]; [congruence|]. simpl.
    destruct (project_outcome P R RT sizes p) as [[pix ->] | ->];
      cbn [mbind result_bind]; [|reflexivity].
    rewrite attach_shrunk.
    destruct (regions_convert shrinkFactor boxes) eqn:Ec; [|reflexivity].
    exfalso. apply regions_convert_shrunk_region in Ec.
    apply Exists_exists in Hex. destruct Hex as (b & Hb & Hno).
    rewrite Forall_forall in Ec. exact (Hno (Ec b Hb)).
  - intros H Hne. destruct points as [|p points]; [congruence|]. simpl.
    now rewrite project_mismatch.
Qed.
End LidarOutcome.

Lemma clusterLidarWithROI_shrink_one_witness :
  clusterLidarWithROI 1 P_example R_example RT_example boxes_example points_example
  = Ok boxes_example /\ boxes_example = boxes_example.
Proof.
  split; [vm_compute; reflexivity|].
  apply (clusterLidarWithROI_shrink_one P_example R_example RT_example
           points_example boxes_example boxes_example).
  vm_compute. reflexivity.
Defined.

Lemma clusterLidarWithROI_frame_witness :
  length boxes_clustered_example = length boxes_example /\
  forall k b', boxes_clustered_example !! k = Some b' ->
    exists b, boxes_example !! k = Some b /\
      boxID b' = boxID b /\ roi b' = roi b /\ kptMatches b' = kptMatches b.
Proof.
  apply (clusterLidarWithROI_frame shrink_tenth P_example R_example RT_example
           points_example boxes_example boxes_clustered_example).
  vm_compute. reflexivity.
Defined.

Lemma clusterLidarWithROI_total_witness :
  total_lidarPoints boxes_clustered_example
  = (total_lidarPoints boxes_example
     + length (List.filter
                 (attached_somewhere shrink_tenth P_example R_example RT_example
                    boxes_example) points_example))%nat
  /\ (total_lidarPoints boxes_clustered_example
      <= total_lidarPoints boxes_example + length points_example)%nat.
Proof.
  apply (clusterLidarWithROI_total shrink_tenth P_example R_example RT_example
           points_example boxes_example boxes_clustered_example).
  vm_compute. reflexivity.
Defined.

Lemma clusterLidarWithROI_outcome_witness :
  (exists boxes',
     clusterLidarWithROI shrink_tenth P_example R_example RT_example boxes_example
       points_example = Ok boxes') /\
  clusterLidarWithROI shrink_tenth P_example R_example RT_example boxes_example
    (points_example ++ [point_in_camera_plane]) = Undefined /\
  clusterLidarWithROI shrink_tenth P_example R_example RT_example boxes_example
    [point_beyond_int] = Undefined /\
  clusterLidarWithROI shrink_tenth P_example R_example RT_example
    [empty_box 2147483647 0 20 10] points_example = Undefined /\
  clusterLidarWithROI shrink_tenth P_three_columns R_example RT_example boxes_example
    points_example = Throw cv_Exception.
Proof.
  assert (sizes : calibration_sizes P_example R_example RT_example)
    by (repeat split).
  split; [|split; [|split; [|split]]].
  - refine (proj1 (clusterLidarWithROI_outcome shrink_tenth P_example R_example
                     RT_example boxes_example points_example) sizes _ _).
    + repeat (apply Forall_cons_2 || apply Forall_nil_2);
        (eexists; apply (project_spec _ _ _ sizes); vm_compute; reflexivity).
    + right. repeat (apply Forall_cons_2 || apply Forall_nil_2);
        (eexists; apply smallerBox_spec; vm_compute; reflexivity).
  - refine (proj1 (proj2 (clusterLidarWithROI_outcome shrink_tenth P_example
                            R_example RT_example boxes_example
                            (points_example ++ [point_in_camera_plane]))) sizes _).
    apply Exists_app. right. constructor. left. reflexivity.
  - refine (proj1 (proj2 (clusterLidarWithROI_outcome shrink_tenth P_example
                            R_example RT_example boxes_example
                            [point_beyond_int])) sizes _).
    constructor. right. left. intros [H _]. vm_compute in H. discriminate.
  - refine (proj1 (proj2 (proj2 (clusterLidarWithROI_outcome shrink_tenth P_example
                            R_example RT_example [empty_box 2147483647 0 20 10]
                            points_example))) sizes _ _); [discriminate|].
    constructor. intros [r' Hr]. apply smallerBox_spec in Hr.
    vm_compute in Hr. discriminate.
  - refine (proj2 (proj2 (proj2 (clusterLidarWithROI_outcome shrink_tenth
                            P_three_columns R_example RT_example boxes_example
                            points_example))) _ _); discriminate.
Defined.
(** ** clusterKptMatchesWithROI: outcome, and what the filter drops *)

Section KptMatchesMore.
Local Open Scope Q_scope.

Lemma vec_at_invalid {A : Type} (v : list A) (i : Z) :
  ~ valid_index v i -> vec_at v i = Throw out_of_range.
Proof.
  unfold valid_index, vec_at. intros H.
  destruct (i <? 0)%Z eqn:E; [reflexivity|]. apply Z.ltb_ge in E.
  rewrite lookup_ge_None_2 by lia. reflexivity.
Qed.

Lemma kptMatchesROI_throws r kptsCurr matches :
  Exists (fun m => ~ valid_index kptsCurr (trainIdx m)) matches ->
  kptMatchesROI r kptsCurr matches = Throw out_of_range.
Proof.
  induction 1 as [m ms Hm|m ms _ IH]; simpl.
  - now rewrite vec_at_invalid.
  - rewrite IH. unfold vec_at. destruct (trainIdx m <? 0)%Z; [reflexivity|].
    now destruct (kptsCurr !! Z.to_nat (trainIdx m)).
Qed.

(** X12: the call returns when the current-keypoint index of every match is in
    range, and throws [out_of_range] when one is not; the previous keypoints
    and the previous-keypoint indices are never read. *)
Theorem clusterKptMatchesWithROI_outcome
    (boundingBox : BoundingBox) (kptsPrev kptsCurr : list KeyPoint)
    (matches : list DMatch) :
  (Forall (fun m => valid_index kptsCurr (trainIdx m)) matches ->
   exists bb', clusterKptMatchesWithROI boundingBox kptsPrev kptsCurr matches = Ok bb') /\
  (Exists (fun m => ~ valid_index kptsCurr (trainIdx m)) matches ->
   clusterKptMatchesWithROI boundingBox kptsPrev kptsCurr matches
   = Throw out_of_range).
Proof.
  unfold clusterKptMatchesWithROI. split; intros H.
  - rewrite (kptMatchesROI_defined _ _ _ H). cbn [mbind result_bind].
    destruct (0 <? length _)%nat; eauto.
  - now rewrite (kptMatchesROI_throws _ _ _ H).
Qed.

Lemma accumulate_below (c : Q) (l : list Q) :
  Forall (fun v => v < c) l -> l <> [] ->
  forall init, accumulate l init < init + size_Q l * c.
Proof.
  unfold accumulate, size_Q.
  induction 1 as [|v l Hv Hl IH]; intros Hne init; [congruence|].
  cbn [foldl length]. rewrite Nat2Z.inj_succ, <- Z.add_1_r, inject_Z_plus.
  change (inject_Z 1) with 1.
  destruct l as [|w l'].
  - cbn [foldl length]. change (inject_Z (Z.of_nat 0)) with 0. lra.
  - specialize (IH ltac:(discriminate) (init + v)). lra.
Qed.

Lemma accumulate_nonneg (l : list Q) :
  Forall (fun v => 0 <= v) l -> forall init, init <= accumulate l init.
Proof.
  unfold accumulate. induction 1 as [|v l Hv _ IH]; intros init; simpl; [lra|].
  specialize (IH (init + v)). lra.
Qed.

Lemma filter_length_lt {A : Type} (f : A -> bool) (l : list A) :
  Exists (fun a => f a = false) l -> (length (List.filter f l) < length l)%nat.
Proof.
  induction 1 as [a l Ha|a l _ IH]; simpl.
  - rewrite Ha. pose proof (List.filter_length_le f l). lia.
  - destruct (f a); simpl; lia.
Qed.

(** X13: the outlier filter always drops something: when the distances of the
    matches in the region are not negative, at least one of them (one of
    largest distance) is not kept; a single match in the region is never
    kept. *)
Theorem clusterKptMatchesWithROI_drops_one
    (boundingBox : BoundingBox) (kptsPrev kptsCurr : list KeyPoint)
    (matches : list DMatch) (bb' : BoundingBox) :
  let found := List.filter (inside_roi (roi boundingBox) kptsCurr) matches in
  clusterKptMatchesWithROI boundingBox kptsPrev kptsCurr matches = Ok bb' ->
  found <> [] ->
  Forall (fun m => 0 <= distance m) found ->
  (length (kptMatches bb') < length (kptMatches boundingBox) + length found)%nat.
Proof.
  intros found H Hne Hpos. unfold clusterKptMatchesWithROI in H.
  destruct (kptMatchesROI (roi boundingBox) kptsCurr matches) as [f| |] eqn:E;
    cbn [mbind result_bind] in H; try discriminate.
  apply kptMatchesROI_filter in E. fold found in E. subst f.
  rewrite (proj2 (length_pos_nonempty found) Hne) in H. injection H as <-.
  cbn [kptMatches push_kptMatches]. rewrite length_app.
  apply Nat.add_lt_mono_l. unfold below_threshold.
  apply filter_length_lt.
  set (t := avgDist found * (8 # 10)).
  destruct (decide (Exists (fun m => Qltb (distance m) t = false) found))
    as [Hex|Hno]; [exact Hex|].
  exfalso.
  assert (Hall : Forall (fun v => v < t) (map distance found)).
  { apply Forall_map, Forall_forall. intros m Hm. cbn beta.
    apply Qltb_true. destruct (Qltb (distance m) t) eqn:Em; [reflexivity|].
    exfalso. apply Hno. apply Exists_exists. exists m. split; assumption. }
  assert (Hne' : map distance found <> []) by (destruct found; [congruence|discriminate]).
  pose proof (accumulate_below t _ Hall Hne' 0) as Hsum.
  pose proof (accumulate_nonneg (map distance found)
                ltac:(now apply Forall_map) 0) as Hsum0.
  pose proof (size_Q_pos found Hne) as Hn.
  unfold size_Q in Hsum. rewrite length_map in Hsum. fold (size_Q found) in Hsum.
  subst t. unfold avgDist in Hsum.
  set (s := accumulate (map distance found) 0) in *.
  assert (Hs : size_Q found * (s / size_Q found * (8 # 10)) == s * (8 # 10))
    by (field; lra).
  lra.
Qed.
End KptMatchesMore.

Lemma clusterKptMatchesWithROI_outcome_witness :
  (exists bb',
     clusterKptMatchesWithROI box_with_match [] kptsCurr_roi_example
       matches_roi_example = Ok bb') /\
  clusterKptMatchesWithROI box_with_match [] kptsCurr_roi_example
    (matches_roi_example ++ [mkDMatch 0 3 1]) = Throw out_of_range.
Proof.
  split.
  - apply (clusterKptMatchesWithROI_outcome box_with_match [] kptsCurr_roi_example
             matches_roi_example).
    repeat constructor; simpl; lia.
  - apply (clusterKptMatchesWithROI_outcome box_with_match [] kptsCurr_roi_example
             (matches_roi_example ++ [mkDMatch 0 3 1])).
    apply Exists_app. right. constructor. unfold valid_index. simpl. lia.
Defined.

Lemma clusterKptMatchesWithROI_drops_one_witness :
  (length [mkDMatch 7 7 3; mkDMatch 0 0 1]
   < length (kptMatches box_with_match)
     + length (List.filter (inside_roi (roi box_with_match) kptsCurr_roi_example)
                 matches_roi_example))%nat.
Proof.
  apply (clusterKptMatchesWithROI_drops_one box_with_match [] kptsCurr_roi_example
           matches_roi_example
           (mkBoundingBox 0 (mkRect 0 0 100 100) []
              [mkDMatch 7 7 3; mkDMatch 0 0 1]));
    [reflexivity | discriminate | repeat constructor; discriminate].
Defined.

(** ** median: order, bounds, elements *)

Section MedianMore.
Local Open Scope Q_scope.
Variable nth_element : nat -> list Q -> list Q.
Hypothesis nth_element_ok : nth_element_contract nth_element.

Lemma half_lt (n : nat) : (0 < n)%nat -> (n / 2 < n)%nat.
Proof. intros. apply Nat.div_lt; lia. Qed.

(** The value of [median] in terms of the sorted vector. *)
Lemma median_fst (l : list Q) :
  l <> [] ->
  let n := length l in
  let s := sort_asc l in
  fst (median nth_element l)
  == if (n mod 2 =? 0)%nat
     then (nth (n / 2) s 0 + nth (n / 2 - 1) s 0) / 2
     else nth (n / 2) s 0.
Proof.
  intros Hl n s.
  assert (Hpos : (0 < n)%nat) by (subst n; destruct l; [congruence | simpl; lia]).
  pose proof (half_lt n Hpos) as Hhalf.
  unfold median. fold n.
  replace (n =? 0)%nat with false by (symmetry; apply Nat.eqb_neq; lia).
  destruct (n mod 2 =? 0)%nat; cbn [fst].
  - destruct (nth_element_ok (n / 2)%nat l Hhalf) as [Hp _].
    assert (Hlen : length (nth_element (n / 2)%nat l) = n)
      by now apply Permutation_length.
    pose proof (nth_element_selects nth_element nth_element_ok (n / 2)%nat l Hhalf)
      as E1.
    pose proof (nth_element_selects nth_element nth_element_ok (n / 2 - 1)%nat
                  (nth_element (n / 2)%nat l) ltac:(lia)) as E2.
    pose proof (sort_asc_proper (nth_element (n / 2)%nat l) l
                  (n / 2 - 1)%nat Hp ltac:(lia)) as E3.
    rewrite E1, E2, E3. reflexivity.
  - now apply nth_element_selects.
Qed.

(** X14: the median does not depend on the order of the elements. *)
Theorem median_permutation (l1 l2 : list Q) :
  l1 ≡ₚ l2 -> fst (median nth_element l1) == fst (median nth_element l2).
Proof.
  intros Hp. pose proof (Permutation_length Hp) as Hlen.
  destruct l1 as [|x l1'].
  - apply Permutation_nil_l in Hp. subst. reflexivity.
  - assert (Hne2 : l2 <> []) by (destruct l2; [discriminate | discriminate]).
    set (l1 := x :: l1') in *.
    rewrite (median_fst l1) by discriminate. rewrite (median_fst l2) by exact Hne2.
    rewrite <- Hlen.
    assert (Hpos : (0 < length l1)%nat) by (simpl; lia).
    pose proof (half_lt _ Hpos) as Hhalf.
    pose proof (sort_asc_proper l1 l2 (length l1 / 2)%nat Hp Hhalf) as E1.
    pose proof (sort_asc_proper l1 l2 (length l1 / 2 - 1)%nat Hp ltac:(lia)) as E2.
    destruct (length l1 mod 2 =? 0)%nat; [now rewrite E1, E2 | exact E1].
Qed.

Lemma nth_sort_asc_bounds (a b : Q) (l : list Q) (k : nat) :
  Forall (fun x => a <= x <= b) l -> (k < length l)%nat ->
  a <= nth k (sort_asc l) 0 <= b.
Proof.
  intros H Hk.
  assert (Hs : Forall (fun x => a <= x <= b) (sort_asc l)).
  { rewrite Forall_forall in *. intros x Hx. apply H.
    now rewrite <- (sort_asc_perm l). }
  rewrite (Forall_nth _ 0) in Hs. apply Hs.
  now rewrite (Permutation_length (sort_asc_perm l)).
Qed.

(** X15: the median of a non-empty vector lies between its smallest and its
    largest element. *)
Theorem median_between (a b : Q) (l : list Q) :
  l <> [] -> Forall (fun x => a <= x <= b) l ->
  a <= fst (median nth_element l) <= b.
Proof.
  intros Hne H. rewrite (median_fst l Hne).
  assert (Hpos : (0 < length l)%nat) by (destruct l; [congruence | simpl; lia]).
  pose proof (half_lt _ Hpos) as Hhalf.
  pose proof (nth_sort_asc_bounds a b l (length l / 2)%nat H Hhalf) as H1.
  pose proof (nth_sort_asc_bounds a b l (length l / 2 - 1)%nat H ltac:(lia)) as H2.
  destruct (length l mod 2 =? 0)%nat.
  - split.
    + apply Qle_shift_div_l; lra.
    + apply Qle_shift_div_r; lra.
  - exact H1.
Qed.

(** X16: the call reorders the vector and does nothing else to it. *)
Theorem median_keeps_elements (l : list Q) : snd (median nth_element l) ≡ₚ l.
Proof.
  unfold median.
  destruct (length l =? 0)%nat eqn:E0; [reflexivity|].
  apply Nat.eqb_neq in E0.
  assert (Hhalf : (length l / 2 < length l)%nat) by (apply half_lt; lia).
  destruct (nth_element_ok _ l Hhalf) as [Hp _].
  destruct (length l mod 2 =? 0)%nat; cbn [snd]; [|exact Hp].
  destruct (nth_element_ok (length l / 2 - 1)%nat (nth_element (length l / 2) l))
    as [Hp2 _].
  - rewrite (Permutation_length Hp). lia.
  - now rewrite Hp2.
Qed.
End MedianMore.

Lemma median_permutation_witness :
  (fst (median nth_element_by_sorting [5; 1; 3])
   == fst (median nth_element_by_sorting [1; 5; 3]))%Q.
Proof.
  apply (median_permutation nth_element_by_sorting nth_element_by_sorting_ok
           [5; 1; 3]%Q [1; 5; 3]%Q).
  apply perm_swap.
Defined.

Lemma median_between_witness :
  (1 <= fst (median nth_element_by_sorting [5; 1; 3]) <= 5)%Q.
Proof.
  apply (median_between nth_element_by_sorting nth_element_by_sorting_ok 1 5
           [5; 1; 3]%Q); [discriminate|].
  repeat (apply Forall_cons_2; [split; discriminate|]). apply Forall_nil_2.
Defined.

Lemma median_keeps_elements_witness :
  snd (median nth_element_by_sorting [5; 1; 3]%Q) ≡ₚ [5; 1; 3]%Q.
Proof.
  apply (median_keeps_elements nth_element_by_sorting nth_element_by_sorting_ok).
Defined.

(** ** computeTTCCamera: outcome, sign, uniform scale change *)

Section CameraMore.
Local Open Scope Q_scope.
Variable nth_element : nat -> list Q -> list Q.
Variable sqrt : Q -> Q.

Lemma vec_at_outcome {A : Type} (v : list A) (i : Z) :
  (exists a, vec_at v i = Ok a) \/ vec_at v i = Throw out_of_range.
Proof.
  unfold vec_at. destruct (i <? 0)%Z; [now right|].
  destruct (v !! Z.to_nat i); [left; eauto | now right].
Qed.

Lemma inner_loop_throws kptsPrev kptsCurr oc op inner :
  Exists (fun m => ~ indices_valid kptsPrev kptsCurr m) inner ->
  forall acc,
  inner_loop sqrt kptsPrev kptsCurr oc op inner acc = Throw out_of_range.
Proof.
  induction 1 as [m ms Hm|m ms _ IH]; intros acc; simpl.
  - destruct (vec_at_outcome kptsCurr (trainIdx m)) as [[a Ha]| ->]; [|reflexivity].
    destruct (vec_at_outcome kptsPrev (queryIdx m)) as [[b Hb]|Hb];
      rewrite Ha, Hb; [|reflexivity].
    exfalso. apply Hm. split.
    + destruct (decide (valid_index kptsPrev (queryIdx m))) as [|Hn]; [assumption|].
      rewrite (vec_at_invalid _ _ Hn) in Hb. discriminate.
    + destruct (decide (valid_index kptsCurr (trainIdx m))) as [|Hn]; [assumption|].
      rewrite (vec_at_invalid _ _ Hn) in Ha. discriminate.
  - destruct (vec_at_outcome kptsCurr (trainIdx m)) as [[a ->]| ->]; [|reflexivity].
    destruct (vec_at_outcome kptsPrev (queryIdx m)) as [[b ->]| ->]; [|reflexivity].
    simpl. apply IH.
Qed.

(** X17: with fewer than two matches no keypoint is looked up and the result is
    not-a-number, whatever the indices of the match. *)
Theorem computeTTCCamera_fewer_than_two
    (kptsPrev kptsCurr : list KeyPoint) (matches : list DMatch) (frameRate : Q) :
  (length matches <= 1)%nat ->
  computeTTCCamera nth_element sqrt kptsPrev kptsCurr matches frameRate = Ok NaN.
Proof.
  destruct matches as [|m [|m' ms]]; simpl; [reflexivity | reflexivity | lia].
Qed.

(** X18: with two matches or more, a match whose index is out of range in either
    keypoint vector makes the call throw [out_of_range]. *)
Theorem computeTTCCamera_throws
    (kptsPrev kptsCurr : list KeyPoint) (matches : list DMatch) (frameRate : Q) :
  (2 <= length matches)%nat ->
  Exists (fun m => ~ indices_valid kptsPrev kptsCurr m) matches ->
  computeTTCCamera nth_element sqrt kptsPrev kptsCurr matches frameRate
  = Throw out_of_range.
Proof.
  intros Hlen Hex. unfold computeTTCCamera, distRatios.
  destruct matches as [|m0 [|m1 ms]]; simpl in Hlen; try lia.
  cbn [length Nat.eqb removelast outer_loop drop].
  destruct (vec_at_outcome kptsCurr (trainIdx m0)) as [[a Ha]| ->]; [|reflexivity].
  destruct (vec_at_outcome kptsPrev (queryIdx m0)) as [[b Hb]|Hb];
    rewrite Ha, Hb; [|reflexivity].
  cbn [mbind result_bind].
  rewrite inner_loop_throws; [reflexivity|].
  apply Exists_cons in Hex. destruct Hex as [H0|Hex]; [|exact Hex].
  exfalso. apply H0. split.
  - destruct (decide (valid_index kptsPrev (queryIdx m0))) as [|Hn]; [assumption|].
    rewrite (vec_at_invalid _ _ Hn) in Hb. discriminate.
  - destruct (decide (valid_index kptsCurr (trainIdx m0))) as [|Hn]; [assumption|].
    rewrite (vec_at_invalid _ _ Hn) in Ha. discriminate.
Qed.

(** X19: the sign of the estimate at a positive frame rate: positive when the
    median ratio is above 1 (the keypoints spread), negative when it is
    below 1, and minus infinity when it is 1. *)
Theorem computeTTCCamera_sign
    (kptsPrev kptsCurr : list KeyPoint) (matches : list DMatch) (frameRate : Q)
    (ratios : list Q) :
  matches <> [] ->
  distRatios sqrt kptsPrev kptsCurr matches = Ok ratios -> ratios <> [] ->
  0 < frameRate ->
  let m := fst (median nth_element ratios) in
  (1 < m -> exists t, computeTTCCamera nth_element sqrt kptsPrev kptsCurr matches
                        frameRate = Ok (Fin t) /\ 0 < t) /\
  (m < 1 -> exists t, computeTTCCamera nth_element sqrt kptsPrev kptsCurr matches
                        frameRate = Ok (Fin t) /\ t < 0) /\
  (m == 1 -> computeTTCCamera nth_element sqrt kptsPrev kptsCurr matches frameRate
             = Ok (Inf true)).
Proof.
  intros Hm Hr Hne Hfr m.
  assert (E : computeTTCCamera nth_element sqrt kptsPrev kptsCurr matches frameRate
              = Ok (fdiv (fneg (fdiv (Fin 1) (Fin frameRate))) (Fin (1 - m)))).
  { unfold computeTTCCamera. destruct matches; [congruence|]. rewrite Hr.
    cbn [length Nat.eqb mbind result_bind]. destruct ratios; [congruence|reflexivity]. }
  rewrite E. cbn [fdiv fneg].
  rewrite (Qeq_bool_false frameRate 0) by lra. cbn [fneg fdiv].
  assert (Hinv : 0 < 1 / frameRate).
  { apply Qlt_shift_div_l; lra. }
  split; [|split]; intros Hcmp.
  - rewrite (Qeq_bool_false (1 - m) 0) by lra. eexists. split; [reflexivity|].
    assert (Et : - (1 / frameRate) / (1 - m) == (1 / frameRate) / (m - 1))
      by (field; lra).
    rewrite Et. apply Qlt_shift_div_l; lra.
  - rewrite (Qeq_bool_false (1 - m) 0) by lra. eexists. split; [reflexivity|].
    assert (Et : - (1 / frameRate) / (1 - m) == - ((1 / frameRate) / (1 - m)))
      by (field; lra).
    assert (0 < (1 / frameRate) / (1 - m)) by (apply Qlt_shift_div_l; lra).
    rewrite Et. lra.
  - replace (Qeq_bool (1 - m) 0) with true
      by (symmetry; apply Qeq_bool_iff; lra).
    rewrite (Qeq_bool_false (- (1 / frameRate)) 0) by lra.
    do 2 f_equal. apply Qltb_true. lra.
Qed.
End CameraMore.

Section UniformScale.
Local Open Scope Q_scope.
Variable nth_element : nat -> list Q -> list Q.
Variable sqrt : Q -> Q.
Hypothesis nth_element_ok : nth_element_contract nth_element.

Lemma median_constant (c : Q) (l : list Q) :
  l <> [] -> Forall (fun x => x == c) l -> fst (median nth_element l) == c.
Proof.
  intros Hne H.
  assert (Hb : Forall (fun x => c <= x <= c) l).
  { eapply Forall_impl; [exact H|]. intros x Hx. cbn beta in Hx. lra. }
  rewrite (median_fst nth_element nth_element_ok l Hne).
  assert (Hpos : (0 < length l)%nat) by (destruct l; [congruence | simpl; lia]).
  pose proof (half_lt _ Hpos) as Hhalf.
  pose proof (nth_sort_asc_bounds c c l (length l / 2)%nat Hb Hhalf) as H1.
  pose proof (nth_sort_asc_bounds c c l (length l / 2 - 1)%nat Hb ltac:(lia)) as H2.
  destruct (length l mod 2 =? 0)%nat.
  - assert (E1 : nth (length l / 2) (sort_asc l) 0 == c) by lra.
    assert (E2 : nth (length l / 2 - 1) (sort_asc l) 0 == c) by lra.
    rewrite E1, E2. field.
  - lra.
Qed.

(** X20: when every recorded ratio is the same number [c], other than 1, the
    estimate is [dT / (c - 1)]: the frame interval [dT] itself when every
    distance between keypoints has doubled. *)
Theorem computeTTCCamera_uniform_scale
    (kptsPrev kptsCurr : list KeyPoint) (matches : list DMatch)
    (frameRate c : Q) (ratios : list Q) :
  matches <> [] ->
  distRatios sqrt kptsPrev kptsCurr matches = Ok ratios -> ratios <> [] ->
  Forall (fun r => r == c) ratios ->
  ~ frameRate == 0 -> ~ c == 1 ->
  exists t,
    computeTTCCamera nth_element sqrt kptsPrev kptsCurr matches frameRate
    = Ok (Fin t) /\
    t == (1 / frameRate) / (c - 1) /\
    (c == 2 -> t == 1 / frameRate).
Proof.
  intros Hm Hr Hne Hall Hfr Hc.
  pose proof (median_constant c ratios Hne Hall) as Emed.
  unfold computeTTCCamera. destruct matches; [congruence|]. rewrite Hr.
  cbn [length Nat.eqb mbind result_bind].
  replace (length ratios =? 0)%nat with false
    by (destruct ratios; [congruence | reflexivity]).
  cbn [fdiv fneg].
  rewrite (Qeq_bool_false frameRate 0 Hfr). cbn [fneg fdiv].
  rewrite Qeq_bool_false by (rewrite Emed; intros E; apply Hc; lra).
  eexists. split; [reflexivity|].
  assert (Et : - (1 / frameRate) / (1 - fst (median nth_element ratios))
               == (1 / frameRate) / (c - 1)).
  { rewrite Emed. field. repeat split; try exact Hfr; intros E; apply Hc; lra. }
  split; [exact Et|]. intros E2. rewrite Et, E2. field. exact Hfr.
Qed.
End UniformScale.

Lemma computeTTCCamera_fewer_than_two_witness :
  computeTTCCamera nth_element_by_sorting Qsqrt kptsPrev_example kptsCurr_example
    [mkDMatch 99 99 1] 10 = Ok NaN.
Proof.
  apply (computeTTCCamera_fewer_than_two nth_element_by_sorting Qsqrt
           kptsPrev_example kptsCurr_example [mkDMatch 99 99 1] 10).
  simpl. lia.
Defined.

Lemma computeTTCCamera_throws_witness :
  computeTTCCamera nth_element_by_sorting Qsqrt kptsPrev_example kptsCurr_example
    (matches_example ++ [mkDMatch 4 0 1]) 10 = Throw out_of_range.
Proof.
  apply (computeTTCCamera_throws nth_element_by_sorting Qsqrt
           kptsPrev_example kptsCurr_example (matches_example ++ [mkDMatch 4 0 1]) 10);
    [simpl; lia|].
  apply Exists_app. right. constructor.
  unfold indices_valid, valid_index. simpl. lia.
Defined.

Lemma computeTTCCamera_sign_witness :
  exists t,
    computeTTCCamera nth_element_by_sorting Qsqrt kptsPrev_example kptsCurr_example
      matches_example 10 = Ok (Fin t) /\ (0 < t)%Q.
Proof.
  apply (computeTTCCamera_sign nth_element_by_sorting Qsqrt
           kptsPrev_example kptsCurr_example matches_example 10
           [110 # 100; 330 # 200; 480 # 400; 220 # 100;
            370 # 300; 220 # 100; 150 # 200]%Q);
    [discriminate | reflexivity | discriminate | reflexivity | reflexivity].
Defined.

Lemma computeTTCCamera_uniform_scale_witness :
  exists t,
    computeTTCCamera nth_element_by_sorting Qsqrt kptsPrev_doubling
      kptsCurr_doubling matches_doubling 10 = Ok (Fin t) /\
    (t == (1 / 10) / (2 - 1))%Q /\
    ((2 == 2)%Q -> (t == 1 / 10)%Q).
Proof.
  apply (computeTTCCamera_uniform_scale nth_element_by_sorting Qsqrt
           nth_element_by_sorting_ok kptsPrev_doubling kptsCurr_doubling
           matches_doubling 10 2 [200 # 100; 400 # 200; 200 # 100]%Q);
    [discriminate | reflexivity | discriminate | | discriminate | discriminate].
  repeat (apply Forall_cons_2; [reflexivity|]). apply Forall_nil_2.
Defined.

(** ** computeTTCLidar: in-lane points, sign, zero frame rate *)

Section LidarMore.
Local Open Scope Q_scope.


(** X22: points outside the lane ([|y|] above 2) count for nothing. *)
Theorem computeTTCLidar_ignores_out_of_lane
    (prev curr extra1 extra2 : list LidarPoint) (frameRate : Q) :
  Forall (fun p => 2 < Qabs (lidar_y p)) extra1 ->
  Forall (fun p => 2 < Qabs (lidar_y p)) extra2 ->
  computeTTCLidar (prev ++ extra1) (curr ++ extra2) frameRate
  = computeTTCLidar prev curr frameRate.
Proof.
  assert (H : forall l e, Forall (fun p => 2 < Qabs (lidar_y p)) e ->
                lane_x (l ++ e) = lane_x l).
  { intros l e He. unfold lane_x. rewrite List.filter_app, (filter_none _ e).
    - now rewrite app_nil_r.
    - eapply Forall_impl; [exact He|]. intros p Hp. cbn beta in *.
      rewrite lane_half_width. apply not_true_iff_false. intros E.
      apply Qle_bool_iff in E. lra. }
  intros H1 H2. unfold computeTTCLidar. now rewrite (H prev _ H1), (H curr _ H2).
Qed.

(** X23: the sign of the estimate at a positive frame rate, with points in the
    lane in both frames: positive when the mean distance shrinks, negative
    when it grows; with equal means it is plus infinity, unless the mean is
    zero, when it is not-a-number. *)
Theorem computeTTCLidar_sign
    (prev curr : list LidarPoint) (frameRate : Q) :
  lane_x prev <> [] -> lane_x curr <> [] -> 0 < frameRate ->
  let xp := mean (lane_x prev) in
  let xc := mean (lane_x curr) in
  (0 < xc -> xc < xp ->
     exists t, computeTTCLidar prev curr frameRate = Fin t /\ 0 < t) /\
  (0 < xc -> xp < xc ->
     exists t, computeTTCLidar prev curr frameRate = Fin t /\ t < 0) /\
  (0 < xc -> xp == xc -> computeTTCLidar prev curr frameRate = Inf false) /\
  (xc == 0 -> xp == xc -> computeTTCLidar prev curr frameRate = NaN).
Proof.
  intros Hp Hc Hfr xp xc.
  assert (E : computeTTCLidar prev curr frameRate
              = fdiv (fmul (Fin xc) (fdiv (Fin 1) (Fin frameRate))) (Fin (xp - xc))).
  { unfold computeTTCLidar. apply length_pos_nonempty in Hp, Hc.
    now rewrite Hp, Hc. }
  rewrite E. cbn [fdiv fmul]. rewrite (Qeq_bool_false frameRate 0) by lra.
  cbn [fdiv fmul].
  assert (Hinv : 0 < 1 / frameRate) by (apply Qlt_shift_div_l; lra).
  split; [|split; [|split]].
  - intros H0 Hlt. rewrite (Qeq_bool_false (xp - xc) 0) by lra.
    eexists. split; [reflexivity|].
    apply Qlt_shift_div_l; [lra|]. rewrite Qmult_0_l.
    apply Qmult_lt_0_compat; assumption.
  - intros H0 Hlt. rewrite (Qeq_bool_false (xp - xc) 0) by lra.
    eexists. split; [reflexivity|].
    assert (Hpos : 0 < xc * (1 / frameRate)) by (apply Qmult_lt_0_compat; assumption).
    assert (Et : xc * (1 / frameRate) / (xp - xc)
                 == - (xc * (1 / frameRate) / (xc - xp))) by (field; lra).
    assert (0 < xc * (1 / frameRate) / (xc - xp))
      by (apply Qlt_shift_div_l; [lra|]; rewrite Qmult_0_l; exact Hpos).
    rewrite Et. lra.
  - intros H0 Heq.
    replace (Qeq_bool (xp - xc) 0) with true by (symmetry; apply Qeq_bool_iff; lra).
    assert (Hpos : 0 < xc * (1 / frameRate)) by (apply Qmult_lt_0_compat; assumption).
    rewrite (Qeq_bool_false (xc * (1 / frameRate)) 0) by lra.
    f_equal. apply Qltb_false. lra.
  - intros H0 Heq.
    replace (Qeq_bool (xp - xc) 0) with true by (symmetry; apply Qeq_bool_iff; lra).
    replace (Qeq_bool (xc * (1 / frameRate)) 0) with true; [reflexivity|].
    symmetry. apply Qeq_bool_iff. rewrite H0. ring.
Qed.
End LidarMore.

Section ZeroFrameRate.
Local Open Scope Q_scope.

(** X24: at a frame rate of zero neither estimate is ever a finite number. *)
Theorem zero_frame_rate_never_finite
    (nth_element : nat -> list Q -> list Q) (sqrt : Q -> Q)
    (kptsPrev kptsCurr : list KeyPoint) (matches : list DMatch)
    (prev curr : list LidarPoint) (frameRate t : Q) :
  frameRate == 0 ->
  computeTTCLidar prev curr frameRate <> Fin t /\
  computeTTCCamera nth_element sqrt kptsPrev kptsCurr matches frameRate <> Ok (Fin t).
Proof.
  intros Hfr.
  assert (E : Qeq_bool frameRate 0 = true) by now apply Qeq_bool_iff.
  split.
  - unfold computeTTCLidar. destruct (_ && _); [|discriminate].
    cbn [fdiv]. rewrite E. cbn [Qeq_bool fmul].
    destruct (Qeq_bool (mean (lane_x curr)) 0); discriminate.
  - unfold computeTTCCamera. destruct (length matches =? 0)%nat; [discriminate|].
    destruct (distRatios sqrt kptsPrev kptsCurr matches) as [ratios| |]; simpl;
      try discriminate.
    destruct (length ratios =? 0)%nat; [discriminate|].
    rewrite E. simpl. discriminate.
Qed.
End ZeroFrameRate.


Lemma computeTTCLidar_ignores_out_of_lane_witness :
  computeTTCLidar (lidar_prev_example ++ [mkLidarPoint 1 3 0 0])
    (lidar_curr_example ++ [mkLidarPoint 1 (-3) 0 0]) 10
  = computeTTCLidar lidar_prev_example lidar_curr_example 10.
Proof.
  apply (computeTTCLidar_ignores_out_of_lane lidar_prev_example lidar_curr_example
           [mkLidarPoint 1 3 0 0] [mkLidarPoint 1 (-3) 0 0] 10);
    repeat constructor.
Defined.

Lemma computeTTCLidar_sign_witness :
  exists t,
    computeTTCLidar lidar_prev_example lidar_curr_example 10 = Fin t /\ (0 < t)%Q.
Proof.
  apply (computeTTCLidar_sign lidar_prev_example lidar_curr_example 10);
    [discriminate | discriminate | reflexivity | reflexivity | reflexivity].
Defined.

Lemma zero_frame_rate_never_finite_witness :
  computeTTCLidar lidar_prev_example lidar_curr_example 0 <> Fin 0 /\
  computeTTCCamera nth_element_by_sorting Qsqrt kptsPrev_example kptsCurr_example
    matches_example 0 <> Ok (Fin 0).
Proof.
  apply (zero_frame_rate_never_finite nth_element_by_sorting Qsqrt
           kptsPrev_example kptsCurr_example matches_example
           lidar_prev_example lidar_curr_example 0 0).
  reflexivity.
Defined.

(** ** show3DObjects *)

Section TopViewProps.

Lemma plot_point_inv worldSize imageSize st p st' :
  plot_point worldSize imageSize st p = Ok st' ->
  exists x y : Z,
    to_int (topview_y worldSize imageSize p) = Ok y /\
    to_int (topview_x worldSize imageSize p) = Ok x /\
    height worldSize <> 0%Z /\ width worldSize <> 0%Z /\
    st' = mkTopView
            (if (top st <? y)%Z then top st else y)
            (if (left st <? x)%Z then left st else x)
            (if (y <? bottom st)%Z then bottom st else y)
            (if (x <? right st)%Z then right st else x)
            (if Qltb (xwmin st) (lidar_x p) then xwmin st else lidar_x p)
            (if Qltb (ywmin st) (lidar_y p) then ywmin st else lidar_y p)
            (if Qltb (lidar_y p) (ywmax st) then ywmax st else lidar_y p)
            (centres st ++ [mkPoint x y]).
Proof.
  unfold plot_point.
  destruct (Z.eqb_spec (height worldSize) 0) as [|Hh]; [discriminate|].
  destruct (Z.eqb_spec (width worldSize) 0) as [|Hw]; [discriminate|].
  cbn [orb].
  fold (topview_y worldSize imageSize p). fold (topview_x worldSize imageSize p).
  destruct (to_int (topview_y worldSize imageSize p)) as [y| |];
    cbn [mbind result_bind]; try discriminate.
  destruct (to_int (topview_x worldSize imageSize p)) as [x| |];
    cbn [mbind result_bind]; try discriminate.
  intros [= <-]. exists x, y. auto.
Qed.

Lemma plot_point_spec worldSize imageSize st p st' :
  plot_point worldSize imageSize st p = Ok st' ->
  exists c, centres st' = centres st ++ [c] /\ encloses st' c /\
    (left st' <= left st)%Z /\ (right st <= right st')%Z /\
    (top st' <= top st)%Z /\ (bottom st <= bottom st')%Z.
Proof.
  intros H. apply plot_point_inv in H. destruct H as (x & y & _ & _ & _ & _ & ->).
  eexists. split; [reflexivity|]. unfold encloses. cbn.
  repeat match goal with |- context [(?a <? ?b)%Z] => destruct (Z.ltb_spec a b) end;
    lia.
Qed.

Lemma plot_points_spec worldSize imageSize points : forall st st',
  plot_points worldSize imageSize st points = Ok st' ->
  Forall (encloses st) (centres st) ->
  Forall (encloses st') (centres st') /\
  length (centres st') = (length (centres st) + length points)%nat.
Proof.
  induction points as [|p points IH]; intros st st'; simpl.
  - intros [= <-] H. split; [exact H | lia].
  - destruct (plot_point worldSize imageSize st p) as [st1| |] eqn:E; simpl;
      try discriminate.
    intros Hrun Hst.
    destruct (plot_point_spec _ _ _ _ _ E) as (c & Hc & Henc & Hl & Hr & Ht & Hb).
    destruct (IH st1 st' Hrun) as [H1 H2].
    + rewrite Hc. apply Forall_app. split; [|constructor; [exact Henc|constructor]].
      eapply Forall_impl; [exact Hst|]. unfold encloses. intros q Hq. lia.
    + split; [exact H1|]. rewrite H2, Hc, length_app. simpl. lia.
Qed.

Lemma draw_boxes_lookup worldSize imageSize boxes : forall ds,
  draw_boxes worldSize imageSize boxes = Ok ds ->
  length ds = length boxes /\
  forall k b, boxes !! k = Some b ->
    exists d, ds !! k = Some d /\ draw_box worldSize imageSize b = Ok d.
Proof.
  induction boxes as [|b boxes IH]; intros ds; simpl.
  - intros [= <-]. split; [reflexivity|]. intros k b H. discriminate.
  - destruct (draw_box worldSize imageSize b) as [d| |] eqn:E; simpl; try discriminate.
    destruct (draw_boxes worldSize imageSize boxes) as [ds'| |]; simpl; try discriminate.
    intros [= <-]. destruct (IH ds' eq_refl) as [Hlen Hk].
    split; [simpl; now rewrite Hlen|].
    intros [|k] b' Hb'; simpl in *; [injection Hb' as <-; eauto | now apply Hk].
Qed.

(** X25: for every box, the rectangle drawn encloses the centre of every circle
    drawn for the box, there is one circle for each lidar point of the box,
    and the label shows that number of points. *)
Theorem show3DObjects_rectangle_encloses
    (boundingBoxes : list BoundingBox) (worldSize imageSize : Size)
    (drawings : list BoxDrawing) (markers : list Z) :
  show3DObjects boundingBoxes worldSize imageSize = Ok (drawings, markers) ->
  length drawings = length boundingBoxes /\
  forall k b, boundingBoxes !! k = Some b ->
    exists d, drawings !! k = Some d /\
      Forall (encloses (view d)) (centres (view d)) /\
      length (centres (view d)) = length (lidarPoints b) /\
      label_pts d = Z.of_nat (length (lidarPoints b)) /\
      label_id d = boxID b.
Proof.
  unfold show3DObjects.
  destruct (draw_boxes worldSize imageSize boundingBoxes) as [ds| |] eqn:E;
    cbn [mbind result_bind]; try discriminate.
  destruct (draw_markers worldSize imageSize 0 (marker_count worldSize))
    as [ms| |]; cbn [mbind result_bind]; try discriminate.
  intros [= <- _]. destruct (draw_boxes_lookup _ _ _ _ E) as [Hlen Hk].
  split; [exact Hlen|]. intros k b Hb.
  destruct (Hk k b Hb) as (d & Hd & Hdraw). exists d. split; [exact Hd|].
  unfold draw_box in Hdraw.
  destruct (plot_points worldSize imageSize TopView_init (lidarPoints b))
    as [st| |] eqn:Ep; simpl in Hdraw; try discriminate.
  injection Hdraw as <-. cbn.
  destruct (plot_points_spec _ _ _ _ _ Ep) as [H1 H2]; [constructor|].
  repeat split; [exact H1 | exact H2].
Qed.

Lemma plot_point_plots worldSize imageSize st p :
  plots worldSize imageSize p ->
  exists st', plot_point worldSize imageSize st p = Ok st'.
Proof.
  intros (Hh & Hw & Hy & Hx). unfold plot_point.
  replace (height worldSize =? 0)%Z with false by (symmetry; now apply Z.eqb_neq).
  replace (width worldSize =? 0)%Z with false by (symmetry; now apply Z.eqb_neq).
  cbn [orb]. fold (topview_y worldSize imageSize p).
  fold (topview_x worldSize imageSize p).
  rewrite (to_int_fits _ Hy). cbn [mbind result_bind].
  rewrite (to_int_fits _ Hx). cbn [mbind result_bind]. eauto.
Qed.

Lemma plot_point_no_throw worldSize imageSize st p e :
  plot_point worldSize imageSize st p <> Throw e.
Proof.
  unfold plot_point. destruct (_ || _); [discriminate|].
  destruct (to_int_outcome (- lidar_x p * inject_Z (height imageSize)
                            / inject_Z (height worldSize)
                            + inject_Z (height imageSize))) as [-> | ->];
    cbn [mbind result_bind]; [|discriminate].
  destruct (to_int_outcome (- lidar_y p * inject_Z (width imageSize)
                            / inject_Z (width worldSize)
                            + inject_Z (Z.quot (width imageSize) 2))) as [-> | ->];
    cbn [mbind result_bind]; discriminate.
Qed.

Lemma plot_points_defined worldSize imageSize points : forall st,
  Forall (plots worldSize imageSize) points ->
  exists st', plot_points worldSize imageSize st points = Ok st'.
Proof.
  induction points as [|p points IH]; intros st H; simpl; [eauto|].
  apply Forall_cons in H. destruct H as [Hp Hrest].
  destruct (plot_point_plots worldSize imageSize st p Hp) as [st1 ->].
  cbn [mbind result_bind]. now apply IH.
Qed.

Lemma plot_points_no_throw worldSize imageSize points : forall st e,
  plot_points worldSize imageSize st points <> Throw e.
Proof.
  induction points as [|p points IH]; intros st e; simpl; [discriminate|].
  destruct (plot_point worldSize imageSize st p) as [st1|e'|] eqn:E;
    cbn [mbind result_bind];
    [apply IH | now apply plot_point_no_throw in E | discriminate].
Qed.

Lemma draw_box_no_throw worldSize imageSize b e :
  draw_box worldSize imageSize b <> Throw e.
Proof.
  unfold draw_box.
  destruct (plot_points worldSize imageSize TopView_init (lidarPoints b))
    as [st|e'|] eqn:E; simpl;
    [discriminate | now apply plot_points_no_throw in E | discriminate].
Qed.

Lemma draw_boxes_defined worldSize imageSize boxes :
  Forall (fun b => Forall (plots worldSize imageSize) (lidarPoints b)) boxes ->
  exists ds, draw_boxes worldSize imageSize boxes = Ok ds.
Proof.
  induction 1 as [|b boxes Hb _ [ds IH]]; simpl; [eauto|].
  unfold draw_box.
  destruct (plot_points_defined worldSize imageSize (lidarPoints b) TopView_init Hb)
    as [st ->].
  cbn [mbind result_bind]. rewrite IH. cbn [mbind result_bind]. eauto.
Qed.

Lemma nMarkers_div (worldSize : Size) :
  nMarkers worldSize = (height worldSize / 2)%Z.
Proof.
  unfold nMarkers, lineSpacing, Qdiv, Qmult, Qinv, inject_Z, Qfloor. simpl.
  now rewrite Z.mul_1_r.
Qed.

Lemma marker_count_div (worldSize : Size) :
  (0 <= height worldSize < 2 ^ 31)%Z ->
  marker_count worldSize = Z.to_nat (height worldSize / 2).
Proof.
  intros Hw. unfold marker_count. rewrite nMarkers_div. f_equal.
  apply Z.mod_small. split; [apply Z.div_pos; lia|].
  apply Z.le_lt_trans with (height worldSize); [|lia].
  apply Z.div_le_upper_bound; lia.
Qed.

(** A marker that belongs to the world is drawn inside the image. *)
Lemma marker_inside (worldSize imageSize : Size) (i : nat) :
  (0 <= height imageSize)%Z -> (0 < height worldSize)%Z ->
  (Z.of_nat i < height worldSize / 2)%Z ->
  exists q : Q,
    Qeq (- (inject_Z (Z.of_nat i) * lineSpacing) * inject_Z (height imageSize)
         / inject_Z (height worldSize) + inject_Z (height imageSize))%Q q /\
    (0 <= q)%Q /\ (q <= inject_Z (height imageSize))%Q.
Proof.
  intros HH Hw Hi. unfold lineSpacing.
  assert (H2i : (2 * Z.of_nat i <= height worldSize)%Z).
  { pose proof (Z.mul_div_le (height worldSize) 2 ltac:(lia)). lia. }
  set (H := inject_Z (height imageSize)).
  set (W := inject_Z (height worldSize)).
  set (I := inject_Z (Z.of_nat i)).
  assert (HH' : (0 <= H)%Q) by (subst H; rewrite <- (Zle_Qle 0); exact HH).
  assert (HW' : (0 < W)%Q) by (subst W; rewrite <- (Zlt_Qlt 0); lia).
  assert (HI0 : (0 <= I)%Q) by (subst I; rewrite <- (Zle_Qle 0); lia).
  assert (HI : (I * 2 <= W)%Q).
  { subst I W. change 2%Q with (inject_Z 2). rewrite <- inject_Z_mult, <- Zle_Qle. lia. }
  assert (Hfrac : (0 <= I * 2 * H / W)%Q /\ (I * 2 * H / W <= H)%Q).
  { split.
    - apply Qle_shift_div_l; [exact HW'|]. rewrite Qmult_0_l.
      apply Qmult_le_0_compat; [|exact HH'].
      apply Qmult_le_0_compat; [exact HI0 | lra].
    - apply Qle_shift_div_r; [exact HW'|].
      rewrite (Qmult_comm H W). apply Qmult_le_compat_r; assumption. }
  destruct Hfrac as [Hf0 Hf1].
  exists (H - I * 2 * H / W)%Q. split; [field; lra|]. split; lra.
Qed.

Lemma d2i_range (q : Q) (h : Z) :
  (0 <= q)%Q -> (q <= inject_Z h)%Q -> (0 <= d2i q <= h)%Z.
Proof.
  intros H0 Hh. unfold d2i.
  replace (Qle_bool 0 q) with true by (symmetry; now apply Qle_bool_iff).
  split.
  - rewrite <- (Qfloor_Z 0). now apply Qfloor_resp_le.
  - rewrite <- (Qfloor_Z h). now apply Qfloor_resp_le.
Qed.

Lemma draw_markers_spec worldSize imageSize count : forall i ys,
  draw_markers worldSize imageSize i count = Ok ys ->
  length ys = count /\
  forall j y, ys !! j = Some y -> marker_y worldSize imageSize (i + j) = Ok y.
Proof.
  induction count as [|count IH]; intros i ys; simpl.
  - intros [= <-]. split; [reflexivity|]. intros j y H. discriminate.
  - destruct (marker_y worldSize imageSize i) as [y0| |] eqn:E0;
      cbn [mbind result_bind]; try discriminate.
    destruct (draw_markers worldSize imageSize (S i) count) as [ys0| |] eqn:E1;
      cbn [mbind result_bind]; try discriminate.
    intros [= <-]. destruct (IH (S i) ys0 E1) as [Hlen Hj].
    split; [simpl; now rewrite Hlen|].
    intros [|j] y Hy; simpl in Hy.
    + injection Hy as <-. now rewrite Nat.add_0_r.
    + rewrite Nat.add_succ_r. now apply (Hj j y).
Qed.

Lemma draw_markers_defined worldSize imageSize count : forall i,
  (forall j, (i <= j < i + count)%nat ->
     exists y, marker_y worldSize imageSize j = Ok y) ->
  exists ys, draw_markers worldSize imageSize i count = Ok ys.
Proof.
  induction count as [|count IH]; intros i H; simpl; [eauto|].
  destruct (H i ltac:(lia)) as [y ->]. cbn [mbind result_bind].
  destruct (IH (S i)) as [ys ->]; [intros j Hj; apply H; lia|].
  cbn [mbind result_bind]. eauto.
Qed.

(** The arithmetic of the call is defined (the model's [Ok]; the image and
    window calls are not part of it) when every lidar point of every box can
    be plotted, the world height is not negative and the image height is a
    non-negative [int]. *)
Lemma show3DObjects_arithmetic_defined
    (boundingBoxes : list BoundingBox) (worldSize imageSize : Size) :
  Forall (fun b => Forall (plots worldSize imageSize) (lidarPoints b))
    boundingBoxes ->
  (0 <= height worldSize < 2 ^ 31)%Z -> (0 <= height imageSize <= INT_MAX)%Z ->
  exists drawn, show3DObjects boundingBoxes worldSize imageSize = Ok drawn.
Proof.
  unfold show3DObjects. intros Hall Hw HH.
  destruct (draw_boxes_defined worldSize imageSize boundingBoxes Hall) as [ds ->].
  cbn [mbind result_bind].
  destruct (draw_markers_defined worldSize imageSize (marker_count worldSize) 0)
    as [ys ->]; [|cbn [mbind result_bind]; eauto].
  intros j Hj. rewrite (marker_count_div worldSize Hw) in Hj.
  assert (Hpos : (0 < height worldSize)%Z).
  { destruct (Z.eq_dec (height worldSize) 0%Z) as [E|]; [|lia].
    rewrite E, Zdiv_0_l in Hj. simpl in Hj. lia. }
  destruct (marker_inside worldSize imageSize j) as (q & Eq & Hq0 & Hq1);
    [lia | exact Hpos | lia |].
  unfold marker_y. rewrite (to_int_proper _ _ Eq).
  exists (d2i q). apply to_int_fits. apply fits_int_d2i.
  pose proof (d2i_range q (height imageSize) Hq0 Hq1). unfold is_int, INT_MIN. lia.
Qed.

Lemma plot_points_plots worldSize imageSize points : forall st st',
  plot_points worldSize imageSize st points = Ok st' ->
  Forall (plots worldSize imageSize) points.
Proof.
  induction points as [|p points IH]; intros st st'; simpl; [constructor|].
  destruct (plot_point worldSize imageSize st p) as [st1| |] eqn:E;
    cbn [mbind result_bind]; try discriminate.
  intros Hrun. constructor; [|exact (IH _ _ Hrun)].
  apply plot_point_inv in E. destruct E as (x & y & Hy & Hx & Hh & Hw & _).
  apply to_int_inv in Hy, Hx. unfold plots. tauto.
Qed.

Lemma draw_boxes_plots worldSize imageSize boxes : forall ds,
  draw_boxes worldSize imageSize boxes = Ok ds ->
  Forall (fun b => Forall (plots worldSize imageSize) (lidarPoints b)) boxes.
Proof.
  induction boxes as [|b boxes IH]; intros ds; simpl; [constructor|].
  unfold draw_box at 1.
  destruct (plot_points worldSize imageSize TopView_init (lidarPoints b))
    as [st| |] eqn:E; cbn [mbind result_bind]; try discriminate.
  destruct (draw_boxes worldSize imageSize boxes) as [ds'| |];
    cbn [mbind result_bind]; try discriminate.
  intros _. constructor; [exact (plot_points_plots _ _ _ _ _ E) | now apply (IH ds')].
Qed.

(** With a negative world height the bound of the marker loop, converted
    to [size_t], is above [2^63], and the loop reaches a marker whose height
    is [2^32 + 1] times the image height. *)
Lemma marker_far (worldSize imageSize : Size) :
  (- 2 ^ 31 <= height worldSize < 0)%Z ->
  let i := Z.to_nat (2 ^ 31 * - height worldSize) in
  (i < marker_count worldSize)%nat /\
  Qeq (- (inject_Z (Z.of_nat i) * lineSpacing) * inject_Z (height imageSize)
       / inject_Z (height worldSize) + inject_Z (height imageSize))%Q
      (inject_Z (height imageSize * (2 ^ 32 + 1))).
Proof.
  intros Hw i. split.
  - unfold marker_count. rewrite nMarkers_div. subst i.
    assert (Hdiv : (- 2 ^ 30 <= height worldSize / 2 < 0)%Z).
    { split; [apply Z.div_le_lower_bound; lia | apply Z.div_lt_upper_bound; lia]. }
    replace ((height worldSize / 2) mod 2 ^ 64)%Z
      with (height worldSize / 2 + 2 ^ 64)%Z.
    + apply Z2Nat.inj_lt; nia.
    + symmetry. rewrite <- (Z.mod_add _ 1) by lia. rewrite Z.mul_1_l.
      apply Z.mod_small. lia.
  - subst i. rewrite Z2Nat.id by nia. unfold lineSpacing.
    rewrite !inject_Z_mult, inject_Z_plus, inject_Z_opp.
    assert (HW : ~ (inject_Z (height worldSize) == 0)%Q).
    { intros E. unfold Qeq in E. simpl in E. lia. }
    change (inject_Z (2 ^ 31)) with (2147483648%Q).
    change (inject_Z (2 ^ 32)) with (4294967296%Q).
    change (inject_Z 1) with 1%Q. field. exact HW.
Qed.

(** X26: what a call whose arithmetic is defined (the model's [Ok]) tells
    about its arguments.  Every lidar point of every box could be plotted:
    unless no box holds a point, neither dimension of the world size is
    zero (a quotient by zero is not finite, and its conversion to [int] is
    undefined), and the two top-view coordinates of every point have integer
    parts that are [int]s.  And the world height is not negative, unless the
    image height is zero: a negative count of markers converts to a loop
    bound above [2^63], and the heights of the markers leave the [int]s long
    before the loop ends. *)
Theorem show3DObjects_outcome
    (boundingBoxes : list BoundingBox) (worldSize imageSize : Size)
    (drawn : list BoxDrawing * list Z) :
  show3DObjects boundingBoxes worldSize imageSize = Ok drawn ->
  Forall (fun b => Forall (plots worldSize imageSize) (lidarPoints b))
    boundingBoxes /\
  ((- 2 ^ 31 <= height worldSize < 0)%Z -> height imageSize = 0%Z).
Proof.
  unfold show3DObjects.
  destruct (draw_boxes worldSize imageSize boundingBoxes) as [ds| |] eqn:E;
    cbn [mbind result_bind]; try discriminate.
  destruct (draw_markers worldSize imageSize 0 (marker_count worldSize))
    as [ms| |] eqn:Em; cbn [mbind result_bind]; try discriminate.
  intros _. split; [exact (draw_boxes_plots _ _ _ _ E)|].
  intros Hw. destruct (marker_far worldSize imageSize Hw) as [Hi Eq].
  destruct (draw_markers_spec _ _ _ _ _ Em) as [Hlen Hys].
  rewrite <- Hlen in Hi.
  destruct (lookup_lt_is_Some_2 _ _ Hi) as [y Hy].
  apply Hys in Hy. simpl in Hy. unfold marker_y in Hy.
  rewrite (to_int_proper _ _ Eq) in Hy. apply to_int_inv in Hy.
  destruct Hy as [_ [Hlo Hhi]].
  change (inject_Z INT_MIN - 1)%Q with (inject_Z (INT_MIN - 1)) in Hlo.
  change (inject_Z INT_MAX + 1)%Q with (inject_Z (INT_MAX + 1)) in Hhi.
  rewrite <- Zlt_Qlt in Hlo, Hhi. unfold INT_MIN, INT_MAX in *. lia.
Qed.



End TopViewProps.

Lemma show3DObjects_rectangle_encloses_witness :
  length [topview_drawing_example] = length topview_boxes_example /\
  forall k b, topview_boxes_example !! k = Some b ->
    exists d, [topview_drawing_example] !! k = Some d /\
      Forall (encloses (view d)) (centres (view d)) /\
      length (centres (view d)) = length (lidarPoints b) /\
      label_pts d = Z.of_nat (length (lidarPoints b)) /\
      label_id d = boxID b.
Proof.
  apply (show3DObjects_rectangle_encloses topview_boxes_example
           (mkSize 20 20) (mkSize 2000 2000)
           [topview_drawing_example] topview_markers_example).
  reflexivity.
Defined.

Lemma show3DObjects_outcome_witness :
  Forall (fun b => Forall (plots (mkSize 20 20) (mkSize 2000 2000)) (lidarPoints b))
    topview_boxes_example /\
  ((- 2 ^ 31 <= 20 < 0)%Z -> 2000%Z = 0%Z).
Proof.
  apply (show3DObjects_outcome topview_boxes_example (mkSize 20 20)
           (mkSize 2000 2000) ([topview_drawing_example], topview_markers_example)).
  reflexivity.
Defined.



